(** * fire-enrich: the enrichment table's streaming session state machine

    A shallow embedding of the client-side logic of [EnrichmentTable]
    (the React component that consumes the enrichment stream, keeps the
    per-row result store and the shared message log, and builds the
    context of a conversational query), followed by the properties of
    the specification that it satisfies or violates.

    React state cells ([useState]) become fields of the record [State];
    a state update [setX(prev => ...)] becomes a function on [State];
    the wall clock [Date.now()] and [Math.random()] are explicit inputs
    of every handler; [setTimeout] callbacks are kept in a queue of pending
    timers; [advance] is the event loop running those that are due. *)

From Stdlib Require Import ZArith QArith Qminmax Qpower SpecFloat String Ascii List.
From stdpp Require Import gmap strings list fin_maps pretty.
Import ListNotations.

#[local] Set Warnings "-register-all,-clear-no-such-hyp".
Local Open Scope string_scope.
Local Open Scope list_scope.
Local Open Scope Z_scope.

(** ** JavaScript values, as [JSON.parse] produces them *)

(** A JavaScript number as a JSON value carries it: a finite double (by
    its exact rational value; [-0] and [+0] are both [Finite 0]), an
    infinity, or NaN. The numbers the component computes with are
    doubles with their rounding, see _Arithmetic on numbers_. *)
Inductive JsNumber : Type :=
  | Finite (q : Q)
  | PosInfinity
  | NegInfinity
  | NaN.

Inductive JsValue : Type :=
  | JsUndefined
  | JsNull
  | JsBool (b : bool)
  | JsNum (n : JsNumber)
  | JsStr (s : string)
  | JsArr (items : list JsValue)
  | JsObj (props : list (string * JsValue)).

(** [ToBoolean] on numbers: [0], [-0] and [NaN] are falsy. *)
Definition number_truthy (n : JsNumber) : bool :=
  match n with
  | Finite q => negb (Qnum q =? 0)
  | PosInfinity | NegInfinity => true
  | NaN => false
  end.

(** [ToBoolean]: what [if (v)] and [v || w] test. *)
Definition truthy (v : JsValue) : bool :=
  match v with
  | JsUndefined | JsNull => false
  | JsBool b => b
  | JsNum n => number_truthy n
  | JsStr s => negb (String.eqb s "")
  | JsArr _ | JsObj _ => true
  end.

(** Truthiness of a string, [if (s)]. *)
Definition str_truthy (s : string) : bool := negb (String.eqb s "").

(** A string interpolated in a template literal; a missing one prints as
    [undefined]. *)
Definition template_str (o : option string) : string :=
  match o with
  | Some s => s
  | None => "undefined"
  end.

(** The line feed, written [\n] in the source. *)
Definition LF : string := String (ascii_of_nat 10) "".

(** [xs.join(sep)] on an array of strings. *)
Fixpoint join (sep : string) (xs : list string) : string :=
  match xs with
  | [] => ""
  | [x] => x
  | x :: rest => x +:+ sep +:+ join sep rest
  end.

(** [xs.slice(-n)]: the last [n] elements, the whole array when it is
    shorter. *)
Definition slice_last {A} (n : nat) (xs : list A) : list A :=
  drop (length xs - n)%nat xs.

(** ** Arithmetic on numbers

    Where the component computes with numbers, a number is an IEEE 754
    double: [spec_float] of the Standard Library at 53 bits of precision
    and [emax = 1024], whose operations round to the nearest double, ties
    to even. Clock readings ([Date.now()]) and their differences are
    integers a double holds exactly; they are kept as integers and
    converted where they meet a computed double. *)

(** An integer as a number: the nearest double, the integer itself when
    its magnitude is below [2 ^ 53]. *)
Definition Number_ofZ (z : Z) : spec_float := binary_normalize 53 1024 z 0 false.

(** [x * y] *)
Definition Number_mul : spec_float → spec_float → spec_float := SFmul 53 1024.

(** [x / y] *)
Definition Number_div : spec_float → spec_float → spec_float := SFdiv 53 1024.

(** [x > y] *)
Definition Number_gt (x y : spec_float) : bool := SFltb y x.

(** [Math.min(x, y)]: [NaN] when either is, and [-0] below [+0]. *)
Definition Math_min (x y : spec_float) : spec_float :=
  match SFcompare x y with
  | None => S754_nan
  | Some Lt => x
  | Some Gt => y
  | Some Eq => match x with S754_zero true => x | _ => y end
  end.

(** ** Objects used as records

    A plain object is represented by the list [Object.entries] returns
    for it: its own properties in property order, every key once. *)

Definition obj_get {A} (o : list (string * A)) (k : string) : option A :=
  snd <$> List.find (fun kv => String.eqb (fst kv) k) o.

(** [o[k] = v] on a plain object created by [{}]: an existing property is
    overwritten in place, a new one is added last; the key [__proto__]
    reaches the prototype setter and creates no own property. *)
Fixpoint obj_put {A} (o : list (string * A)) (k : string) (v : A)
  : list (string * A) :=
  match o with
  | [] => [(k, v)]
  | (k', v') :: rest =>
      if String.eqb k' k then (k, v) :: rest else (k', v') :: obj_put rest k v
  end.

Definition obj_set {A} (o : list (string * A)) (k : string) (v : A)
  : list (string * A) :=
  if String.eqb k "__proto__" then o else obj_put o k v.

(** The names [Object.prototype] defines. A plain object that has no own
    property of one of these names inherits the member: a function, or for
    [__proto__] the prototype itself. *)
Definition objectPrototypeKeys : list string :=
  ["constructor"; "__defineGetter__"; "__defineSetter__"; "hasOwnProperty";
   "__lookupGetter__"; "__lookupSetter__"; "isPrototypeOf";
   "propertyIsEnumerable"; "toString"; "valueOf"; "__proto__";
   "toLocaleString"].

(** What the property read [o[k]] finds on a plain object: an own
    property, else a member of [Object.prototype], else [undefined]. *)
Inductive PropertyRead (A : Type) : Type :=
  | OwnProperty (a : A)
  | InheritedMember
  | NoProperty.
Arguments OwnProperty {A} a.
Arguments InheritedMember {A}.
Arguments NoProperty {A}.

Definition obj_read {A} (o : list (string * A)) (k : string) : PropertyRead A :=
  match obj_get o k with
  | Some a => OwnProperty a
  | None =>
      if bool_decide (k ∈ objectPrototypeKeys) then InheritedMember
      else NoProperty
  end.

(** ** The data model ([@/lib/types] and [./chat-panel]) *)

(** Modelled from the spec: the type declarations [CSVRow],
    [EnrichmentField], [FieldEnrichment] and [RowEnrichmentResult] of
    [@/lib/types], and [ChatMessage] of [./chat-panel], which the component
    imports; their fields are those the component reads and writes and
    section 3 of the specification lists. *)
Definition CSVRow : Type := list (string * string).

Record EnrichmentField : Type := mkField {
  f_name : string;
  f_displayName : string;
  f_type : string
}.

Record SourceContext : Type := mkSourceContext {
  sc_url : string;
  sc_snippet : string
}.

Record Evidence : Type := mkEvidence {
  ev_source_url : string;
  ev_exact_text : option string;
  ev_value : JsValue
}.

Record Corroboration : Type := mkCorroboration {
  sources_agree : bool;
  evidence : list Evidence
}.

Record FieldEnrichment : Type := mkEnrichment {
  fe_value : JsValue;
  fe_confidence : option JsNumber;
  fe_source : option string;
  fe_sourceContext : option (list SourceContext);
  fe_corroboration : option Corroboration
}.

Inductive RowStatus : Type :=
  | RowPending
  | RowProcessing
  | RowCompleted
  | RowSkipped
  | RowError.

Record RowEnrichmentResult : Type := mkResult {
  r_rowIndex : Z;
  r_originalData : option CSVRow;
  r_enrichments : list (string * FieldEnrichment);
  r_status : RowStatus;
  r_error : option string
}.

(** A message of the shared log. Its [type] stays a string: progress
    messages carry whatever [messageType] the producer sent. *)
Record ChatMessage : Type := mkMessage {
  m_id : string;
  m_message : string;
  m_type : string;
  m_timestamp : Z;
  m_rowIndex : option Z;
  m_sourceUrl : option string
}.

(** The controller's [status]. *)
Inductive Status : Type :=
  | Idle
  | Processing
  | Completed
  | Cancelled.

(** ** Decoded frames of the two streams *)

(** The object [JSON.parse] yields for a [data: ] frame of the enrichment
    stream, by its [type] discriminator. [EvOther] is any other object: the
    [switch] has no case for it. *)
Inductive StreamEvent : Type :=
  | EvSession (sessionId : string)
  | EvPending (rowIndex : Z)
  | EvProcessing (rowIndex : Z)
  | EvResult (result : RowEnrichmentResult)
  | EvComplete
  | EvCancelled
  | EvError (error : string)
  | EvAgentProgress (message messageType : string)
      (rowIndex : option Z) (sourceUrl : option string)
  | EvOther.

(** Frames of the query stream. *)
Inductive ChatEvent : Type :=
  | ChStatus (message : string) (sourceUrl : option string)
  | ChResponse (message : string)
  | ChError (message : string)
  | ChOther.

(** One line of a decoded chunk: a line without the [data: ] prefix, a
    [data: ] line whose payload [JSON.parse] rejects, or a [data: ] line
    carrying an event, together with the clock reading and the random
    draw its handler sees. *)
Inductive Line (E : Type) : Type :=
  | NoData
  | BadJson
  | Data (now : Z) (rnd : string) (e : E).
Arguments NoData {E}.
Arguments BadJson {E}.
Arguments Data {E} now rnd e.

(** How the reader's loop ends: [done] is reported, or [read()] rejects. *)
Inductive StreamEnd : Type :=
  | EndOfStream
  | ReadFailure.

(** What [fetch] gives: no usable response (it rejects, [!response.ok], or
    the body has no reader), or a stream of chunks, each a list of lines. *)
Inductive FetchOutcome (E : Type) : Type :=
  | FetchFailed
  | Streamed (chunks : list (list (Line E))) (fin : StreamEnd).
Arguments FetchFailed {E}.
Arguments Streamed {E} chunks fin.

(** ** Component state *)

Record State : Type := mkState {
  results : gmap Z RowEnrichmentResult;
  status : Status;
  currentRow : Z;
  sessionId : option string;
  agentMessages : list ChatMessage;
  chatQueryId : option string;
  isChatProcessing : bool;
  rowDataArrivalTime : gmap Z Z;
  cellsShown : gset string;
  (** pending [setTimeout] callbacks of the [result] case: due time and
      the row whose cells they mark *)
  timers : list (Z * Z)
}.

(** The state of a freshly mounted component. *)
Definition initial : State :=
  {| results := ∅; status := Idle; currentRow := -1; sessionId := None;
     agentMessages := []; chatQueryId := None; isChatProcessing := false;
     rowDataArrivalTime := ∅; cellsShown := ∅; timers := [] |}.

Definition setResults (f : gmap Z RowEnrichmentResult → gmap Z RowEnrichmentResult)
    (st : State) : State :=
  {| results := f (results st); status := status st;
     currentRow := currentRow st; sessionId := sessionId st;
     agentMessages := agentMessages st; chatQueryId := chatQueryId st;
     isChatProcessing := isChatProcessing st;
     rowDataArrivalTime := rowDataArrivalTime st;
     cellsShown := cellsShown st; timers := timers st |}.

Definition setStatus (s : Status) (st : State) : State :=
  {| results := results st; status := s;
     currentRow := currentRow st; sessionId := sessionId st;
     agentMessages := agentMessages st; chatQueryId := chatQueryId st;
     isChatProcessing := isChatProcessing st;
     rowDataArrivalTime := rowDataArrivalTime st;
     cellsShown := cellsShown st; timers := timers st |}.

Definition setCurrentRow (i : Z) (st : State) : State :=
  {| results := results st; status := status st;
     currentRow := i; sessionId := sessionId st;
     agentMessages := agentMessages st; chatQueryId := chatQueryId st;
     isChatProcessing := isChatProcessing st;
     rowDataArrivalTime := rowDataArrivalTime st;
     cellsShown := cellsShown st; timers := timers st |}.

Definition setSessionId (s : option string) (st : State) : State :=
  {| results := results st; status := status st;
     currentRow := currentRow st; sessionId := s;
     agentMessages := agentMessages st; chatQueryId := chatQueryId st;
     isChatProcessing := isChatProcessing st;
     rowDataArrivalTime := rowDataArrivalTime st;
     cellsShown := cellsShown st; timers := timers st |}.

Definition setAgentMessages (f : list ChatMessage → list ChatMessage)
    (st : State) : State :=
  {| results := results st; status := status st;
     currentRow := currentRow st; sessionId := sessionId st;
     agentMessages := f (agentMessages st); chatQueryId := chatQueryId st;
     isChatProcessing := isChatProcessing st;
     rowDataArrivalTime := rowDataArrivalTime st;
     cellsShown := cellsShown st; timers := timers st |}.

Definition setChatQueryId (q : option string) (st : State) : State :=
  {| results := results st; status := status st;
     currentRow := currentRow st; sessionId := sessionId st;
     agentMessages := agentMessages st; chatQueryId := q;
     isChatProcessing := isChatProcessing st;
     rowDataArrivalTime := rowDataArrivalTime st;
     cellsShown := cellsShown st; timers := timers st |}.

Definition setIsChatProcessing (b : bool) (st : State) : State :=
  {| results := results st; status := status st;
     currentRow := currentRow st; sessionId := sessionId st;
     agentMessages := agentMessages st; chatQueryId := chatQueryId st;
     isChatProcessing := b;
     rowDataArrivalTime := rowDataArrivalTime st;
     cellsShown := cellsShown st; timers := timers st |}.

Definition setRowDataArrivalTime (f : gmap Z Z → gmap Z Z) (st : State) : State :=
  {| results := results st; status := status st;
     currentRow := currentRow st; sessionId := sessionId st;
     agentMessages := agentMessages st; chatQueryId := chatQueryId st;
     isChatProcessing := isChatProcessing st;
     rowDataArrivalTime := f (rowDataArrivalTime st);
     cellsShown := cellsShown st; timers := timers st |}.

Definition setCellsShown (f : gset string → gset string) (st : State) : State :=
  {| results := results st; status := status st;
     currentRow := currentRow st; sessionId := sessionId st;
     agentMessages := agentMessages st; chatQueryId := chatQueryId st;
     isChatProcessing := isChatProcessing st;
     rowDataArrivalTime := rowDataArrivalTime st;
     cellsShown := f (cellsShown st); timers := timers st |}.

Definition setTimers (f : list (Z * Z) → list (Z * Z)) (st : State) : State :=
  {| results := results st; status := status st;
     currentRow := currentRow st; sessionId := sessionId st;
     agentMessages := agentMessages st; chatQueryId := chatQueryId st;
     isChatProcessing := isChatProcessing st;
     rowDataArrivalTime := rowDataArrivalTime st;
     cellsShown := cellsShown st; timers := f (timers st) |}.

(** ** The component *)

Section EnrichmentTable.

(** The component's props, and [JSON.stringify] on the values it is applied
    to. *)
Variable rows : list CSVRow.
Variable fields : list EnrichmentField.
Variable emailColumn : option string.
Variable JSON_stringify : JsValue → string.

(** [rows[i]], [undefined] outside the array. *)
Definition row_at (i : Z) : option CSVRow :=
  if 0 <=? i then rows !! Z.to_nat i else None.

(** The key of a cell in [cellsShown]: the row index, a dash, the field's
    name. *)
Definition cellKey (rowIndex : Z) (name : string) : string :=
  pretty rowIndex +:+ "-" +:+ name.

Definition completionNotice : string :=
  "All enrichment tasks completed successfully".

(** *** Reveal timing *)

(** [Math.min(300, totalRowAnimationTime / fields.length)] with
    [totalRowAnimationTime = 2000]; dividing by a length of zero gives
    [Infinity], and the minimum is then 300. *)
Definition delayPerCell : spec_float :=
  Math_min (Number_ofZ 300)
    (Number_div (Number_ofZ 2000) (Number_ofZ (Z.of_nat (length fields)))).

(** [!arrivalTime] is true for a missing entry and for the number 0. *)
Definition getCellAnimationDelay (st : State) (rowIndex : Z) (fieldIndex : nat)
  : spec_float :=
  match rowDataArrivalTime st !! rowIndex with
  | None => S754_zero false
  | Some arrivalTime =>
      if arrivalTime =? 0 then S754_zero false
      else Number_mul (Number_ofZ (Z.of_nat fieldIndex)) delayPerCell
  end.

Definition isCellShown (st : State) (index : Z) (name : string) : bool :=
  bool_decide (cellKey index name ∈ cellsShown st).

(** [rowArrivalTime && !isCellShown && Date.now() - rowArrivalTime < 2500] *)
Definition shouldAnimate (st : State) (now : Z) (index : Z) (name : string)
  : bool :=
  match rowDataArrivalTime st !! index with
  | None => false
  | Some rowArrivalTime =>
      negb (rowArrivalTime =? 0) && negb (isCellShown st index name)
      && (now - rowArrivalTime <? 2500)
  end.

(** [isCellShown || (rowArrivalTime && Date.now() - rowArrivalTime > cellDelay)] *)
Definition shouldShowData (st : State) (now : Z) (index : Z)
    (fieldIndex : nat) (name : string) : bool :=
  isCellShown st index name
  || match rowDataArrivalTime st !! index with
     | None => false
     | Some rowArrivalTime =>
         negb (rowArrivalTime =? 0)
         && Number_gt (Number_ofZ (now - rowArrivalTime))
                      (getCellAnimationDelay st index fieldIndex)
     end.

(** The hold-back test of a cell, [!shouldShowData && shouldAnimate]: in
    a row whose result is neither missing, pending nor skipped, a cell
    that passes it draws the pulse placeholder whatever its status and
    value; a cell that fails it is drawn by its status and value. *)
Definition cellAwaitsReveal (st : State) (now : Z) (index : Z)
    (fieldIndex : nat) (name : string) : bool :=
  negb (shouldShowData st now index fieldIndex name)
  && shouldAnimate st now index name.

(** The callback the [result] case hands to [setTimeout]. *)
Definition markRowShown (rowIndex : Z) (st : State) : State :=
  let rowCells := map (fun f => cellKey rowIndex (f_name f)) fields in
  setCellsShown (fun prev => foldl (fun newSet cell => {[cell]} ∪ newSet) prev rowCells) st.

(** The event loop running the timers at clock reading [now]: every
    callback that is due runs, in the order the timers were set. *)
Definition advance (now : Z) (st : State) : State :=
  let due := filter (fun t => fst t <= now) (timers st) in
  let later := filter (fun t => ¬ fst t <= now) (timers st) in
  foldl (fun s t => markRowShown (snd t) s) (setTimers (fun _ => later) st) due.

(** *** The enrichment stream: one case of the [switch] per event *)

(** The placeholder the [pending] case stores. *)
Definition pendingResult (rowIndex : Z) : RowEnrichmentResult :=
  {| r_rowIndex := rowIndex; r_originalData := row_at rowIndex;
     r_enrichments := []; r_status := RowPending; r_error := None |}.

Definition onPending (rowIndex : Z) (prev : gmap Z RowEnrichmentResult)
  : gmap Z RowEnrichmentResult :=
  match prev !! rowIndex with
  | None => <[rowIndex := pendingResult rowIndex]> prev
  | Some _ => prev
  end.

(** [{...existing, status: 'processing'}] *)
Definition withStatus (s : RowStatus) (r : RowEnrichmentResult)
  : RowEnrichmentResult :=
  {| r_rowIndex := r_rowIndex r; r_originalData := r_originalData r;
     r_enrichments := r_enrichments r; r_status := s; r_error := r_error r |}.

Definition onProcessing (rowIndex : Z) (prev : gmap Z RowEnrichmentResult)
  : gmap Z RowEnrichmentResult :=
  match prev !! rowIndex with
  | Some existing => <[rowIndex := withStatus RowProcessing existing]> prev
  | None => prev
  end.

Definition completionMessage (now : Z) : ChatMessage :=
  {| m_id := "complete-" +:+ pretty now; m_message := completionNotice;
     m_type := "success"; m_timestamp := now;
     m_rowIndex := None; m_sourceUrl := None |}.

Definition onComplete (now : Z) (prev : list ChatMessage) : list ChatMessage :=
  let hasCompletionMessage :=
    existsb (fun msg => String.eqb (m_message msg) completionNotice) prev in
  if hasCompletionMessage then prev else prev ++ [completionMessage now].

Definition progressMessage (now : Z) (rnd : string) (message messageType : string)
    (rowIndex : option Z) (sourceUrl : option string) : ChatMessage :=
  {| m_id := pretty now +:+ "-" +:+ rnd; m_message := message;
     m_type := messageType; m_timestamp := now;
     m_rowIndex := rowIndex; m_sourceUrl := sourceUrl |}.

Definition onAgentProgress (msg : ChatMessage) (prev : list ChatMessage)
  : list ChatMessage :=
  let newMessages := prev ++ [msg] in
  slice_last 500 newMessages.

Definition handleEvent (now : Z) (rnd : string) (data : StreamEvent) (st : State)
  : State :=
  match data with
  | EvSession sid => setSessionId (Some sid) st
  | EvPending rowIndex => setResults (onPending rowIndex) st
  | EvProcessing rowIndex =>
      setResults (onProcessing rowIndex) (setCurrentRow rowIndex st)
  | EvResult result =>
      let st1 := setResults (fun prev => <[r_rowIndex result := result]> prev) st in
      let st2 := setRowDataArrivalTime
                   (fun prevTime => <[r_rowIndex result := now]> prevTime) st1 in
      setTimers (fun ts => ts ++ [(now + 2500, r_rowIndex result)]) st2
  | EvComplete => setAgentMessages (onComplete now) (setStatus Completed st)
  | EvCancelled => setStatus Cancelled st
  | EvError _ => setStatus Completed st
  | EvAgentProgress message messageType rowIndex sourceUrl =>
      setAgentMessages
        (onAgentProgress (progressMessage now rnd message messageType rowIndex sourceUrl))
        st
  | EvOther => st
  end.

(** One line of a chunk: only a [data: ] line with a parsable payload
    reaches the [switch]. *)
Definition handleLine (ln : Line StreamEvent) (st : State) : State :=
  match ln with
  | NoData | BadJson => st
  | Data now rnd e => handleEvent now rnd e st
  end.

Definition handleLines (lns : list (Line StreamEvent)) (st : State) : State :=
  foldl (fun s ln => handleLine ln s) st lns.

(** The [while (true)] loop over the reader's chunks. *)
Definition readLoop (chunks : list (list (Line StreamEvent))) (st : State)
  : State :=
  foldl (fun s lns => handleLines lns s) st chunks.

(** [startEnrichment]: the status is set to processing, the stream is read
    to its end; the [catch] block runs when the request or a read fails. *)
Definition startEnrichment (outcome : FetchOutcome StreamEvent) (st : State)
  : State :=
  let st := setStatus Processing st in
  match outcome with
  | FetchFailed => setStatus Completed st
  | Streamed chunks EndOfStream => readLoop chunks st
  | Streamed chunks ReadFailure => setStatus Completed (readLoop chunks st)
  end.

(** [cancelEnrichment]: the request it sends, if any, and the next state.
    [requestSucceeds] tells whether the [DELETE] request resolves or
    rejects; the rejection is caught and logged. *)
Definition cancelEnrichment (requestSucceeds : bool) (st : State)
  : option string * State :=
  match sessionId st with
  | Some sid =>
      if str_truthy sid then
        (Some ("/api/enrich?sessionId=" +:+ sid),
         setCurrentRow (-1) (setStatus Cancelled st))
      else (None, st)
  | None => (None, st)
  end.

(** *** The conversational query *)

Record ChatContext : Type := mkContext {
  ctx_emailColumn : option string;
  ctx_fields : list (string * string);
  ctx_totalRows : nat;
  ctx_processedRows : nat;
  ctx_tableData : string
}.

(** The body of the [POST /api/chat] request. *)
Record ChatRequest : Type := mkRequest {
  req_question : string;
  req_context : ChatContext;
  req_conversationHistory : list (string * string);
  req_sessionId : string
}.

Definition userMessage (now : Z) (message : string) : ChatMessage :=
  {| m_id := "user-" +:+ pretty now; m_message := message; m_type := "user";
     m_timestamp := now; m_rowIndex := None; m_sourceUrl := None |}.

(** [msg.type === 'user' || msg.type === 'assistant'] *)
Definition isTurn (msg : ChatMessage) : bool :=
  String.eqb (m_type msg) "user" || String.eqb (m_type msg) "assistant".

Definition toTurn (msg : ChatMessage) : string * string :=
  (if String.eqb (m_type msg) "user" then "user" else "assistant",
   m_message msg).

(** [agentMessages.filter(...).slice(-10).map(...)], on the
    [agentMessages] of the render the handler was created in. *)
Definition conversationHistory (agentMessages : list ChatMessage)
  : list (string * string) :=
  map toTurn (slice_last 10 (List.filter isTurn agentMessages)).

(** The object [enrichedData] after the [forEach] over
    [Object.entries(result.enrichments)]. *)
Definition enrichedData (result : RowEnrichmentResult)
  : list (string * JsValue) :=
  foldl (fun acc entry =>
           if truthy (fe_value (snd entry))
           then obj_set acc (fst entry) (fe_value (snd entry))
           else acc)
        [] (r_enrichments result).

(** [emailColumn ? row[emailColumn] : Object.values(row)[0]] *)
Definition emailOf (row : CSVRow) : option string :=
  match emailColumn with
  | Some c => if str_truthy c then obj_get row c else snd <$> head row
  | None => snd <$> head row
  end.

Definition dataPoints (result : RowEnrichmentResult) : string :=
  join ", " (map (fun kv => fst kv +:+ ": " +:+ JSON_stringify (snd kv))
                 (enrichedData result)).

Definition rowLine (index : nat) (row : CSVRow) (result : RowEnrichmentResult)
  : string :=
  "Row " +:+ pretty (index + 1)%nat +:+ " (" +:+ template_str (emailOf row)
  +:+ "): "
  +:+ (if str_truthy (dataPoints result) then dataPoints result
       else "No data enriched yet").

(** The callback of [rows.map]: [null] for a row without a result or with
    a pending one. *)
Definition tableDataRow (results : gmap Z RowEnrichmentResult)
    (index : nat) (row : CSVRow) : option string :=
  match results !! Z.of_nat index with
  | None => None
  | Some result =>
      match r_status result with
      | RowPending => None
      | _ => Some (rowLine index row result)
      end
  end.

(** [.filter(Boolean)] on an array of strings and [null]s. *)
Definition filterBoolean (xs : list (option string)) : list string :=
  omap (fun x => match x with
                 | Some s => if str_truthy s then Some s else None
                 | None => None
                 end) xs.

Definition tableDataRows (results : gmap Z RowEnrichmentResult) : list string :=
  filterBoolean (imap (tableDataRow results) rows).

Definition tableDataString (results : gmap Z RowEnrichmentResult) : string :=
  let lines := tableDataRows results in
  if (0 <? length lines)%nat then
    "Enriched Data Table:" +:+ LF +:+ join LF lines +:+ LF +:+ LF
    +:+ "Total: " +:+ pretty (length lines) +:+ " rows with data"
  else "".

(** The request body, built from the [results] and [agentMessages] of the
    render in which [handleChatMessage] was created. *)
Definition chatRequest (rendered : State) (message queryId : string)
  : ChatRequest :=
  {| req_question := message;
     req_context :=
       {| ctx_emailColumn := emailColumn;
          ctx_fields := map (fun f => (f_name f, f_displayName f)) fields;
          ctx_totalRows := length rows;
          ctx_processedRows := size (results rendered);
          ctx_tableData := tableDataString (results rendered) |};
     req_conversationHistory := conversationHistory (agentMessages rendered);
     req_sessionId := queryId |}.

(** The synchronous prefix of [handleChatMessage]: the query id, the
    processing flag and the user's message, each through its setter. *)
Definition chatBegin (now : Z) (queryId message : string) (st : State) : State :=
  setAgentMessages (fun prev => prev ++ [userMessage now message])
    (setIsChatProcessing true (setChatQueryId (Some queryId) st)).

Definition handleChatEvent (now : Z) (rnd : string) (data : ChatEvent)
    (st : State) : State :=
  match data with
  | ChStatus message sourceUrl =>
      setAgentMessages (fun prev => prev ++
        [{| m_id := "status-" +:+ pretty now +:+ "-" +:+ rnd;
            m_message := message; m_type := "info"; m_timestamp := now;
            m_rowIndex := None; m_sourceUrl := sourceUrl |}]) st
  | ChResponse message =>
      setAgentMessages (fun prev => prev ++
        [{| m_id := "assistant-" +:+ pretty now;
            m_message := message; m_type := "assistant"; m_timestamp := now;
            m_rowIndex := None; m_sourceUrl := None |}]) st
  | ChError message =>
      setAgentMessages (fun prev => prev ++
        [{| m_id := "error-" +:+ pretty now;
            m_message := message; m_type := "warning"; m_timestamp := now;
            m_rowIndex := None; m_sourceUrl := None |}]) st
  | ChOther => st
  end.

Definition handleChatLine (ln : Line ChatEvent) (st : State) : State :=
  match ln with
  | NoData | BadJson => st
  | Data now rnd e => handleChatEvent now rnd e st
  end.

Definition chatReadLoop (chunks : list (list (Line ChatEvent))) (st : State)
  : State :=
  foldl (fun s lns => foldl (fun s' ln => handleChatLine ln s') s lns) st chunks.

(** The [catch] block of [handleChatMessage]. *)
Definition chatFailed (now : Z) (st : State) : State :=
  setAgentMessages (fun prev => prev ++
    [{| m_id := "error-" +:+ pretty now;
        m_message := "Failed to process your question. Please try again.";
        m_type := "warning"; m_timestamp := now;
        m_rowIndex := None; m_sourceUrl := None |}]) st.

(** The [finally] block. *)
Definition chatFinally (st : State) : State :=
  setChatQueryId None (setIsChatProcessing false st).

(** [handleChatMessage], called at clock reading [now] on the rendered
    state [st]; [queryId] is the id it draws from the clock and
    [Math.random()], [endTime] the clock reading when the [catch] block
    runs. It gives the request passed to [fetch] and the state once the
    query is over. *)
Definition handleChatMessage (now : Z) (queryId message : string)
    (outcome : FetchOutcome ChatEvent) (endTime : Z) (st : State)
  : ChatRequest * State :=
  let st1 := chatBegin now queryId message st in
  let request := chatRequest st message queryId in
  let st2 :=
    match outcome with
    | FetchFailed => chatFailed endTime st1
    | Streamed chunks EndOfStream => chatReadLoop chunks st1
    | Streamed chunks ReadFailure => chatFailed endTime (chatReadLoop chunks st1)
    end in
  (request, chatFinally st2).

(** [handleStopQuery]. *)
Definition handleStopQuery (requestSucceeds : bool) (st : State)
  : option string * State :=
  match chatQueryId st with
  | Some qid =>
      if str_truthy qid then
        (Some ("/api/chat?queryId=" +:+ qid),
         setChatQueryId None (setIsChatProcessing false st))
      else (None, st)
  | None => (None, st)
  end.

(** *** Interleavings

    Everything that can touch the state while the component is mounted,
    as one action each; a run is a sequence of them in the order the event
    loop executes them. *)
Inductive Action : Type :=
  | ABeginEnrichment
  | AStreamLine (ln : Line StreamEvent)
  | AEnrichmentCatch
  | ACancelEnrichment (requestSucceeds : bool)
  | AChatBegin (now : Z) (queryId message : string)
  | AChatLine (ln : Line ChatEvent)
  | AChatCatch (now : Z)
  | AChatFinally
  | AStopQuery (requestSucceeds : bool)
  | ATimers (now : Z).

Definition perform (a : Action) (st : State) : State :=
  match a with
  | ABeginEnrichment => setStatus Processing st
  | AStreamLine ln => handleLine ln st
  | AEnrichmentCatch => setStatus Completed st
  | ACancelEnrichment ok => snd (cancelEnrichment ok st)
  | AChatBegin now queryId message => chatBegin now queryId message st
  | AChatLine ln => handleChatLine ln st
  | AChatCatch now => chatFailed now st
  | AChatFinally => chatFinally st
  | AStopQuery ok => snd (handleStopQuery ok st)
  | ATimers now => advance now st
  end.

Definition run (acts : list Action) (st : State) : State :=
  foldl (fun s a => perform a s) st acts.

(** *** Notions the properties are stated with *)

(** The lines of a chunk that carry one [pending] event each, all for the
    same rowIndex, at the given clock readings. *)
Definition pendingLines (i : Z) (stamps : list (Z * string))
  : list (Line StreamEvent) :=
  map (fun s => Data (fst s) (snd s) (EvPending i)) stamps.

(** The terminal events of the enrichment stream. *)
Definition isTerminal (e : StreamEvent) : bool :=
  match e with
  | EvComplete | EvCancelled | EvError _ => true
  | _ => false
  end.

(** The line carries a terminal event. *)
Definition lineIsTerminal (ln : Line StreamEvent) : bool :=
  match ln with
  | Data _ _ e => isTerminal e
  | _ => false
  end.

(** How many entries of the log carry the completion notice's text. *)
Definition noticeCount (log : list ChatMessage) : nat :=
  length (List.filter (fun msg => String.eqb (m_message msg) completionNotice) log).

(** The last [n] elements of a list, read off its end. *)
Definition lastN {A} (n : nat) (xs : list A) : list A :=
  reverse (take n (reverse xs)).

(** [status === 'pending'] *)
Definition isPendingStatus (s : RowStatus) : bool :=
  match s with
  | RowPending => true
  | _ => false
  end.

(** Row [index] has a stored result whose status is not pending. *)
Definition hasData (results : gmap Z RowEnrichmentResult) (index : nat) : bool :=
  match results !! Z.of_nat index with
  | Some result => negb (isPendingStatus (r_status result))
  | None => false
  end.

(** The indices of the rows that have a stored, non-pending result, in
    row order. *)
Definition nonPendingRows (results : gmap Z RowEnrichmentResult) : list nat :=
  filter (fun i => hasData results i) (seq 0 (length rows)).

(** The snapshot's line for row [index]. *)
Definition snapshotLine (results : gmap Z RowEnrichmentResult) (index : nat)
  : option string :=
  row ← rows !! index;
  result ← results !! Z.of_nat index;
  Some (rowLine index row result).

(** The entry's value is truthy and its key makes an own property. *)
Definition keepsEntry (entry : string * FieldEnrichment) : bool :=
  truthy (fe_value (snd entry)) && negb (String.eqb (fst entry) "__proto__").

(** Every cell of the row is marked shown. *)
Definition rowCellsShown (rowIndex : Z) (st : State) : Prop :=
  ∀ f, f ∈ fields → cellKey rowIndex (f_name f) ∈ cellsShown st.

(** The stagger delay of the specification: the field's position times
    [min (300, 2000 / fieldCount)], as a rational number. *)
Definition staggerDelay (fieldCount fieldIndex : nat) : Q :=
  (inject_Z (Z.of_nat fieldIndex)
   * Qmin (inject_Z 300) (inject_Z 2000 / inject_Z (Z.of_nat fieldCount)))%Q.

(** The double [fieldIndex * Math.min(300, 2000 / fieldCount)] evaluates
    to. *)
Definition doubleDelay (fieldCount fieldIndex : nat) : spec_float :=
  Number_mul (Number_ofZ (Z.of_nat fieldIndex))
    (Math_min (Number_ofZ 300)
       (Number_div (Number_ofZ 2000) (Number_ofZ (Z.of_nat fieldCount)))).

(** The number a double stands for; the zeros stand for 0 (infinities and
    [NaN], which stand for no number, are given 0). *)
Definition Number_value (x : spec_float) : Q :=
  match x with
  | S754_finite s m e =>
      ((if s then - inject_Z (Z.pos m) else inject_Z (Z.pos m)) * 2 ^ e)%Q
  | _ => 0%Q
  end.

(** One rounding changes a number by at most this factor, either way. *)
Definition roundingFactor : Q := (1 + 1 / inject_Z (2 ^ 52))%Q.

(** A mantissa of exactly 53 digits. *)
Definition normal (m : positive) : Prop := 2 ^ 52 <= Z.pos m < 2 ^ 53.

(** The value of a finite double, scaled by [2 ^ 1074] so that it is an
    integer. *)
Definition bpow (e : Z) : Z := 2 ^ (e + 1074).
Definition sval (m : positive) (e : Z) : Z := Z.pos m * bpow e.

(** What a delay is: zero, or a normal double below [2 ^ 53]. *)
Definition smallDouble (x : spec_float) : Prop :=
  x = S754_zero false
  ∨ ∃ (m : positive) (e : Z),
      x = S754_finite false m e ∧ normal m ∧ -1074 <= e
      ∧ sval m e < 2 ^ 53 * 2 ^ 1074.

(** ** Properties *)

(** *** Frame lemmas: what each operation leaves alone *)

Lemma add_cells_spec (cells : list string) (base : gset string) :
  foldl (fun newSet cell => {[cell]} ∪ newSet) base cells
  = list_to_set cells ∪ base.
Proof.
  revert base. induction cells as [|c cells IH]; intros base; simpl.
  - set_solver.
  - rewrite IH. set_solver.
Qed.

Lemma markRows_frame (due : list (Z * Z)) (st : State) :
  let st' := foldl (fun s t => markRowShown (snd t) s) st due in
  results st' = results st ∧ status st' = status st
  ∧ agentMessages st' = agentMessages st
  ∧ rowDataArrivalTime st' = rowDataArrivalTime st
  ∧ sessionId st' = sessionId st ∧ timers st' = timers st
  ∧ cellsShown st ⊆ cellsShown st'.
Proof.
  revert st. induction due as [|t due IH]; intros st; simpl.
  - repeat split; done.
  - destruct (IH (markRowShown (snd t) st)) as (-> & -> & -> & -> & -> & -> & Hsub).
    repeat split; try done.
    etrans; [|exact Hsub]. unfold markRowShown; simpl.
    rewrite add_cells_spec. set_solver.
Qed.

Lemma advance_frame (now : Z) (st : State) :
  results (advance now st) = results st
  ∧ status (advance now st) = status st
  ∧ agentMessages (advance now st) = agentMessages st
  ∧ rowDataArrivalTime (advance now st) = rowDataArrivalTime st
  ∧ sessionId (advance now st) = sessionId st.
Proof.
  unfold advance.
  destruct (markRows_frame (filter (fun t => fst t <= now) (timers st))
              (setTimers (fun _ => filter (fun t => ¬ fst t <= now) (timers st)) st))
    as (-> & -> & -> & -> & -> & _ & _).
  repeat split; done.
Qed.

Lemma advance_results (now : Z) (st : State) :
  results (advance now st) = results st.
Proof. apply advance_frame. Qed.

Lemma advance_status (now : Z) (st : State) :
  status (advance now st) = status st.
Proof. apply advance_frame. Qed.

Lemma advance_agentMessages (now : Z) (st : State) :
  agentMessages (advance now st) = agentMessages st.
Proof. apply advance_frame. Qed.

Lemma advance_rowDataArrivalTime (now : Z) (st : State) :
  rowDataArrivalTime (advance now st) = rowDataArrivalTime st.
Proof. apply advance_frame. Qed.

(** *** The result store *)

Lemma onPending_lookup (i j : Z) (m : gmap Z RowEnrichmentResult) :
  onPending i m !! j =
    match m !! j with
    | Some r => Some r
    | None => if decide (i = j) then Some (pendingResult i) else None
    end.
Proof.
  unfold onPending. destruct (m !! i) as [r|] eqn:Hi.
  - destruct (m !! j) eqn:Hj; [done|].
    case_decide; [congruence|done].
  - rewrite lookup_insert. case_decide as Hij.
    + subst j. by rewrite Hi.
    + by destruct (m !! j).
Qed.

Lemma onPending_present (i : Z) (m : gmap Z RowEnrichmentResult) :
  is_Some (m !! i) → onPending i m = m.
Proof. intros [r Hr]. unfold onPending. by rewrite Hr. Qed.

(** No event removes an entry of the store. *)
Lemma handleEvent_keeps_entry (now : Z) (rnd : string) (e : StreamEvent)
    (i : Z) (st : State) :
  is_Some (results st !! i) → is_Some (results (handleEvent now rnd e st) !! i).
Proof.
  intros Hi. destruct e; simpl; try done.
  - rewrite onPending_lookup. destruct Hi as [r ->]. eauto.
  - unfold onProcessing. destruct (results st !! rowIndex) eqn:Hr; [|done].
    rewrite lookup_insert. case_decide; eauto.
  - rewrite lookup_insert. case_decide; eauto.
Qed.

Lemma perform_keeps_entry (a : Action) (i : Z) (st : State) :
  is_Some (results st !! i) → is_Some (results (perform a st) !! i).
Proof.
  intros Hi. destruct a; simpl; try done.
  - destruct ln; simpl; try done.
    by apply handleEvent_keeps_entry.
  - unfold cancelEnrichment. destruct (sessionId st) as [sid|]; [|done].
    by destruct (str_truthy sid).
  - destruct ln as [| |now rnd e]; simpl; try done.
    by destruct e.
  - unfold handleStopQuery. destruct (chatQueryId st) as [qid|]; [|done].
    by destruct (str_truthy qid).
  - by rewrite advance_results.
Qed.

Lemma run_keeps_entry (acts : list Action) (i : Z) (st : State) :
  is_Some (results st !! i) → is_Some (results (run acts st) !! i).
Proof.
  revert st. induction acts as [|a acts IH]; intros st Hi; simpl; [done|].
  apply IH. by apply perform_keeps_entry.
Qed.

(** C1. Handling a [result] event stores the event's payload under its
    rowIndex in place of whatever was stored there: the stored entry is
    the payload itself, so every field of the stored entry is a field of
    the payload (a field the prior entry had and the payload lacks is
    gone); the arrival time of that rowIndex is the clock reading of the
    replacement; the other rows keep their entries. *)
Theorem result_replaces_entry (now : Z) (rnd : string)
    (result : RowEnrichmentResult) (st : State) :
  let st' := handleEvent now rnd (EvResult result) st in
  results st' !! r_rowIndex result = Some result
  ∧ (∀ key : string,
       (results st' !! r_rowIndex result
          ≫= fun stored => obj_get (r_enrichments stored) key)
       = obj_get (r_enrichments result) key)
  ∧ rowDataArrivalTime st' !! r_rowIndex result = Some now
  ∧ results st' = <[r_rowIndex result := result]> (results st)
  ∧ size (results st') =
      match results st !! r_rowIndex result with
      | Some _ => size (results st)
      | None => S (size (results st))
      end.
Proof.
  simpl. rewrite !lookup_insert_eq. repeat split; try done.
  destruct (results st !! r_rowIndex result) as [old|] eqn:Hold.
  - rewrite <- (insert_delete_id (results st) (r_rowIndex result) old) at 2 by done.
    rewrite <- (insert_delete_eq (results st)).
    rewrite !map_size_insert_None by apply lookup_delete_eq. done.
  - by rewrite map_size_insert_None.
Qed.

Lemma pending_again (now : Z) (rnd : string) (i : Z) (st : State) :
  is_Some (results st !! i) →
  results (handleLine (Data now rnd (EvPending i)) st) = results st.
Proof.
  intros Hi. simpl. by apply onPending_present.
Qed.

Lemma pendingLines_present (i : Z) (stamps : list (Z * string)) (st : State) :
  is_Some (results st !! i) →
  results (handleLines (pendingLines i stamps) st) = results st.
Proof.
  revert st. induction stamps as [|s stamps IH]; intros st Hi; [done|].
  change (results (handleLines (pendingLines i stamps)
            (handleLine (Data (fst s) (snd s) (EvPending i)) st)) = results st).
  rewrite IH.
  - by apply pending_again.
  - change (is_Some (results (perform (AStreamLine
      (Data (fst s) (snd s) (EvPending i))) st) !! i)).
    by apply perform_keeps_entry.
Qed.

(** C2. Of a sequence of [pending] events naming the same rowIndex only
    the first can create an entry: after it the store holds, for that
    rowIndex, the entry it already had or else the pending placeholder
    with empty enrichments; the rest of the sequence leaves the store as
    the first event left it; and after any further activity whatsoever
    (results, processing marks, queries, timers) one more [pending] event
    for that rowIndex leaves the store unchanged. *)
Theorem pending_only_first_creates (i : Z) (now : Z) (rnd : string)
    (stamps : list (Z * string)) (acts : list Action)
    (now' : Z) (rnd' : string) (st : State) :
  let first := handleLine (Data now rnd (EvPending i)) st in
  results first !! i = Some (default (pendingResult i) (results st !! i))
  ∧ r_enrichments (pendingResult i) = []
  ∧ r_status (pendingResult i) = RowPending
  ∧ (∀ j : Z, j ≠ i → results first !! j = results st !! j)
  ∧ results (handleLines (pendingLines i stamps) first) = results first
  ∧ results (handleLine (Data now' rnd' (EvPending i)) (run acts first))
    = results (run acts first).
Proof.
  assert (Hfirst : results (handleLine (Data now rnd (EvPending i)) st) !! i
                   = Some (default (pendingResult i) (results st !! i))).
  { simpl. rewrite onPending_lookup.
    destruct (results st !! i); simpl; [done|]. by rewrite decide_True. }
  assert (Hsome : is_Some (results (handleLine (Data now rnd (EvPending i)) st) !! i))
    by (rewrite Hfirst; eauto).
  cbv zeta. repeat split; try done.
  - intros j Hj. simpl. rewrite onPending_lookup.
    destruct (results st !! j); [done|]. by rewrite decide_False.
  - by apply pendingLines_present.
  - apply pending_again. by apply run_keeps_entry.
Qed.

(** *** The message log *)

Lemma slice_last_length {A} (n : nat) (xs : list A) :
  length (slice_last n xs) = (length xs `min` n)%nat.
Proof. unfold slice_last. rewrite length_drop. lia. Qed.

Lemma slice_last_suffix {A} (n : nat) (xs : list A) :
  slice_last n xs `suffix_of` xs.
Proof. apply suffix_drop. Qed.

Lemma slice_last_short {A} (n : nat) (xs : list A) :
  (length xs ≤ n)%nat → slice_last n xs = xs.
Proof.
  intros H. unfold slice_last. replace (length xs - n)%nat with 0%nat by lia.
  done.
Qed.

(** The [agent_progress] case keeps the newest 500 messages: the log it
    leaves is the end of the old log followed by the new message, and what
    it drops is the beginning of the old log. *)
Lemma onAgentProgress_cap (msg : ChatMessage) (prev : list ChatMessage) :
  (length (onAgentProgress msg prev) ≤ 500)%nat
  ∧ onAgentProgress msg prev
    = drop (length prev + 1 - 500)%nat prev ++ [msg]
  ∧ take (length prev + 1 - 500)%nat prev ++ onAgentProgress msg prev
    = prev ++ [msg].
Proof.
  unfold onAgentProgress. split; [rewrite slice_last_length; lia|].
  unfold slice_last. rewrite length_app. simpl.
  assert (length prev + 1 - 500 ≤ length prev)%nat by lia.
  rewrite drop_app_le by done. split; [done|].
  by rewrite app_assoc, take_drop.
Qed.

Lemma handleLine_status (ln : Line StreamEvent) (st : State) :
  lineIsTerminal ln = false → status (handleLine ln st) = status st.
Proof.
  destruct ln as [| |now rnd e]; simpl; try done.
  by destruct e.
Qed.

Lemma handleLines_status (lns : list (Line StreamEvent)) (st : State) :
  forallb (fun ln => negb (lineIsTerminal ln)) lns = true →
  status (handleLines lns st) = status st.
Proof.
  revert st. induction lns as [|ln lns IH]; intros st H; [done|].
  simpl in H. apply andb_true_iff in H as [Hln Hlns].
  change (status (handleLines lns (handleLine ln st)) = status st).
  rewrite IH by done. apply handleLine_status. by destruct (lineIsTerminal ln).
Qed.

Lemma readLoop_status (chunks : list (list (Line StreamEvent))) (st : State) :
  forallb (forallb (fun ln => negb (lineIsTerminal ln))) chunks = true →
  status (readLoop chunks st) = status st.
Proof.
  revert st. induction chunks as [|lns chunks IH]; intros st H; [done|].
  simpl in H. apply andb_true_iff in H as [Hlns Hchunks].
  change (status (readLoop chunks (handleLines lns st)) = status st).
  rewrite IH by done. by apply handleLines_status.
Qed.

(** C4. What the read loop does at the end of a stream in which no
    terminal event was seen: [startEnrichment] returns with the status
    still [Processing]; nothing after the loop sets it. (The specification
    asks for [Completed] here.) *)
Theorem end_of_stream_stays_processing
    (chunks : list (list (Line StreamEvent))) (st : State) :
  forallb (forallb (fun ln => negb (lineIsTerminal ln))) chunks = true →
  status (startEnrichment (Streamed chunks EndOfStream) st) = Processing.
Proof.
  intros H. unfold startEnrichment. by rewrite readLoop_status.
Qed.

(** *** Cancellation *)

Lemma str_truthy_true (s : string) : s ≠ "" → str_truthy s = true.
Proof.
  intros H. unfold str_truthy. destruct (String.eqb_spec s ""); done.
Qed.

(** Without a captured session id (none yet, or an empty one)
    [cancelEnrichment] sends nothing and changes nothing. *)
Lemma cancel_without_session (requestSucceeds : bool) (st : State) :
  sessionId st = None ∨ sessionId st = Some "" →
  cancelEnrichment requestSucceeds st = (None, st).
Proof. intros [H|H]; unfold cancelEnrichment; by rewrite H. Qed.

(** C5 (amended). When a non-empty session id has been captured,
    [cancelEnrichment] issues the side-channel request keyed by that id
    and leaves the status [Cancelled] and no current row, whether the
    request succeeds or fails: both outcomes give the same state, and the
    result store, the log and the timers are untouched. *)
Theorem cancel_is_locally_authoritative (requestSucceeds : bool)
    (sid : string) (st : State) :
  sessionId st = Some sid → sid ≠ "" →
  let st' := snd (cancelEnrichment requestSucceeds st) in
  fst (cancelEnrichment requestSucceeds st)
    = Some ("/api/enrich?sessionId=" +:+ sid)
  ∧ status st' = Cancelled
  ∧ currentRow st' = -1
  ∧ snd (cancelEnrichment false st) = snd (cancelEnrichment true st)
  ∧ results st' = results st
  ∧ agentMessages st' = agentMessages st
  ∧ timers st' = timers st.
Proof.
  intros Hsid Hne. unfold cancelEnrichment. rewrite Hsid, str_truthy_true by done.
  simpl. repeat split; done.
Qed.

(** *** The completion notice *)

Lemma existsb_count {A} (f : A → bool) (l : list A) :
  existsb f l = negb (length (List.filter f l) =? 0)%nat.
Proof.
  induction l as [|x l IH]; simpl; [done|].
  destruct (f x); simpl; [done|exact IH].
Qed.

Lemma onComplete_spec (now : Z) (log : list ChatMessage) :
  onComplete now log
  = if (noticeCount log =? 0)%nat then log ++ [completionMessage now] else log.
Proof.
  unfold onComplete, noticeCount. rewrite existsb_count.
  by destruct (length _ =? 0)%nat.
Qed.

Lemma noticeCount_onComplete (now : Z) (log : list ChatMessage) :
  noticeCount (onComplete now log) = (1 `max` noticeCount log)%nat.
Proof.
  rewrite onComplete_spec. destruct (noticeCount log =? 0)%nat eqn:Hc.
  - apply Nat.eqb_eq in Hc. unfold noticeCount in *.
    rewrite List.filter_app, length_app, Hc. simpl. done.
  - apply Nat.eqb_neq in Hc. lia.
Qed.

(** C6 (amended). The [complete] case appends the completion notice
    exactly when no entry of the log has that message text. Handling
    [complete] a second time changes nothing in the log; and a log that
    held [k] entries with the notice's text holds [max 1 k] of them
    afterwards: exactly one when it held none or one. *)
Theorem completion_notice_idempotent (now1 now2 : Z) (rnd1 rnd2 : string)
    (st : State) :
  let st1 := handleEvent now1 rnd1 EvComplete st in
  let st2 := handleEvent now2 rnd2 EvComplete st1 in
  agentMessages st2 = agentMessages st1
  ∧ agentMessages st1
    = (if (noticeCount (agentMessages st) =? 0)%nat
       then agentMessages st ++ [completionMessage now1]
       else agentMessages st)
  ∧ noticeCount (agentMessages st2)
    = (1 `max` noticeCount (agentMessages st))%nat
  ∧ status st1 = Completed ∧ status st2 = Completed.
Proof.
  simpl.
  assert (H2 : onComplete now2 (onComplete now1 (agentMessages st))
               = onComplete now1 (agentMessages st)).
  { rewrite (onComplete_spec now2), noticeCount_onComplete.
    by destruct (noticeCount (agentMessages st)). }
  rewrite H2. repeat split.
  - apply onComplete_spec.
  - apply noticeCount_onComplete.
Qed.

(** *** The conversational query: history *)

Lemma slice_last_lastN {A} (n : nat) (xs : list A) :
  slice_last n xs = lastN n xs.
Proof.
  unfold slice_last, lastN. by rewrite take_reverse, reverse_involutive.
Qed.

(** C8 (amended). The conversation history sent with a query is made of
    the last 10 [user] or [assistant] messages of the log as it was
    rendered when the query was submitted, that is before the submitted
    [user] message was appended: each becomes a role/content pair, in log
    order. The submitted message is appended to the log and travels as the
    request's question, not in the history. *)
Theorem history_precedes_submitted_message (now : Z) (queryId message : string)
    (outcome : FetchOutcome ChatEvent) (endTime : Z) (st : State) :
  let request := fst (handleChatMessage now queryId message outcome endTime st) in
  let turns := List.filter isTurn (agentMessages st) in
  req_conversationHistory request = map toTurn (lastN 10 turns)
  ∧ length (req_conversationHistory request) = (length turns `min` 10)%nat
  ∧ req_conversationHistory request `suffix_of` map toTurn turns
  ∧ req_question request = message
  ∧ agentMessages (chatBegin now queryId message st)
    = agentMessages st ++ [userMessage now message]
  ∧ m_type (userMessage now message) = "user"
  ∧ m_message (userMessage now message) = message.
Proof.
  simpl. unfold conversationHistory. repeat split.
  - by rewrite slice_last_lastN.
  - by rewrite length_map, slice_last_length.
  - destruct (slice_last_suffix 10 (List.filter isTurn (agentMessages st)))
      as [pre Hpre].
    exists (map toTurn pre). rewrite <- map_app. by rewrite <- Hpre.
Qed.

(** *** The conversational query: table snapshot *)

Lemma imap_as_seq {A B} (f : nat → A → B) (l : list A) :
  imap f l = omap (fun i => f i <$> l !! i) (seq 0 (length l)).
Proof.
  revert f. induction l as [|x l IH]; intros f; [done|].
  simpl. f_equal. rewrite IH, <- fmap_S_seq.
  generalize (seq 0 (length l)). intros idx.
  induction idx as [|i idx IHidx]; [done|].
  simpl. destruct (l !! i); simpl; [f_equal|]; exact IHidx.
Qed.

Lemma omap_omap_seq {A B C} (f : A → option B) (g : B → option C) (l : list A) :
  omap g (omap f l) = omap (fun x => f x ≫= g) l.
Proof.
  induction l as [|x l IH]; [done|].
  simpl. destruct (f x) as [y|]; simpl; [|exact IH].
  destruct (g y); [f_equal|]; exact IH.
Qed.

Lemma omap_guarded {A B} (P : A → bool) (f g : A → option B) (l : list A) :
  (∀ x, x ∈ l → f x = if P x then g x else None) →
  omap f l = omap g (filter (fun x => P x) l).
Proof.
  induction l as [|x l IH]; intros H; [done|].
  assert (IH' : omap f l = omap g (filter (fun x => P x) l)).
  { apply IH. intros y Hy. apply H. by right. }
  rewrite filter_cons. change (omap f (x :: l)) with
    (match f x with Some y => y :: omap f l | None => omap f l end).
  rewrite (H x) by left.
  destruct (P x) eqn:HP.
  - rewrite decide_True by done.
    change (omap g (x :: filter (fun x => P x) l)) with
      (match g x with
       | Some y => y :: omap g (filter (fun x => P x) l)
       | None => omap g (filter (fun x => P x) l)
       end).
    by rewrite IH'.
  - rewrite decide_False by (intros []). exact IH'.
Qed.

Lemma omap_total_length {A B} (g : A → option B) (l : list A) :
  (∀ x, x ∈ l → is_Some (g x)) → length (omap g l) = length l.
Proof.
  induction l as [|x l IH]; intros H; [done|].
  assert (IH' : length (omap g l) = length l).
  { apply IH. intros z Hz. apply H. by right. }
  simpl. destruct (H x) as [y ->]; [left|]. simpl. f_equal. exact IH'.
Qed.

Lemma rowLine_truthy (index : nat) (row : CSVRow) (result : RowEnrichmentResult) :
  str_truthy (rowLine index row result) = true.
Proof. done. Qed.

(** [filter(Boolean)] drops the [null]s and nothing else: the snapshot has
    one line per row with a stored non-pending result, in row order. *)
Lemma tableDataRows_spec (results : gmap Z RowEnrichmentResult) :
  tableDataRows results = omap (snapshotLine results) (nonPendingRows results).
Proof.
  unfold tableDataRows, filterBoolean, nonPendingRows.
  rewrite imap_as_seq, omap_omap_seq.
  apply omap_guarded. intros i Hi.
  unfold snapshotLine, hasData, tableDataRow.
  destruct (rows !! i) as [row|]; simpl.
  - destruct (results !! Z.of_nat i) as [r|]; simpl; [|done].
    destruct (r_status r); simpl; done.
  - by destruct (match results !! Z.of_nat i with Some _ => _ | None => _ end).
Qed.

Lemma nonPendingRows_elem (results : gmap Z RowEnrichmentResult) (i : nat) :
  i ∈ nonPendingRows results ↔
  ∃ row result, rows !! i = Some row ∧ results !! Z.of_nat i = Some result
                ∧ r_status result ≠ RowPending.
Proof.
  unfold nonPendingRows. rewrite list_elem_of_filter, elem_of_seq. unfold hasData.
  split.
  - intros [Hd [_ Hlt]]. simpl in Hlt.
    destruct (lookup_lt_is_Some_2 rows i Hlt) as [row Hrow].
    destruct (results !! Z.of_nat i) as [r|]; [|done].
    exists row, r. repeat split; try done.
    intros Hp. by rewrite Hp in Hd.
  - intros (row & r & Hrow & Hr & Hst). rewrite Hr. split.
    + by destruct (r_status r).
    + split; [lia|]. simpl. by eapply lookup_lt_Some.
Qed.

Lemma tableDataRows_length (results : gmap Z RowEnrichmentResult) :
  length (tableDataRows results) = length (nonPendingRows results).
Proof.
  rewrite tableDataRows_spec. apply omap_total_length.
  intros i Hi. apply nonPendingRows_elem in Hi as (row & r & Hrow & Hr & _).
  unfold snapshotLine. rewrite Hrow, Hr. simpl. eauto.
Qed.

(** Every row of the snapshot has an entry in the store, so the snapshot
    is never longer than the store is large. *)
Lemma nonPendingRows_le_size (results : gmap Z RowEnrichmentResult) :
  (length (nonPendingRows results) ≤ size results)%nat.
Proof.
  rewrite <- (size_dom (D:=gset Z)).
  rewrite <- (length_fmap Z.of_nat).
  apply submseteq_length, NoDup_submseteq.
  - apply NoDup_fmap_2; [apply _|]. apply NoDup_filter, NoDup_seq.
  - intros k Hk. apply list_elem_of_fmap in Hk as (i & -> & Hi).
    apply nonPendingRows_elem in Hi as (row & r & _ & Hr & _).
    apply elem_of_elements, elem_of_dom. eauto.
Qed.

(** C7 (amended). The context sent with a query has [processedRows]
    equal to the number of entries of the result store, whatever their
    status (pending placeholders count), hence at least the number of rows
    with a non-pending result; its table snapshot lists exactly the rows
    that have a stored result whose status is not pending, one line each,
    in row order, and reports their number. *)
Theorem chat_context_counts_store_entries (now : Z) (queryId message : string)
    (outcome : FetchOutcome ChatEvent) (endTime : Z) (st : State) :
  let ctx := req_context (fst (handleChatMessage now queryId message outcome endTime st)) in
  let shown := nonPendingRows (results st) in
  ctx_processedRows ctx = size (results st)
  ∧ (length shown ≤ ctx_processedRows ctx)%nat
  ∧ ctx_totalRows ctx = length rows
  ∧ (∀ i : nat, i ∈ shown ↔
       ∃ row result, rows !! i = Some row
                     ∧ results st !! Z.of_nat i = Some result
                     ∧ r_status result ≠ RowPending)
  ∧ tableDataRows (results st) = omap (snapshotLine (results st)) shown
  ∧ length (tableDataRows (results st)) = length shown
  ∧ ctx_tableData ctx
    = (if (0 <? length shown)%nat then
         "Enriched Data Table:" +:+ LF +:+ join LF (tableDataRows (results st))
         +:+ LF +:+ LF +:+ "Total: " +:+ pretty (length shown)
         +:+ " rows with data"
       else "").
Proof.
  cbv zeta. simpl fst. unfold chatRequest, req_context, ctx_processedRows,
    ctx_totalRows, ctx_tableData, tableDataString.
  rewrite tableDataRows_length.
  repeat split; try done.
  - apply nonPendingRows_le_size.
  - by apply nonPendingRows_elem.
  - by apply nonPendingRows_elem.
  - apply tableDataRows_spec.
Qed.

(** *** The conversational query: which fields a line carries *)

Lemma obj_put_fresh {A} (o : list (string * A)) (k : string) (v : A) :
  k ∉ o.*1 → obj_put o k v = o ++ [(k, v)].
Proof.
  induction o as [|[k' v'] o IH]; intros Hk; [done|].
  simpl in *. apply not_elem_of_cons in Hk as [Hne Hk].
  destruct (String.eqb_spec k' k); [congruence|].
  by rewrite IH.
Qed.

Lemma enrichedData_fold (acc : list (string * JsValue))
    (l : list (string * FieldEnrichment)) :
  NoDup (acc.*1 ++ l.*1) →
  foldl (fun acc entry =>
           if truthy (fe_value (snd entry))
           then obj_set acc (fst entry) (fe_value (snd entry))
           else acc) acc l
  = acc ++ map (fun kv => (fst kv, fe_value (snd kv))) (List.filter keepsEntry l).
Proof.
  revert acc. induction l as [|[k e] l IH]; intros acc Hnd.
  - simpl. by rewrite app_nil_r.
  - simpl in *. unfold keepsEntry at 1. simpl.
    pose proof Hnd as Hall.
    apply NoDup_app in Hnd as (Hacc & Hdisj & Hl).
    apply NoDup_cons in Hl as [Hk Hl].
    destruct (truthy (fe_value e)); simpl.
    + unfold obj_set. destruct (String.eqb_spec k "__proto__") as [->|Hp]; simpl.
      * apply IH. apply NoDup_app. repeat split; try done.
        intros x Hx Hx'. apply (Hdisj x Hx). by right.
      * rewrite obj_put_fresh.
        2:{ intros Hin. apply (Hdisj k Hin). left. }
        rewrite IH.
        { by rewrite <- app_assoc. }
        rewrite fmap_app. simpl. rewrite <- app_assoc. exact Hall.
    + apply IH. apply NoDup_app. repeat split; try done.
      intros x Hx Hx'. apply (Hdisj x Hx). by right.
Qed.

(** With every key once, [enrichedData] is the enrichments' values
    filtered by truthiness, in the enrichments' order. *)
Lemma enrichedData_filter (result : RowEnrichmentResult) :
  NoDup (r_enrichments result).*1 →
  enrichedData result
  = map (fun kv => (fst kv, fe_value (snd kv)))
        (List.filter keepsEntry (r_enrichments result)).
Proof.
  intros Hnd. unfold enrichedData. by rewrite enrichedData_fold.
Qed.

Lemma NoDup_fst_unique {A B} (l : list (A * B)) (k : A) (x y : B) :
  NoDup l.*1 → (k, x) ∈ l → (k, y) ∈ l → x = y.
Proof.
  induction l as [|[k' z] l IH]; intros Hnd Hx Hy.
  - by apply elem_of_nil in Hx.
  - simpl in Hnd. apply NoDup_cons in Hnd as [Hk Hnd].
    apply elem_of_cons in Hx as [Hx|Hx]; apply elem_of_cons in Hy as [Hy|Hy].
    + congruence.
    + injection Hx as -> ->. exfalso. apply Hk.
      apply list_elem_of_fmap. by exists (k', y).
    + injection Hy as -> ->. exfalso. apply Hk.
      apply list_elem_of_fmap. by exists (k', x).
    + by apply IH.
Qed.

Lemma enrichedData_all_falsy (result : RowEnrichmentResult) :
  (∀ k e, (k, e) ∈ r_enrichments result → truthy (fe_value e) = false) →
  enrichedData result = [].
Proof.
  unfold enrichedData. generalize (@nil (string * JsValue)) as acc.
  induction (r_enrichments result) as [|[k e] l IH]; intros acc H; [done|].
  simpl. rewrite (H k e) by left. apply IH.
  intros k' e' Hin. apply (H k' e'). by right.
Qed.

Lemma enrichedData_elem (result : RowEnrichmentResult) (k : string) (v : JsValue) :
  NoDup (r_enrichments result).*1 →
  (k, v) ∈ enrichedData result ↔
  ∃ e, (k, e) ∈ r_enrichments result ∧ fe_value e = v
       ∧ truthy v = true ∧ k ≠ "__proto__".
Proof.
  intros Hnd. rewrite enrichedData_filter by done.
  rewrite list_elem_of_In, in_map_iff. split.
  - intros ([k' e] & Heq & Hin). simpl in Heq. injection Heq as -> <-.
    apply filter_In in Hin as [Hin Hkeep].
    unfold keepsEntry in Hkeep. simpl in Hkeep.
    apply andb_true_iff in Hkeep as [Ht Hp].
    exists e. rewrite list_elem_of_In. repeat split; try done.
    intros ->. done.
  - intros (e & Hin & <- & Ht & Hp). exists (k, e). split; [done|].
    apply filter_In. rewrite <- list_elem_of_In. split; [done|].
    unfold keepsEntry. simpl. rewrite Ht. simpl.
    by destruct (String.eqb_spec k "__proto__").
Qed.

Lemma rowLine_in_snapshot (results : gmap Z RowEnrichmentResult) (i : nat)
    (row : CSVRow) (result : RowEnrichmentResult) :
  rows !! i = Some row → results !! Z.of_nat i = Some result →
  r_status result ≠ RowPending →
  rowLine i row result ∈ tableDataRows results.
Proof.
  intros Hrow Hr Hst. rewrite tableDataRows_spec, list_elem_of_omap.
  exists i. split.
  - apply nonPendingRows_elem. eauto.
  - unfold snapshotLine. by rewrite Hrow, Hr.
Qed.


(** *** Reveal timing *)

Lemma markRowShown_shows (rowIndex : Z) (st : State) :
  rowCellsShown rowIndex (markRowShown rowIndex st).
Proof.
  intros f Hf. unfold markRowShown. simpl. rewrite add_cells_spec.
  apply elem_of_union_l, elem_of_list_to_set, list_elem_of_In.
  apply (in_map (fun f => cellKey rowIndex (f_name f))).
  by apply list_elem_of_In.
Qed.

Lemma rowCellsShown_mono (rowIndex : Z) (st st' : State) :
  cellsShown st ⊆ cellsShown st' →
  rowCellsShown rowIndex st → rowCellsShown rowIndex st'.
Proof. intros Hsub H f Hf. apply Hsub, H, Hf. Qed.

Lemma markRows_shows (due : list (Z * Z)) (t : Z * Z) (st : State) :
  t ∈ due →
  rowCellsShown (snd t) (foldl (fun s t => markRowShown (snd t) s) st due).
Proof.
  revert st. induction due as [|t0 due IH]; intros st Hin.
  - by apply elem_of_nil in Hin.
  - apply elem_of_cons in Hin as [->|Hin]; simpl.
    + eapply rowCellsShown_mono; [|apply markRowShown_shows].
      apply markRows_frame.
    + by apply IH.
Qed.

Lemma advance_mono (now : Z) (st : State) :
  cellsShown st ⊆ cellsShown (advance now st).
Proof.
  unfold advance.
  apply (markRows_frame (filter (fun t => fst t <= now) (timers st))
           (setTimers (fun _ => filter (fun t => ¬ fst t <= now) (timers st)) st)).
Qed.

Lemma advance_timers (now : Z) (st : State) :
  timers (advance now st) = filter (fun t => ¬ fst t <= now) (timers st).
Proof.
  unfold advance.
  by destruct (markRows_frame (filter (fun t => fst t <= now) (timers st))
           (setTimers (fun _ => filter (fun t => ¬ fst t <= now) (timers st)) st))
    as (_ & _ & _ & _ & _ & -> & _).
Qed.

Lemma advance_fires (now : Z) (t : Z * Z) (st : State) :
  t ∈ timers st → fst t <= now → rowCellsShown (snd t) (advance now st).
Proof.
  intros Hin Hdue. unfold advance. apply markRows_shows.
  by apply list_elem_of_filter.
Qed.

(** A timer stays pending until it fires, and firing marks its row. *)
Lemma advance_timer_or_shown (now : Z) (t : Z * Z) (st : State) :
  t ∈ timers st →
  t ∈ timers (advance now st) ∨ rowCellsShown (snd t) (advance now st).
Proof.
  intros Hin. destruct (decide (fst t <= now)) as [Hdue|Hlater].
  - right. by apply advance_fires.
  - left. rewrite advance_timers. by apply list_elem_of_filter.
Qed.

Lemma handleEvent_cells (now : Z) (rnd : string) (e : StreamEvent) (st : State) :
  cellsShown (handleEvent now rnd e st) = cellsShown st
  ∧ ∀ t, t ∈ timers st → t ∈ timers (handleEvent now rnd e st).
Proof.
  destruct e; simpl; split; try done.
  intros t Ht. apply elem_of_app. by left.
Qed.

Lemma handleChatEvent_cells (now : Z) (rnd : string) (e : ChatEvent) (st : State) :
  cellsShown (handleChatEvent now rnd e st) = cellsShown st
  ∧ timers (handleChatEvent now rnd e st) = timers st.
Proof. destruct e; simpl; done. Qed.

(** No action unmarks a cell. *)
Lemma perform_mono (a : Action) (st : State) :
  cellsShown st ⊆ cellsShown (perform a st).
Proof.
  destruct a; simpl; try done.
  - destruct ln as [| |now rnd e]; simpl; try done.
    by destruct (handleEvent_cells now rnd e st) as [-> _].
  - unfold cancelEnrichment. destruct (sessionId st) as [sid|]; [|done].
    by destruct (str_truthy sid).
  - destruct ln as [| |now rnd e]; simpl; try done.
    by destruct (handleChatEvent_cells now rnd e st) as [-> _].
  - unfold handleStopQuery. destruct (chatQueryId st) as [qid|]; [|done].
    by destruct (str_truthy qid).
  - apply advance_mono.
Qed.

(** No action drops a pending timer other than by running it. *)
Lemma perform_timer_or_shown (a : Action) (t : Z * Z) (st : State) :
  t ∈ timers st →
  t ∈ timers (perform a st) ∨ rowCellsShown (snd t) (perform a st).
Proof.
  intros Hin. destruct a; simpl; try (by left).
  - destruct ln as [| |now rnd e]; simpl; try (by left).
    left. by apply handleEvent_cells.
  - left. unfold cancelEnrichment. destruct (sessionId st) as [sid|]; [|done].
    by destruct (str_truthy sid).
  - destruct ln as [| |now rnd e]; simpl; try (by left).
    left. by destruct (handleChatEvent_cells now rnd e st) as [_ ->].
  - left. unfold handleStopQuery. destruct (chatQueryId st) as [qid|]; [|done].
    by destruct (str_truthy qid).
  - by apply advance_timer_or_shown.
Qed.

Lemma run_mono (acts : list Action) (st : State) :
  cellsShown st ⊆ cellsShown (run acts st).
Proof.
  revert st. induction acts as [|a acts IH]; intros st; simpl; [done|].
  etrans; [apply (perform_mono a)|apply IH].
Qed.

Lemma run_timer_or_shown (acts : list Action) (t : Z * Z) (st : State) :
  t ∈ timers st →
  t ∈ timers (run acts st) ∨ rowCellsShown (snd t) (run acts st).
Proof.
  revert st. induction acts as [|a acts IH]; intros st Hin; simpl; [by left|].
  destruct (perform_timer_or_shown a t st Hin) as [H|H].
  - by apply IH.
  - right. eapply rowCellsShown_mono; [apply run_mono|exact H].
Qed.

(** Once the reveal window of a [result] event is over the row's cells are
    marked shown, whatever happened in between, and stay so. *)
Lemma reveal_window_marks_row (arrival : Z) (rnd : string)
    (result : RowEnrichmentResult) (acts acts' : list Action) (now : Z)
    (st : State) :
  arrival + 2500 <= now →
  rowCellsShown (r_rowIndex result)
    (run acts' (advance now
       (run acts (handleEvent arrival rnd (EvResult result) st)))).
Proof.
  intros Hnow.
  eapply rowCellsShown_mono; [apply run_mono|].
  assert (Hin : (arrival + 2500, r_rowIndex result)
                ∈ timers (handleEvent arrival rnd (EvResult result) st)).
  { simpl. apply elem_of_app. right. by left. }
  destruct (run_timer_or_shown acts _ _ Hin) as [H|H].
  - by apply (advance_fires now _ _ H).
  - eapply rowCellsShown_mono; [apply advance_mono|exact H].
Qed.

(** **** Double arithmetic: rounding, and what it does to the delay

    The operations of [spec_float] are followed through their definition:
    a mantissa of at least 53 digits is cut to 53 digits and then kept
    or increased by one, so the result of a product or quotient is within
    one part in [2 ^ 52] of the number rounded. *)

(** [digits2_pos p] is the number of binary digits of [p]. *)
Lemma digits2_pos_bounds (p : positive) :
  2 ^ (Z.pos (digits2_pos p) - 1) <= Z.pos p < 2 ^ Z.pos (digits2_pos p).
Proof.
  induction p as [p IH|p IH|]; simpl digits2_pos.
  - rewrite Pos2Z.inj_succ.
    replace (Z.succ (Z.pos (digits2_pos p)) - 1) with (Z.succ (Z.pos (digits2_pos p) - 1)) by lia.
    rewrite !Z.pow_succ_r by lia. lia.
  - rewrite Pos2Z.inj_succ.
    replace (Z.succ (Z.pos (digits2_pos p)) - 1) with (Z.succ (Z.pos (digits2_pos p) - 1)) by lia.
    rewrite !Z.pow_succ_r by lia. lia.
  - simpl. lia.
Qed.

Lemma digits2_pos_unique (p : positive) (k : Z) :
  2 ^ (k - 1) <= Z.pos p < 2 ^ k → Z.pos (digits2_pos p) = k.
Proof.
  intros [Hlo Hhi]. pose proof (digits2_pos_bounds p) as [Hl Hh].
  destruct (Z.lt_trichotomy (Z.pos (digits2_pos p)) k) as [Hlt|[Heq|Hgt]]; [|done|].
  - assert (2 ^ Z.pos (digits2_pos p) <= 2 ^ (k - 1)) by (apply Z.pow_le_mono_r; lia).
    lia.
  - destruct (Z.le_gt_cases 0 k) as [Hk|Hk].
    + assert (2 ^ k <= 2 ^ (Z.pos (digits2_pos p) - 1)) by (apply Z.pow_le_mono_r; lia).
      lia.
    + rewrite (Z.pow_neg_r 2 k) in Hhi by lia. lia.
Qed.

(** Shifting right halves the mantissa, the bits shifted out going to the
    round and sticky bits. *)
Lemma shr_m_shr_1 (mrs : shr_record) :
  0 <= shr_m mrs → shr_m (shr_1 mrs) = shr_m mrs / 2.
Proof.
  destruct mrs as [m r s]. simpl. intros Hm.
  destruct m as [|[p|p|]|p]; cbn [shr_m]; [reflexivity| | |reflexivity|lia].
  - apply Z.div_unique with 1; lia.
  - apply Z.div_unique with 0; lia.
Qed.

Lemma shr_m_iter (p : positive) (mrs : shr_record) :
  0 <= shr_m mrs → shr_m (SpecFloat.iter_pos shr_1 p mrs) = shr_m mrs / 2 ^ Z.pos p.
Proof.
  revert mrs. induction p as [p IH|p IH|]; intros mrs Hm; simpl SpecFloat.iter_pos.
  - assert (H1 : 0 <= shr_m (shr_1 mrs)).
    { rewrite shr_m_shr_1 by done. apply Z.div_pos; lia. }
    assert (H2 : 0 <= shr_m (SpecFloat.iter_pos shr_1 p (shr_1 mrs))).
    { rewrite IH by done. apply Z.div_pos; [done|]. apply Z.pow_pos_nonneg; lia. }
    rewrite IH, IH, shr_m_shr_1 by done.
    rewrite !Z.div_div by (try apply Z.pow_pos_nonneg; lia).
    f_equal. rewrite <- !Z.pow_add_r by lia. change 2 with (2 ^ 1) at 1.
    rewrite <- Z.pow_add_r by lia. f_equal. lia.
  - assert (H2 : 0 <= shr_m (SpecFloat.iter_pos shr_1 p mrs)).
    { rewrite IH by done. apply Z.div_pos; [done|]. apply Z.pow_pos_nonneg; lia. }
    rewrite IH, IH by done.
    rewrite !Z.div_div by (try apply Z.pow_pos_nonneg; lia).
    f_equal. rewrite <- !Z.pow_add_r by lia. f_equal. lia.
  - by apply shr_m_shr_1.
Qed.

Lemma shr_spec (mrs : shr_record) (e n : Z) :
  0 <= shr_m mrs → 0 <= n →
  shr_m (fst (shr mrs e n)) = shr_m mrs / 2 ^ n ∧ snd (shr mrs e n) = e + n.
Proof.
  intros Hm Hn. destruct n as [|p|p]; simpl; [|split; [by apply shr_m_iter|done]|lia].
  rewrite Z.div_1_r. split; [done|lia].
Qed.

Lemma shr_m_of_loc (m : Z) (l : location) : shr_m (shr_record_of_loc m l) = m.
Proof. by destruct l as [|[]]. Qed.

Lemma round_nearest_even_cases (m : Z) (l : location) :
  round_nearest_even m l = m ∨ round_nearest_even m l = m + 1.
Proof. destruct l as [|[]]; simpl; auto. destruct (Z.even m); auto. Qed.

(** Away from underflow, [shr_fexp] cuts a mantissa of at least 53 digits
    to its 53 leading digits. *)
Lemma shr_fexp_spec (m e : Z) (l : location) :
  0 < m → 53 <= Zdigits2 m → -1074 <= Zdigits2 m + e - 53 →
  shr_m (fst (shr_fexp 53 1024 m e l)) = m / 2 ^ (Zdigits2 m - 53)
  ∧ snd (shr_fexp 53 1024 m e l) = Zdigits2 m + e - 53.
Proof.
  intros Hm Hd He. unfold shr_fexp.
  assert (Hs : fexp 53 1024 (Zdigits2 m + e) - e = Zdigits2 m - 53).
  { unfold fexp, emin. lia. }
  rewrite Hs.
  destruct (shr_spec (shr_record_of_loc m l) e (Zdigits2 m - 53)) as [H1 H2].
  - rewrite shr_m_of_loc. lia.
  - lia.
  - rewrite H1, H2, shr_m_of_loc. split; [done|lia].
Qed.

Lemma truncated_normal (mx : positive) :
  53 <= Z.pos (digits2_pos mx) →
  2 ^ 52 <= Z.pos mx / 2 ^ (Z.pos (digits2_pos mx) - 53) < 2 ^ 53.
Proof.
  intros Hd. pose proof (digits2_pos_bounds mx) as [Hlo Hhi].
  set (d := Z.pos (digits2_pos mx)) in *.
  assert (Hp : 0 < 2 ^ (d - 53)) by (apply Z.pow_pos_nonneg; lia).
  split.
  - apply Z.div_le_lower_bound; [done|].
    rewrite <- Z.pow_add_r by lia. by replace (d - 53 + 52) with (d - 1) by lia.
  - apply Z.div_lt_upper_bound; [done|].
    rewrite <- Z.pow_add_r by lia. by replace (d - 53 + 53) with d by lia.
Qed.

Lemma shr_fexp_normal (m : positive) (e : Z) (l : location) :
  Z.pos (digits2_pos m) = 53 → -1074 <= e →
  shr_fexp 53 1024 (Z.pos m) e l = (shr_record_of_loc (Z.pos m) l, e).
Proof.
  intros Hd He. unfold shr_fexp. cbn [Zdigits2]. rewrite Hd.
  replace (fexp 53 1024 (53 + e) - e) with 0 by (unfold fexp, emin; lia).
  reflexivity.
Qed.

(** A mantissa of exactly 53 digits with nothing to its right is kept. *)
Lemma binary_round_aux_exact (sx : bool) (mx : positive) (ex : Z) :
  Z.pos (digits2_pos mx) = 53 → -1074 <= ex →
  binary_round_aux 53 1024 sx (Z.pos mx) ex loc_Exact
  = if ex <=? 971 then S754_finite sx mx ex else S754_infinity sx.
Proof.
  intros Hd He. unfold binary_round_aux.
  rewrite shr_fexp_normal by done. cbn [shr_record_of_loc shr_m loc_of_shr_record
    round_nearest_even].
  rewrite shr_fexp_normal by done. reflexivity.
Qed.

(** Rounding a mantissa of at least 53 digits: the result has the mantissa
    truncated to 53 digits or its successor, whatever the location says. *)
Lemma binary_round_aux_spec (sx : bool) (mx : positive) (ex : Z) (lx : location) :
  let d := Z.pos (digits2_pos mx) in
  let m' := Z.pos mx / 2 ^ (d - 53) in
  let e' := d + ex - 53 in
  53 <= d → -1074 <= e' →
  ∃ (m : positive) (e : Z),
    normal m
    ∧ ((Z.pos m = m' ∧ e = e') ∨ (Z.pos m = m' + 1 ∧ e = e')
       ∨ (m' + 1 = 2 ^ 53 ∧ Z.pos m = 2 ^ 52 ∧ e = e' + 1))
    ∧ binary_round_aux 53 1024 sx (Z.pos mx) ex lx
      = if e <=? 971 then S754_finite sx m e else S754_infinity sx.
Proof.
  intros d m' e' Hd He.
  pose proof (truncated_normal mx Hd) as Hm'. fold d m' in Hm'.
  unfold binary_round_aux.
  destruct (shr_fexp_spec (Z.pos mx) ex lx) as [H1 H2]; [lia|done|done|].
  destruct (shr_fexp 53 1024 (Z.pos mx) ex lx) as [mrs1 e1].
  cbn [fst snd Zdigits2] in H1, H2. fold d m' in H1. fold d e' in H2. subst e1.
  set (mr := round_nearest_even (shr_m mrs1) (loc_of_shr_record mrs1)).
  assert (Hr : mr = m' ∨ mr = m' + 1).
  { rewrite <- H1. apply round_nearest_even_cases. }
  destruct mr as [|q|q] eqn:Hq; [lia| |lia].
  destruct (Z.eq_dec (Z.pos q) (2 ^ 53)) as [Htop|Hlow].
  - (* the carry: one more shift *)
    assert (Hm1 : m' + 1 = 2 ^ 53) by lia.
    assert (Hdq : Z.pos (digits2_pos q) = 54) by (apply digits2_pos_unique; lia).
    destruct (shr_fexp_spec (Z.pos q) e' loc_Exact) as [H3 H4];
      cbn [Zdigits2]; rewrite ?Hdq; [lia|lia|lia|].
    destruct (shr_fexp 53 1024 (Z.pos q) e' loc_Exact) as [mrs2 e2].
    cbn [fst snd Zdigits2] in H3, H4. rewrite Hdq in H3, H4. subst e2.
    rewrite H3, Htop.
    replace (54 - 53) with 1 by lia.
    change (2 ^ 53 / 2 ^ 1) with (Z.pos (2 ^ 52)).
    exists (2 ^ 52)%positive, (e' + 1). split; [unfold normal; lia|].
    split; [right; right; split; [done|split; [done|lia]]|].
    replace (54 + e' - 53) with (e' + 1) by lia. reflexivity.
  - assert (Hdq : Z.pos (digits2_pos q) = 53) by (apply digits2_pos_unique; lia).
    rewrite shr_fexp_normal by done. cbn [shr_record_of_loc shr_m].
    exists q, e'. split; [unfold normal; lia|]. split; [|reflexivity].
    destruct Hr as [Hr|Hr]; [left|right; left]; done.
Qed.

Lemma bpow_pos (e : Z) : -1074 <= e → 0 < bpow e.
Proof. intros He. apply Z.pow_pos_nonneg; lia. Qed.

Lemma bpow_add (e k : Z) : -1074 <= e → 0 <= k → bpow (e + k) = bpow e * 2 ^ k.
Proof.
  intros He Hk. unfold bpow. rewrite <- Z.pow_add_r by lia. f_equal. lia.
Qed.

Lemma sval_ofZ (m : positive) (e z : Z) :
  -1074 <= e <= 0 → Z.pos m = z * 2 ^ (- e) → sval m e = z * 2 ^ 1074.
Proof.
  intros He Hm. unfold sval, bpow. rewrite Hm, <- Z.mul_assoc, <- Z.pow_add_r by lia.
  do 2 f_equal. lia.
Qed.

Lemma sval_lt_exp (m1 m2 : positive) (e1 e2 : Z) :
  normal m1 → normal m2 → -1074 <= e1 → e1 < e2 → sval m1 e1 < sval m2 e2.
Proof.
  unfold normal, sval. intros H1 H2 He1 Hlt.
  replace e2 with (e1 + (e2 - e1)) by lia. rewrite bpow_add by lia.
  pose proof (bpow_pos e1 He1) as Hb.
  assert (Hp : 2 ^ 1 <= 2 ^ (e2 - e1)) by (apply Z.pow_le_mono_r; lia).
  change (2 ^ 1) with 2 in Hp. change (2 ^ 53) with (2 * 2 ^ 52) in H1.
  set (c := 2 ^ 52) in *. set (b := bpow e1) in *. set (p := 2 ^ (e2 - e1)) in *.
  assert (c * b <= Z.pos m2 * b) by (apply Z.mul_le_mono_nonneg_r; lia).
  assert (Z.pos m2 * b * 2 <= Z.pos m2 * b * p) by (apply Z.mul_le_mono_nonneg_l; lia).
  assert (Z.pos m1 * b < 2 * c * b) by (apply Z.mul_lt_mono_pos_r; lia).
  lia.
Qed.

(** Normal doubles compare as the numbers they stand for. *)
Lemma SFcompare_normal (m1 m2 : positive) (e1 e2 : Z) :
  normal m1 → normal m2 → -1074 <= e1 → -1074 <= e2 →
  SFcompare (S754_finite false m1 e1) (S754_finite false m2 e2)
  = Some (sval m1 e1 ?= sval m2 e2).
Proof.
  unfold normal. intros H1 H2 He1 He2. cbn [SFcompare]. f_equal. unfold sval.
  destruct (Z.compare_spec e1 e2) as [->|Hlt|Hgt].
  - rewrite Pos.compare_cont_spec. cbn [Pos.switch_Eq].
    change (Pos.compare m1 m2) with (Z.pos m1 ?= Z.pos m2).
    pose proof (bpow_pos e2 He2).
    destruct (Z.compare_spec (Z.pos m1) (Z.pos m2)) as [->|Hm|Hm];
      symmetry; [apply Z.compare_refl|apply Z.compare_lt_iff|apply Z.compare_gt_iff]; nia.
  - symmetry. apply Z.compare_lt_iff. by apply sval_lt_exp.
  - symmetry. apply Z.compare_gt_iff. by apply sval_lt_exp.
Qed.

Lemma iter_xO (k mx : positive) :
  Z.pos (Pos.iter xO mx k) = Z.pos mx * 2 ^ Z.pos k.
Proof.
  change (Pos.iter xO mx k) with (shift_pos k mx). rewrite shift_pos_correct.
  change (Zpower_pos 2 k) with (2 ^ Z.pos k). lia.
Qed.

(** A positive integer below [2 ^ 53] converts without rounding. *)
Lemma Number_ofZ_small (z : Z) :
  0 < z < 2 ^ 53 →
  ∃ (m : positive) (e : Z),
    Number_ofZ z = S754_finite false m e ∧ normal m ∧ -52 <= e <= 0
    ∧ Z.pos m = z * 2 ^ (- e).
Proof.
  intros Hz. destruct z as [|p|p]; [lia| |lia].
  pose proof (digits2_pos_bounds p) as [Hlo Hhi].
  set (d := Z.pos (digits2_pos p)) in *.
  assert (Hd : 1 <= d <= 53).
  { split; [lia|]. destruct (Z.le_gt_cases d 53) as [|Hgt]; [done|].
    assert (2 ^ 53 <= 2 ^ (d - 1)) by (apply Z.pow_le_mono_r; lia). lia. }
  unfold Number_ofZ, binary_normalize, binary_round, shl_align. fold d.
  replace (fexp 53 1024 (d + 0) - 0) with (d - 53) by (unfold fexp, emin; lia).
  replace (fexp 53 1024 (d + 0)) with (d - 53) by (unfold fexp, emin; lia).
  destruct (d - 53) as [|k|k] eqn:Hk; [|lia|].
  - rewrite binary_round_aux_exact by (fold d; lia).
    exists p, 0. split; [done|]. split; [unfold normal; replace 52 with (d - 1) by lia; lia|].
    split; [lia|]. simpl. lia.
  - assert (Hmz : Z.pos (Pos.iter xO p k) = Z.pos p * 2 ^ Z.pos k) by apply iter_xO.
    assert (Hn : 2 ^ 52 <= Z.pos (Pos.iter xO p k) < 2 ^ 53).
    { rewrite Hmz. replace 52 with (d - 1 + Z.pos k) by lia.
      replace 53 with (d + Z.pos k) by lia. rewrite !Z.pow_add_r by lia.
      assert (0 < 2 ^ Z.pos k) by (apply Z.pow_pos_nonneg; lia). nia. }
    rewrite binary_round_aux_exact by (try apply digits2_pos_unique; lia).
    replace (Z.neg k <=? 971) with true by (symmetry; apply Z.leb_le; lia).
    exists (Pos.iter xO p k), (Z.neg k). split; [done|]. split; [done|].
    split; [lia|]. rewrite Hmz. reflexivity.
Qed.

(** An integer from [2 ^ 53] on converts to a double of exponent 1 at
    least, or to [Infinity]. *)
Lemma Number_ofZ_large (z : Z) :
  2 ^ 53 <= z →
  Number_ofZ z = S754_infinity false
  ∨ ∃ (m : positive) (e : Z),
      Number_ofZ z = S754_finite false m e ∧ normal m ∧ 1 <= e.
Proof.
  intros Hz. destruct z as [|p|p]; [lia| |lia].
  pose proof (digits2_pos_bounds p) as [Hlo Hhi].
  set (d := Z.pos (digits2_pos p)) in *.
  assert (Hd : 54 <= d).
  { destruct (Z.le_gt_cases 54 d) as [|Hgt]; [done|].
    assert (2 ^ d <= 2 ^ 53) by (apply Z.pow_le_mono_r; lia). lia. }
  unfold Number_ofZ, binary_normalize, binary_round, shl_align. fold d.
  replace (fexp 53 1024 (d + 0) - 0) with (d - 53) by (unfold fexp, emin; lia).
  destruct (d - 53) as [|k|k] eqn:Hk; [lia| |lia].
  destruct (binary_round_aux_spec false p 0 loc_Exact) as (m & e & Hm & Hc & ->);
    fold d; [lia|lia|].
  destruct (e <=? 971); [right|by left].
  exists m, e. split; [done|]. split; [done|]. lia.
Qed.

(** What a negative integer converts to is never above a double that is
    not negative. *)
Lemma Number_ofZ_negative (z : Z) (x : spec_float) :
  z < 0 → SFcompare x (S754_zero false) ≠ Some Lt →
  SFltb x (Number_ofZ z) = false.
Proof.
  intros Hz Hx. destruct z as [|p|p]; [lia|lia|].
  unfold Number_ofZ, binary_normalize, binary_round.
  destruct (shl_align _ _ _) as [mz ez]. unfold binary_round_aux.
  destruct (shr_fexp _ _ _ _ _) as [mrs1 e1].
  destruct (shr_fexp _ _ _ _ _) as [mrs2 e2].
  destruct (shr_m mrs2); [| |by destruct x as [[]|[]| |[]]].
  - by destruct x as [[]|[]| |[]].
  - destruct (e2 <=? 1024 - 53); unfold SFltb; by destruct x as [[]|[]| |[]].
Qed.

(** Rounding is faithful: the result is within one part in [2 ^ 52] of the
    number rounded, which lies in [[mx, mx + 1) * 2 ^ ex]. *)
Lemma binary_round_aux_bounds (sx : bool) (mx : positive) (ex : Z) (lx : location) :
  53 <= Z.pos (digits2_pos mx) → -1074 <= ex →
  Z.pos (digits2_pos mx) + ex <= 1023 →
  ∃ (m : positive) (e : Z),
    binary_round_aux 53 1024 sx (Z.pos mx) ex lx = S754_finite sx m e
    ∧ normal m
    ∧ Z.pos (digits2_pos mx) + ex - 53 <= e <= Z.pos (digits2_pos mx) + ex - 52
    ∧ sval m e * 2 ^ 52 <= Z.pos mx * bpow ex * (2 ^ 52 + 1)
    ∧ (Z.pos mx + 1) * bpow ex * 2 ^ 52 <= sval m e * (2 ^ 52 + 1).
Proof.
  intros Hd Hex Hov.
  destruct (binary_round_aux_spec sx mx ex lx) as (m & e & Hm & Hc & ->); [done|lia|].
  pose proof (truncated_normal mx Hd) as Ht.
  set (d := Z.pos (digits2_pos mx)) in *.
  assert (HP : 0 < 2 ^ (d - 53)) by (apply Z.pow_pos_nonneg; lia).
  pose proof (Z.mul_div_le (Z.pos mx) _ HP) as Hlo.
  pose proof (Z.mul_succ_div_gt (Z.pos mx) _ HP) as Hhi.
  pose proof (bpow_pos ex Hex) as HB.
  assert (Hs : sval m e = Z.pos mx / 2 ^ (d - 53) * (bpow ex * 2 ^ (d - 53))
               ∨ sval m e = (Z.pos mx / 2 ^ (d - 53) + 1) * (bpow ex * 2 ^ (d - 53))).
  { unfold sval. destruct Hc as [[-> ->]|[[-> ->]|(Hc & -> & ->)]].
    - left. replace (d + ex - 53) with (ex + (d - 53)) by lia.
      by rewrite bpow_add by lia.
    - right. replace (d + ex - 53) with (ex + (d - 53)) by lia.
      by rewrite bpow_add by lia.
    - right. rewrite Hc. replace (d + ex - 53 + 1) with (ex + (d - 53) + 1) by lia.
      rewrite !bpow_add by lia. change (2 ^ 53) with (2 ^ 52 * 2 ^ 1). lia. }
  exists m, e.
  replace (e <=? 971) with true
    by (symmetry; apply Z.leb_le; destruct Hc as [[_ ->]|[[_ ->]|(_ & _ & ->)]]; lia).
  split; [done|]. split; [done|].
  split; [destruct Hc as [[_ ->]|[[_ ->]|(_ & _ & ->)]]; lia|].
  set (mt := Z.pos mx / 2 ^ (d - 53)) in *. set (P := 2 ^ (d - 53)) in *.
  set (B := bpow ex) in *. set (c := 2 ^ 52) in *.
  assert (Hc0 : 0 < c) by done.
  assert (H1 : (mt + 1) * c <= mt * (c + 1)) by lia.
  assert (H2 : (mt + 1) * c * (B * P) <= mt * (c + 1) * (B * P))
    by (apply Z.mul_le_mono_nonneg_r; [apply Z.mul_nonneg_nonneg|]; lia).
  assert (H3 : P * mt * ((c + 1) * B) <= Z.pos mx * ((c + 1) * B))
    by (apply Z.mul_le_mono_nonneg_r; [apply Z.mul_nonneg_nonneg|]; lia).
  assert (H4 : (Z.pos mx + 1) * (B * c) <= P * Z.succ mt * (B * c))
    by (apply Z.mul_le_mono_nonneg_r; [apply Z.mul_nonneg_nonneg|]; lia).
  assert (H5 : 0 <= mt * (B * P)) by (apply Z.mul_nonneg_nonneg; [|apply Z.mul_nonneg_nonneg]; lia).
  assert (H6 : 0 <= B * P) by (apply Z.mul_nonneg_nonneg; lia).
  destruct Hs as [-> | ->]; split; lia.
Qed.

Lemma normal_digits (m : positive) : normal m → Z.pos (digits2_pos m) = 53.
Proof. intros Hm. apply digits2_pos_unique. exact Hm. Qed.

Lemma bpow_mul (e1 e2 : Z) :
  -1074 <= e1 → -1074 <= e2 → -1074 <= e1 + e2 →
  bpow (e1 + e2) * 2 ^ 1074 = bpow e1 * bpow e2.
Proof.
  intros H1 H2 H3. unfold bpow. rewrite <- !Z.pow_add_r by lia. f_equal. lia.
Qed.

(** The product of two normal doubles, away from underflow and overflow. *)
Lemma SFmul_normal (m1 m2 : positive) (e1 e2 : Z) :
  normal m1 → normal m2 → -1074 <= e1 → -1074 <= e2 →
  -1074 <= e1 + e2 → e1 + e2 <= 900 →
  ∃ (m : positive) (e : Z),
    SFmul 53 1024 (S754_finite false m1 e1) (S754_finite false m2 e2)
    = S754_finite false m e
    ∧ normal m ∧ e1 + e2 + 52 <= e <= e1 + e2 + 54
    ∧ sval m e * 2 ^ 1074 * 2 ^ 52 <= sval m1 e1 * sval m2 e2 * (2 ^ 52 + 1)
    ∧ sval m1 e1 * sval m2 e2 * 2 ^ 52 <= sval m e * 2 ^ 1074 * (2 ^ 52 + 1).
Proof.
  intros H1 H2 He1 He2 He Hov. cbn [SFmul xorb].
  pose proof (digits2_pos_bounds (m1 * m2)) as [Hlo Hhi].
  set (d := Z.pos (digits2_pos (m1 * m2))) in *.
  assert (Hmul : 2 ^ 104 <= Z.pos (m1 * m2) < 2 ^ 106).
  { rewrite Pos2Z.inj_mul. unfold normal in H1, H2.
    change (2 ^ 104) with (2 ^ 52 * 2 ^ 52). change (2 ^ 106) with (2 ^ 53 * 2 ^ 53).
    split; [apply Z.mul_le_mono_nonneg|apply Z.mul_lt_mono_nonneg]; lia. }
  assert (Hd : 105 <= d <= 106).
  { split.
    - destruct (Z.le_gt_cases 105 d) as [|Hgt]; [done|].
      assert (2 ^ d <= 2 ^ 104) by (apply Z.pow_le_mono_r; lia). lia.
    - destruct (Z.le_gt_cases d 106) as [|Hgt]; [done|].
      assert (2 ^ 106 <= 2 ^ (d - 1)) by (apply Z.pow_le_mono_r; lia). lia. }
  destruct (binary_round_aux_bounds false (m1 * m2) (e1 + e2) loc_Exact)
    as (m & e & -> & Hm & Hge & Hup & Hdn); fold d; [lia|lia|lia|].
  exists m, e. split; [done|]. split; [done|]. split; [lia|].
  pose proof (bpow_mul e1 e2 He1 He2 He) as Hb.
  assert (Hx : sval m1 e1 * sval m2 e2 = Z.pos (m1 * m2) * bpow (e1 + e2) * 2 ^ 1074).
  { unfold sval. rewrite Pos2Z.inj_mul. lia. }
  rewrite Hx.
  assert (HK : 0 < 2 ^ 1074) by (by apply Z.pow_pos_nonneg).
  set (K := 2 ^ 1074) in *. set (X := Z.pos (m1 * m2) * bpow (e1 + e2)) in *.
  pose proof (bpow_pos (e1 + e2) He) as HB.
  split.
  - replace (sval m e * K * 2 ^ 52) with (sval m e * 2 ^ 52 * K) by lia.
    replace (X * K * (2 ^ 52 + 1)) with (X * (2 ^ 52 + 1) * K) by lia.
    apply Z.mul_le_mono_nonneg_r; lia.
  - replace (X * K * 2 ^ 52) with (X * 2 ^ 52 * K) by lia.
    replace (sval m e * K * (2 ^ 52 + 1)) with (sval m e * (2 ^ 52 + 1) * K) by lia.
    apply Z.mul_le_mono_nonneg_r; [lia|].
    etransitivity; [|exact Hdn].
    apply Z.mul_le_mono_nonneg_r; [lia|]. apply Z.mul_le_mono_nonneg_r; lia.
Qed.

(** The quotient of two normal doubles, away from underflow and overflow. *)
Lemma SFdiv_normal (m1 m2 : positive) (e1 e2 : Z) :
  normal m1 → normal m2 → -1074 <= e1 → -1074 <= e2 →
  -1074 <= e1 - e2 - 53 → e1 - e2 <= 900 →
  ∃ (m : positive) (e : Z),
    SFdiv 53 1024 (S754_finite false m1 e1) (S754_finite false m2 e2)
    = S754_finite false m e
    ∧ normal m ∧ e1 - e2 - 53 <= e <= e1 - e2 - 51
    ∧ sval m e * sval m2 e2 * 2 ^ 52 <= sval m1 e1 * 2 ^ 1074 * (2 ^ 52 + 1)
    ∧ sval m1 e1 * 2 ^ 1074 * 2 ^ 52 <= sval m e * sval m2 e2 * (2 ^ 52 + 1).
Proof.
  intros H1 H2 He1 He2 He Hov. cbn [SFdiv xorb]. unfold SFdiv_core_binary.
  cbn [Zdigits2]. rewrite (normal_digits m1 H1), (normal_digits m2 H2).
  replace (Z.min (fexp 53 1024 (53 + e1 - (53 + e2))) (e1 - e2))
    with (e1 - e2 - 53) by (unfold fexp, emin; lia).
  replace (e1 - e2 - (e1 - e2 - 53)) with 53 by lia.
  rewrite Z.shiftl_mul_pow2 by lia.
  pose proof (Z_div_mod (Z.pos m1 * 2 ^ 53) (Z.pos m2) eq_refl) as Hdiv.
  destruct (Z.div_eucl (Z.pos m1 * 2 ^ 53) (Z.pos m2)) as [q r].
  destruct Hdiv as [Hq Hr].
  unfold normal in H1, H2.
  assert (Hqlo : 2 ^ 52 <= q).
  { destruct (Z.le_gt_cases (2 ^ 52) q) as [|Hlt]; [done|exfalso].
    assert (Z.pos m2 * q <= Z.pos m2 * (2 ^ 52 - 1))
      by (apply Z.mul_le_mono_nonneg_l; lia).
    assert (2 ^ 52 * 2 ^ 53 <= Z.pos m1 * 2 ^ 53)
      by (apply Z.mul_le_mono_nonneg_r; lia).
    assert (Z.pos m2 * 2 ^ 52 <= 2 ^ 53 * 2 ^ 52)
      by (apply Z.mul_le_mono_nonneg_r; lia).
    lia. }
  assert (Hqhi : q < 2 ^ 54).
  { destruct (Z.le_gt_cases (2 ^ 54) q) as [Hge|]; [exfalso|lia].
    assert (Z.pos m2 * 2 ^ 54 <= Z.pos m2 * q)
      by (apply Z.mul_le_mono_nonneg_l; lia).
    assert (2 ^ 52 * 2 ^ 54 <= Z.pos m2 * 2 ^ 54)
      by (apply Z.mul_le_mono_nonneg_r; lia).
    assert (Z.pos m1 * 2 ^ 53 < 2 ^ 53 * 2 ^ 53)
      by (apply Z.mul_lt_mono_pos_r; lia).
    change (2 ^ 52 * 2 ^ 54) with (2 ^ 53 * 2 ^ 53) in *. lia. }
  destruct q as [|q|q]; [lia| |lia].
  pose proof (digits2_pos_bounds q) as [Hlo Hhi].
  set (d := Z.pos (digits2_pos q)) in *.
  assert (Hd : 53 <= d <= 54).
  { split.
    - destruct (Z.le_gt_cases 53 d) as [|Hgt]; [done|].
      assert (2 ^ d <= 2 ^ 52) by (apply Z.pow_le_mono_r; lia). lia.
    - destruct (Z.le_gt_cases d 54) as [|Hgt]; [done|].
      assert (2 ^ 54 <= 2 ^ (d - 1)) by (apply Z.pow_le_mono_r; lia). lia. }
  destruct (binary_round_aux_bounds false q (e1 - e2 - 53)
              (new_location (Z.pos m2) r))
    as (m & e & -> & Hm & Hge & Hup & Hdn); fold d; [lia|lia|lia|].
  exists m, e. split; [done|]. split; [done|]. split; [lia|].
  assert (Hb : bpow (e1 - e2 - 53) * bpow e2 * 2 ^ 53 = bpow e1 * 2 ^ 1074).
  { unfold bpow. rewrite <- !Z.pow_add_r by lia. f_equal. lia. }
  pose proof (bpow_pos (e1 - e2 - 53) He) as HB. pose proof (bpow_pos e2 He2) as HB2.
  unfold sval at 2 3 4 6.
  set (B := bpow (e1 - e2 - 53)) in *. set (B2 := bpow e2) in *.
  set (c := 2 ^ 52) in *. set (R := sval m e) in *.
  assert (HBB : 0 < B * B2) by (by apply Z.mul_pos_pos).
  split.
  - (* the result is at most the quotient rounded up, the quotient at most
       the ratio of the operands *)
    assert (R * c * (Z.pos m2 * B2) <= Z.pos q * B * (c + 1) * (Z.pos m2 * B2))
      by (apply Z.mul_le_mono_nonneg_r; [apply Z.mul_nonneg_nonneg|]; lia).
    assert (Z.pos m2 * Z.pos q * (B * B2 * (c + 1)) <= Z.pos m1 * 2 ^ 53 * (B * B2 * (c + 1)))
      by (apply Z.mul_le_mono_nonneg_r; [apply Z.mul_nonneg_nonneg|]; lia).
    replace (Z.pos m1 * bpow e1 * 2 ^ 1074 * (c + 1))
      with (Z.pos m1 * (bpow e1 * 2 ^ 1074) * (c + 1)) by lia.
    rewrite <- Hb. lia.
  - (* the ratio of the operands is below the quotient plus one, which
       the result is within one part in 2^52 of *)
    assert ((Z.pos q + 1) * B * c * (Z.pos m2 * B2) <= R * (c + 1) * (Z.pos m2 * B2))
      by (apply Z.mul_le_mono_nonneg_r; [apply Z.mul_nonneg_nonneg|]; lia).
    assert (Z.pos m1 * 2 ^ 53 * (B * B2 * c) <= Z.pos m2 * (Z.pos q + 1) * (B * B2 * c))
      by (apply Z.mul_le_mono_nonneg_r; [apply Z.mul_nonneg_nonneg|]; lia).
    replace (Z.pos m1 * bpow e1 * 2 ^ 1074 * c)
      with (Z.pos m1 * (bpow e1 * 2 ^ 1074) * c) by lia.
    rewrite <- Hb. lia.
Qed.

Lemma ltb_compare (a b : Z) :
  match a ?= b with Lt => true | _ => false end = (a <? b).
Proof. reflexivity. Qed.

(** Comparing a positive double below [2 ^ 53] with an integer. *)
Lemma SFltb_ofZ (m : positive) (e t : Z) :
  normal m → -1074 <= e → sval m e < 2 ^ 53 * 2 ^ 1074 →
  SFltb (S754_finite false m e) (Number_ofZ t) = (sval m e <? t * 2 ^ 1074).
Proof.
  intros Hm He Hlt.
  assert (HK : 0 < 2 ^ 1074) by (by apply Z.pow_pos_nonneg).
  assert (Hpos : 0 < sval m e) by (pose proof (bpow_pos e He); unfold sval; lia).
  set (K := 2 ^ 1074) in *.
  destruct (Z.lt_trichotomy t 0) as [Hneg|[->|Ht]].
  - rewrite Number_ofZ_negative by done. symmetry. apply Z.ltb_ge.
    assert (t * K <= 0) by (apply Z.mul_nonpos_nonneg; lia). lia.
  - cbn. symmetry. apply Z.ltb_ge. lia.
  - destruct (Z.lt_ge_cases t (2 ^ 53)) as [Hsmall|Hlarge].
    + destruct (Number_ofZ_small t) as (mt & et & -> & Hmt & Het & Hval); [lia|].
      unfold SFltb. rewrite SFcompare_normal by (done || lia).
      rewrite (sval_ofZ mt et t) by (done || lia). apply ltb_compare.
    + assert (Hbig : 2 ^ 53 * K <= t * K) by (apply Z.mul_le_mono_nonneg_r; lia).
      replace (sval m e <? t * K) with true by (symmetry; apply Z.ltb_lt; lia).
      destruct (Number_ofZ_large t Hlarge) as [->|(mt & et & -> & Hmt & Het)]; [done|].
      unfold SFltb. rewrite SFcompare_normal by (done || lia).
      replace (sval m e ?= sval mt et) with Lt; [done|].
      symmetry. apply Z.compare_lt_iff.
      enough (2 ^ 53 * K <= sval mt et) by lia.
      unfold sval, K. change (2 ^ 1074) with (bpow 0).
      replace et with (0 + 1 + (et - 1)) by lia. rewrite !bpow_add by lia.
      pose proof (bpow_pos 0 ltac:(lia)) as HB.
      assert (HP : 0 < 2 ^ (et - 1)) by (apply Z.pow_pos_nonneg; lia).
      unfold normal in Hmt. change (2 ^ 53) with (2 ^ 52 * 2 ^ 1).
      set (B := bpow 0) in *. set (P := 2 ^ (et - 1)) in *.
      assert (2 ^ 52 * (B * 2 ^ 1) <= Z.pos mt * (B * 2 ^ 1))
        by (apply Z.mul_le_mono_nonneg_r; lia).
      assert (Z.pos mt * (B * 2 ^ 1) * 1 <= Z.pos mt * (B * 2 ^ 1) * P)
        by (apply Z.mul_le_mono_nonneg_l; lia).
      lia.
Qed.

Lemma SFltb_zero_ofZ (t : Z) :
  SFltb (S754_zero false) (Number_ofZ t) = (0 <? t).
Proof.
  destruct (Z.lt_trichotomy t 0) as [Hneg|[->|Ht]].
  - rewrite Number_ofZ_negative by done. symmetry. apply Z.ltb_ge. lia.
  - reflexivity.
  - replace (0 <? t) with true by (symmetry; apply Z.ltb_lt; lia).
    destruct (Z.lt_ge_cases t (2 ^ 53)) as [Hsmall|Hlarge].
    + by destruct (Number_ofZ_small t) as (mt & et & -> & _); [lia|].
    + by destruct (Number_ofZ_large t Hlarge) as [->|(mt & et & -> & _)].
Qed.

(** Integers that a double holds exactly compare as integers. *)
Lemma Number_ofZ_ltb (a t : Z) :
  0 <= a < 2 ^ 53 → SFltb (Number_ofZ a) (Number_ofZ t) = (a <? t).
Proof.
  intros Ha. destruct (Z.eq_dec a 0) as [->|Hne]; [apply SFltb_zero_ofZ|].
  destruct (Number_ofZ_small a) as (m & e & -> & Hm & He & Hval); [lia|].
  assert (HK : 0 < 2 ^ 1074) by (by apply Z.pow_pos_nonneg).
  pose proof (sval_ofZ m e a ltac:(lia) Hval) as Hs.
  rewrite SFltb_ofZ by (done || lia || (rewrite Hs; apply Z.mul_lt_mono_pos_r; lia)).
  rewrite Hs. set (K := 2 ^ 1074) in *.
  destruct (Z.ltb_spec a t) as [Hlt|Hge].
  - apply Z.ltb_lt. apply Z.mul_lt_mono_pos_r; lia.
  - apply Z.ltb_ge. apply Z.mul_le_mono_nonneg_r; lia.
Qed.

(** With at most six fields the delay per cell is 300 and the delay
    [300 * i], without rounding. *)
Lemma doubleDelay_few (n i : nat) :
  (i < n)%nat → (n <= 6)%nat →
  doubleDelay n i = Number_ofZ (300 * Z.of_nat i).
Proof.
  intros Hi Hn.
  do 7 (destruct n as [|n]; [do 7 (destruct i as [|i]; [try lia; vm_compute; reflexivity|]); lia|]).
  lia.
Qed.

Lemma Number_ofZ_2000 : Number_ofZ 2000 = S754_finite false 8796093022208000 (-42).
Proof. reflexivity. Qed.

Lemma Number_ofZ_300 : Number_ofZ 300 = S754_finite false 5277655813324800 (-44).
Proof. reflexivity. Qed.

Lemma Z_mul_le_cancel_r (a b k : Z) : 0 < k → a * k <= b * k → a <= b.
Proof. intros Hk H. by apply Z.mul_le_mono_pos_r in H. Qed.

(** With seven fields or more the delay per cell is the double quotient
    [2000 / fieldCount], within one part in [2 ^ 52] of the quotient. *)
Lemma delayPerCell_many (n : nat) :
  (7 <= n)%nat → Z.of_nat n < 2 ^ 53 →
  ∃ (m : positive) (e : Z),
    Math_min (Number_ofZ 300) (Number_div (Number_ofZ 2000) (Number_ofZ (Z.of_nat n)))
    = S754_finite false m e
    ∧ normal m ∧ -95 <= e <= -41
    ∧ sval m e * Z.of_nat n * 2 ^ 52 <= 2000 * 2 ^ 1074 * (2 ^ 52 + 1)
    ∧ 2000 * 2 ^ 1074 * 2 ^ 52 <= sval m e * Z.of_nat n * (2 ^ 52 + 1).
Proof.
  intros Hn7 Hn. unfold Number_div.
  rewrite Number_ofZ_2000, Number_ofZ_300.
  destruct (Number_ofZ_small (Z.of_nat n)) as (mn & en & -> & Hmn & Hen & Hvn); [lia|].
  pose proof (sval_ofZ mn en _ ltac:(lia) Hvn) as Hsn.
  assert (H2000 : normal 8796093022208000) by (unfold normal; lia).
  assert (H300 : normal 5277655813324800) by (unfold normal; lia).
  assert (Hs2000 : sval 8796093022208000 (-42) = 2000 * 2 ^ 1074)
    by (apply sval_ofZ; [lia|reflexivity]).
  assert (Hs300 : sval 5277655813324800 (-44) = 300 * 2 ^ 1074)
    by (apply sval_ofZ; [lia|reflexivity]).
  destruct (SFdiv_normal 8796093022208000 mn (-42) en)
    as (mq & eq & -> & Hmq & Heq & Hqup & Hqdn); [done|done|lia|lia|lia|lia|].
  rewrite Hs2000, Hsn in Hqup, Hqdn.
  assert (HK : 0 < 2 ^ 1074) by (by apply Z.pow_pos_nonneg).
  set (K := 2 ^ 1074) in *. set (Q := sval mq eq) in *. set (c := 2 ^ 52) in *.
  set (N := Z.of_nat n) in *.
  assert (Hc : 0 < c) by done.
  assert (HQ0 : 0 < Q) by (pose proof (bpow_pos eq ltac:(lia)); unfold Q, sval; lia).
  assert (Hqup' : Q * N * c <= 2000 * K * (c + 1)).
  { apply (Z_mul_le_cancel_r _ _ K HK). lia. }
  assert (Hqdn' : 2000 * K * c <= Q * N * (c + 1)).
  { apply (Z_mul_le_cancel_r _ _ K HK). lia. }
  assert (HQ300 : Q < 300 * K).
  { destruct (Z.lt_ge_cases Q (300 * K)) as [|Hge]; [done|exfalso].
    assert (300 * K * 7 <= Q * N) by (apply Z.mul_le_mono_nonneg; lia).
    assert (300 * K * 7 * c <= Q * N * c) by (apply Z.mul_le_mono_nonneg_r; lia).
    assert (2000 * K * 1 <= 2000 * K * c) by (apply Z.mul_le_mono_nonneg_l; lia).
    lia. }
  exists mq, eq. split; [|split; [assumption|split; [lia|split; assumption]]].
  unfold Math_min. rewrite SFcompare_normal by (assumption || lia).
  rewrite Hs300. fold K Q.
  by replace (300 * K ?= Q) with Gt by (symmetry; apply Z.compare_gt_iff; lia).
Qed.

(** With seven fields or more the delay is the double product of the
    position and the delay per cell, each within one part in [2 ^ 52] of
    what it rounds. *)
Lemma doubleDelay_many (n i : nat) :
  (7 <= n)%nat → Z.of_nat n < 2 ^ 53 → (0 < i < n)%nat →
  ∃ (m : positive) (e : Z),
    doubleDelay n i = S754_finite false m e ∧ normal m ∧ -1074 <= e
    ∧ sval m e < 2 ^ 53 * 2 ^ 1074
    ∧ sval m e * Z.of_nat n * 2 ^ 104
      <= Z.of_nat i * 2000 * 2 ^ 1074 * ((2 ^ 52 + 1) * (2 ^ 52 + 1))
    ∧ Z.of_nat i * 2000 * 2 ^ 1074 * 2 ^ 104
      <= sval m e * Z.of_nat n * ((2 ^ 52 + 1) * (2 ^ 52 + 1)).
Proof.
  intros Hn7 Hn Hi. unfold doubleDelay, Number_mul.
  destruct (delayPerCell_many n Hn7 Hn) as (mq & eq & -> & Hmq & Heq & Hqup & Hqdn).
  destruct (Number_ofZ_small (Z.of_nat i)) as (mi & ei & -> & Hmi & Hei & Hvi); [lia|].
  pose proof (sval_ofZ mi ei _ ltac:(lia) Hvi) as Hsi.
  destruct (SFmul_normal mi mq ei eq)
    as (m & e & -> & Hm & He & Hup & Hdn); [done|done|lia|lia|lia|lia|].
  assert (HK : 0 < 2 ^ 1074) by (by apply Z.pow_pos_nonneg).
  rewrite Hsi in Hup, Hdn.
  set (K := 2 ^ 1074) in *. set (Q := sval mq eq) in *. set (c := 2 ^ 52) in *.
  set (N := Z.of_nat n) in *. set (I := Z.of_nat i) in *. set (R := sval m e) in *.
  assert (Hc : 0 < c) by done.
  assert (HQ0 : 0 < Q) by (pose proof (bpow_pos eq ltac:(lia)); unfold Q, sval; lia).
  assert (HR0 : 0 < R) by (pose proof (bpow_pos e ltac:(lia)); unfold R, sval; lia).
  assert (Hup' : R * c <= I * Q * (c + 1)).
  { apply (Z_mul_le_cancel_r _ _ K HK). lia. }
  assert (Hdn' : I * Q * c <= R * (c + 1)).
  { apply (Z_mul_le_cancel_r _ _ K HK). lia. }
  assert (HI : 0 < I) by lia. assert (HN : 0 < N) by lia.
  assert (Hupper : R * N * (c * c) <= I * 2000 * K * ((c + 1) * (c + 1))).
  { assert (R * c * (N * c) <= I * Q * (c + 1) * (N * c))
      by (apply Z.mul_le_mono_nonneg_r; [apply Z.mul_nonneg_nonneg|]; lia).
    assert (Q * N * c * (I * (c + 1)) <= 2000 * K * (c + 1) * (I * (c + 1)))
      by (apply Z.mul_le_mono_nonneg_r; [apply Z.mul_nonneg_nonneg|]; lia).
    lia. }
  exists m, e. split; [done|]. split; [done|]. split; [lia|].
  change (2 ^ 104) with (c * c). change (2 ^ 53) with (2 * c).
  split; [|split; [done|]].
  - destruct (Z.lt_ge_cases R (2 * c * K)) as [|Hge]; [done|exfalso].
    assert (2 * c * K * (N * (c * c)) <= R * (N * (c * c)))
      by (apply Z.mul_le_mono_nonneg_r; [apply Z.mul_nonneg_nonneg|]; lia).
    assert (I * (2000 * K * ((c + 1) * (c + 1))) <= N * (2000 * K * ((c + 1) * (c + 1))))
      by (apply Z.mul_le_mono_nonneg_r; [apply Z.mul_nonneg_nonneg|]; lia).
    assert (N * K * (2000 * ((c + 1) * (c + 1))) <= N * K * (2 * c * (c * c)))
      by (apply Z.mul_le_mono_nonneg_l; [apply Z.mul_nonneg_nonneg|]; lia).
    assert (0 < N * K * (c * c * c)) by (repeat apply Z.mul_pos_pos; assumption).
    lia.
  - assert (2000 * K * c * (I * c) <= Q * N * (c + 1) * (I * c))
      by (apply Z.mul_le_mono_nonneg_r; [apply Z.mul_nonneg_nonneg|]; lia).
    assert (I * Q * c * (N * (c + 1)) <= R * (c + 1) * (N * (c + 1)))
      by (apply Z.mul_le_mono_nonneg_r; [apply Z.mul_nonneg_nonneg|]; lia).
    lia.
Qed.

(** The first field is not delayed. *)
Lemma doubleDelay_first (n : nat) :
  (0 < n)%nat → Z.of_nat n < 2 ^ 53 → doubleDelay n 0 = S754_zero false.
Proof.
  intros Hn0 Hn. destruct (le_lt_dec 7 n) as [Hn7|Hn6].
  - unfold doubleDelay.
    by destruct (delayPerCell_many n Hn7 Hn) as (m & e & -> & _).
  - by rewrite doubleDelay_few by lia.
Qed.

(** Whatever the number of fields, the delay stays below the window of
    2500: a cell whose row arrived that long ago passes the test
    [elapsed > delay]. *)
Lemma doubleDelay_below_window (n i : nat) (t : Z) :
  (i < n)%nat → Z.of_nat n < 2 ^ 53 → 2500 <= t →
  SFltb (doubleDelay n i) (Number_ofZ t) = true.
Proof.
  intros Hi Hn Ht. destruct (le_lt_dec 7 n) as [Hn7|Hn6].
  - destruct i as [|i].
    + rewrite doubleDelay_first by (done || lia). rewrite SFltb_zero_ofZ.
      apply Z.ltb_lt. lia.
    + destruct (doubleDelay_many n (S i)) as (m & e & -> & Hm & He & _ & Hup & _);
        [done|done|lia|].
      assert (HK : 0 < 2 ^ 1074) by (by apply Z.pow_pos_nonneg).
      set (K := 2 ^ 1074) in *. set (R := sval m e) in *.
      set (N := Z.of_nat n) in *. set (I := Z.of_nat (S i)) in *.
      assert (HR : R < 2500 * K).
      { destruct (Z.lt_ge_cases R (2500 * K)) as [|Hge]; [done|exfalso].
        assert (2500 * K * N <= R * N) by (apply Z.mul_le_mono_nonneg_r; lia).
        assert (I * K <= N * K) by (apply Z.mul_le_mono_nonneg_r; lia).
        lia. }
      assert (2500 * K <= t * K) by (apply Z.mul_le_mono_nonneg_r; lia).
      rewrite SFltb_ofZ by (done || lia). apply Z.ltb_lt. fold K R. lia.
  - rewrite doubleDelay_few by lia. rewrite Number_ofZ_ltb by lia.
    apply Z.ltb_lt. lia.
Qed.

Lemma Qpower_bpow (e : Z) :
  -1074 <= e → (2 ^ e == inject_Z (bpow e) / inject_Z (2 ^ 1074))%Q.
Proof.
  intros He. unfold bpow. rewrite !Zpower_Qpower by lia.
  rewrite Qpower_plus by done. rewrite Qdiv_mult_l; [reflexivity|].
  by apply Qpower_not_0.
Qed.

Lemma Number_value_sval (m : positive) (e : Z) :
  -1074 <= e →
  (Number_value (S754_finite false m e)
   == inject_Z (sval m e) / inject_Z (2 ^ 1074))%Q.
Proof.
  intros He. unfold Number_value, sval. rewrite (Qpower_bpow e He), inject_Z_mult.
  unfold Qdiv. apply Qmult_assoc.
Qed.

Lemma Qfrac_le (a b c d : Z) :
  0 < b → 0 < d → a * d <= c * b →
  (inject_Z a / inject_Z b <= inject_Z c / inject_Z d)%Q.
Proof.
  intros Hb Hd H.
  assert (Hb' : (inject_Z 0 < inject_Z b)%Q) by (by rewrite <- Zlt_Qlt).
  assert (Hd' : (inject_Z 0 < inject_Z d)%Q) by (by rewrite <- Zlt_Qlt).
  apply Qle_shift_div_r; [done|]. unfold Qdiv.
  rewrite <- Qmult_assoc, (Qmult_comm (/ _)), Qmult_assoc.
  apply Qle_shift_div_l; [done|].
  by rewrite <- !inject_Z_mult, <- Zle_Qle.
Qed.

Lemma inject_Z_nonzero (z : Z) : z ≠ 0 → ¬ (inject_Z z == 0)%Q.
Proof. intros Hz. unfold Qeq. simpl. lia. Qed.

Lemma roundingFactor_frac :
  (roundingFactor == inject_Z (2 ^ 52 + 1) / inject_Z (2 ^ 52))%Q.
Proof. reflexivity. Qed.

(** The double delay is the delay of the specification up to two
    roundings, and equal to it with at most six fields. *)
Lemma doubleDelay_accuracy (n i : nat) :
  (i < n)%nat → Z.of_nat n < 2 ^ 53 →
  (Number_value (doubleDelay n i)
   <= staggerDelay n i * roundingFactor * roundingFactor)%Q
  ∧ (staggerDelay n i
     <= Number_value (doubleDelay n i) * roundingFactor * roundingFactor)%Q.
Proof.
  intros Hi Hn. destruct (le_lt_dec 7 n) as [Hn7|Hn6].
  - destruct i as [|i].
    + rewrite doubleDelay_first by (done || lia).
      assert (Hx : (staggerDelay n 0 == 0)%Q) by (unfold staggerDelay; apply Qmult_0_l).
      rewrite Hx. cbn [Number_value]. rewrite !Qmult_0_l. split; apply Qle_refl.
    + destruct (doubleDelay_many n (S i)) as (m & e & -> & Hm & He & _ & Hup & Hdn);
        [done|done|lia|].
      rewrite (Number_value_sval m e He).
      assert (HK : 0 < 2 ^ 1074) by (by apply Z.pow_pos_nonneg).
      assert (Hx : (staggerDelay n (S i)
                    == inject_Z (Z.of_nat (S i) * 2000) / inject_Z (Z.of_nat n))%Q).
      { unfold staggerDelay. rewrite Q.min_r.
        - rewrite inject_Z_mult. field. apply inject_Z_nonzero. lia.
        - apply Qle_shift_div_r.
          + change (inject_Z 0 < inject_Z (Z.of_nat n))%Q. rewrite <- Zlt_Qlt. lia.
          + rewrite <- inject_Z_mult, <- Zle_Qle. lia. }
      rewrite Hx, roundingFactor_frac.
      set (K := 2 ^ 1074) in *. set (R := sval m e) in *.
      set (N := Z.of_nat n) in *. set (I := Z.of_nat (S i)) in *.
      change (2 ^ 104) with (2 ^ 52 * 2 ^ 52) in *. set (c := 2 ^ 52) in *.
      assert (Hc : 0 < c) by done. assert (HN : 0 < N) by lia.
      assert (HcQ : ¬ (inject_Z c == 0)%Q) by (apply inject_Z_nonzero; lia).
      assert (HNQ : ¬ (inject_Z N == 0)%Q) by (apply inject_Z_nonzero; lia).
      assert (HKQ : ¬ (inject_Z K == 0)%Q) by (apply inject_Z_nonzero; lia).
      split.
      * setoid_replace (inject_Z (I * 2000) / inject_Z N
                        * (inject_Z (c + 1) / inject_Z c)
                        * (inject_Z (c + 1) / inject_Z c))%Q
          with (inject_Z (I * 2000 * ((c + 1) * (c + 1))) / inject_Z (N * (c * c)))%Q
          using relation Qeq by (rewrite !inject_Z_mult; field; done).
        apply Qfrac_le; [done|by repeat apply Z.mul_pos_pos|]. lia.
      * setoid_replace (inject_Z R / inject_Z K
                        * (inject_Z (c + 1) / inject_Z c)
                        * (inject_Z (c + 1) / inject_Z c))%Q
          with (inject_Z (R * ((c + 1) * (c + 1))) / inject_Z (K * (c * c)))%Q
          using relation Qeq by (rewrite !inject_Z_mult; field; done).
        apply Qfrac_le; [done|by repeat apply Z.mul_pos_pos|]. lia.
  - rewrite doubleDelay_few by lia.
    do 7 (destruct n as [|n];
      [do 7 (destruct i as [|i]; [try lia; split; by vm_compute|]); lia|]).
    lia.
Qed.

Lemma Number_ofZ_smallDouble (z : Z) : 0 <= z < 2 ^ 53 → smallDouble (Number_ofZ z).
Proof.
  intros Hz. destruct (Z.eq_dec z 0) as [->|Hne]; [by left|right].
  destruct (Number_ofZ_small z) as (m & e & -> & Hm & He & Hval); [lia|].
  exists m, e. split; [done|]. split; [done|]. split; [lia|].
  rewrite (sval_ofZ m e z) by (done || lia).
  apply Z.mul_lt_mono_pos_r; [by apply Z.pow_pos_nonneg|lia].
Qed.

Lemma doubleDelay_smallDouble (n i : nat) :
  (i < n)%nat → Z.of_nat n < 2 ^ 53 → smallDouble (doubleDelay n i).
Proof.
  intros Hi Hn. destruct (le_lt_dec 7 n) as [Hn7|Hn6].
  - destruct i as [|i]; [left; apply doubleDelay_first; (done || lia)|right].
    destruct (doubleDelay_many n (S i)) as (m & e & -> & Hm & He & Hlt & _);
      [done|done|lia|].
    by exists m, e.
  - rewrite doubleDelay_few by lia. apply Number_ofZ_smallDouble. lia.
Qed.

(** Comparing a delay with an integer compares the numbers they stand
    for. *)
Lemma SFltb_value (x : spec_float) (t : Z) :
  smallDouble x →
  SFltb x (Number_ofZ t) = true ↔ (Number_value x < inject_Z t)%Q.
Proof.
  intros [->|(m & e & -> & Hm & He & Hlt)].
  - rewrite SFltb_zero_ofZ, Z.ltb_lt. cbn [Number_value].
    change 0%Q with (inject_Z 0). by rewrite <- Zlt_Qlt.
  - rewrite SFltb_ofZ by done. rewrite Z.ltb_lt, (Number_value_sval m e He).
    assert (HK : 0 < 2 ^ 1074) by (by apply Z.pow_pos_nonneg).
    assert (HKQ : (0 < inject_Z (2 ^ 1074))%Q).
    { change 0%Q with (inject_Z 0). by rewrite <- Zlt_Qlt. }
    set (K := 2 ^ 1074) in *. set (R := sval m e) in *. split.
    + intros H. apply Qlt_shift_div_r; [done|].
      by rewrite <- inject_Z_mult, <- Zlt_Qlt.
    + intros H. apply (Qmult_lt_r _ _ _ HKQ) in H.
      unfold Qdiv in H. rewrite <- Qmult_assoc, (Qmult_comm (/ _)) in H.
      rewrite Qmult_inv_r, Qmult_1_r in H by (apply inject_Z_nonzero; lia).
      by rewrite <- inject_Z_mult, <- Zlt_Qlt in H.
Qed.

(** **** The delay, from the component's state *)

(** An integer below [2 ^ 53] stands for itself as a double. *)
Lemma Number_value_ofZ (z : Z) :
  0 <= z < 2 ^ 53 → (Number_value (Number_ofZ z) == inject_Z z)%Q.
Proof.
  intros Hz. destruct (Z.eq_dec z 0) as [->|Hne]; [reflexivity|].
  destruct (Number_ofZ_small z) as (m & e & -> & Hm & He & Hval); [lia|].
  rewrite Number_value_sval by lia. rewrite (sval_ofZ m e z) by (done || lia).
  rewrite inject_Z_mult. apply Qdiv_mult_l. apply inject_Z_nonzero.
  apply Z.pow_nonzero; lia.
Qed.

(** The delay of the specification with at most six fields. *)
Lemma staggerDelay_few (n i : nat) :
  (0 < n <= 6)%nat → (staggerDelay n i == inject_Z (300 * Z.of_nat i))%Q.
Proof.
  intros Hn. unfold staggerDelay. rewrite Q.min_l.
  - rewrite <- inject_Z_mult. by rewrite Z.mul_comm.
  - destruct n as [|m]; [lia|].
    change (Z.of_nat (S m)) with (Z.pos (Pos.of_succ_nat m)).
    unfold Qdiv, Qinv, Qmult, Qle, inject_Z. simpl.
    pose proof (Zpos_P_of_succ_nat m). lia.
Qed.

Lemma delay_is_doubleDelay (st : State) (rowIndex arrival : Z) (i : nat) :
  rowDataArrivalTime st !! rowIndex = Some arrival → arrival ≠ 0 →
  getCellAnimationDelay st rowIndex i = doubleDelay (length fields) i.
Proof.
  intros Ha Hne. unfold getCellAnimationDelay, delayPerCell, doubleDelay.
  rewrite Ha. by destruct (Z.eqb_spec arrival 0).
Qed.

Lemma delay_without_arrival (st : State) (rowIndex : Z) (i : nat) :
  rowDataArrivalTime st !! rowIndex = None →
  getCellAnimationDelay st rowIndex i = S754_zero false.
Proof. intros Ha. unfold getCellAnimationDelay. by rewrite Ha. Qed.

Lemma revealed_after_window (st : State) (rowIndex arrival : Z) (i : nat)
    (name : string) (now : Z) :
  rowDataArrivalTime st !! rowIndex = Some arrival → arrival ≠ 0 →
  (i < length fields)%nat → Z.of_nat (length fields) < 2 ^ 53 →
  arrival + 2500 <= now →
  shouldShowData st now rowIndex i name = true.
Proof.
  intros Ha Hne Hi Hn Hnow. unfold shouldShowData. rewrite Ha.
  apply orb_true_iff. right.
  destruct (Z.eqb_spec arrival 0); [done|]. cbn [negb andb].
  rewrite (delay_is_doubleDelay st rowIndex arrival i) by done.
  apply doubleDelay_below_window; (done || lia).
Qed.

Lemma isCellShown_false (st : State) (index : Z) (name : string) :
  isCellShown st index name = false ↔ cellKey index name ∉ cellsShown st.
Proof.
  unfold isCellShown. rewrite bool_decide_eq_false. done.
Qed.

(** The hold-back test, by the numbers: the comparison of doubles is the
    comparison of the numbers they stand for, and the window of 2500 is
    beyond every delay. *)
Lemma hold_back_test (st : State) (rowIndex arrival : Z) (i : nat)
    (name : string) (now : Z) :
  rowDataArrivalTime st !! rowIndex = Some arrival → arrival ≠ 0 →
  (i < length fields)%nat → Z.of_nat (length fields) < 2 ^ 53 →
  (cellAwaitsReveal st now rowIndex i name = true) ↔
    (cellKey rowIndex name ∉ cellsShown st)
    ∧ (inject_Z (now - arrival)
       <= Number_value (getCellAnimationDelay st rowIndex i))%Q.
Proof.
  intros Ha Hne Hi Hn.
  pose proof (delay_is_doubleDelay st rowIndex arrival i Ha Hne) as Hd.
  pose proof (doubleDelay_smallDouble (length fields) i Hi Hn) as Hsmall.
  unfold cellAwaitsReveal, shouldShowData, shouldAnimate, Number_gt.
  rewrite Ha, Hd.
  destruct (Z.eqb_spec arrival 0) as [|_]; [done|]. cbn [negb andb].
  rewrite <- isCellShown_false.
  destruct (isCellShown st rowIndex name); cbn [negb andb orb].
  { split; [done|]. by intros [? _]. }
  destruct (SFltb (doubleDelay (length fields) i) (Number_ofZ (now - arrival)))
    eqn:Hlt; cbn [negb andb].
  - split; [done|]. intros [_ Hq].
    apply (SFltb_value _ _ Hsmall) in Hlt. by apply Qlt_not_le in Hlt.
  - split.
    + intros _. split; [done|]. apply Qnot_lt_le. intros Hq.
      apply (SFltb_value _ _ Hsmall) in Hq. congruence.
    + intros _. apply Z.ltb_lt.
      destruct (Z.lt_ge_cases (now - arrival) 2500) as [|Hge]; [done|].
      rewrite doubleDelay_below_window in Hlt by done. done.
Qed.

(** C9. For a row whose arrival timestamp [arrival] is recorded (a clock
    reading, hence not 0) and a field at position [i] of the requested
    fields (an array, hence fewer than [2 ^ 32]), the cell's delay is the
    double that [i * Math.min(300, 2000 / fieldCount)] evaluates to. It is
    within a factor [(1 + 2 ^ -52) ^ 2] of the number
    [i * min (300, 2000 / fieldCount)], either way; with at most six
    fields it is that number, [300 * i], which is 600 for the field at
    position 2 of 4. Until the time elapsed exceeds the delay, a cell not
    marked shown fails the test [elapsed > delay] and is held back. A cell
    of a row without an arrival timestamp has delay 0 and is never held
    back; from [arrival + 2500] on the cell passes the test
    [elapsed > delay] whatever its delay and is not held back, and the
    timer set by the [result] event that recorded [arrival] has by then
    marked every cell of the row as shown, whatever happened in between,
    and they stay marked. *)
Theorem reveal_timing (st : State) (rowIndex arrival : Z) (i : nat)
    (f : EnrichmentField) (now : Z) :
  rowDataArrivalTime st !! rowIndex = Some arrival →
  arrival ≠ 0 →
  fields !! i = Some f →
  Z.of_nat (length fields) < 2 ^ 32 →
  ((Number_value (getCellAnimationDelay st rowIndex i)
    <= staggerDelay (length fields) i * roundingFactor * roundingFactor)%Q
   ∧ (staggerDelay (length fields) i
      <= Number_value (getCellAnimationDelay st rowIndex i)
         * roundingFactor * roundingFactor)%Q)
  ∧ ((length fields <= 6)%nat →
     getCellAnimationDelay st rowIndex i = Number_ofZ (300 * Z.of_nat i)
     ∧ (Number_value (getCellAnimationDelay st rowIndex i)
        == staggerDelay (length fields) i)%Q)
  ∧ (length fields = 4%nat → i = 2%nat →
     getCellAnimationDelay st rowIndex i = Number_ofZ 600)
  ∧ (cellKey rowIndex (f_name f) ∉ cellsShown st →
     (inject_Z (now - arrival)
      <= Number_value (getCellAnimationDelay st rowIndex i))%Q →
     shouldShowData st now rowIndex i (f_name f) = false
     ∧ cellAwaitsReveal st now rowIndex i (f_name f) = true)
  ∧ (∀ st' rowIndex', rowDataArrivalTime st' !! rowIndex' = None →
       getCellAnimationDelay st' rowIndex' i = S754_zero false
       ∧ cellAwaitsReveal st' now rowIndex' i (f_name f) = false)
  ∧ (arrival + 2500 <= now →
       shouldShowData st now rowIndex i (f_name f) = true
       ∧ cellAwaitsReveal st now rowIndex i (f_name f) = false)
  ∧ (∀ st0 rnd result acts acts',
       r_rowIndex result = rowIndex → arrival + 2500 <= now →
       rowCellsShown rowIndex
         (run acts' (advance now
            (run acts (handleEvent arrival rnd (EvResult result) st0))))).
Proof.
  intros Ha Hne Hf Hlen.
  assert (Hi : (i < length fields)%nat) by (by eapply lookup_lt_Some).
  assert (Hn : Z.of_nat (length fields) < 2 ^ 53) by lia.
  pose proof (delay_is_doubleDelay st rowIndex arrival i Ha Hne) as Hd.
  split; [rewrite Hd; by apply doubleDelay_accuracy|].
  split; [|split; [|split; [|split; [|split]]]].
  - intros H6. rewrite Hd, doubleDelay_few by lia. split; [done|].
    rewrite Number_value_ofZ by lia. symmetry. apply staggerDelay_few. lia.
  - intros H4 H2. rewrite Hd, H4, H2. reflexivity.
  - intros Hkey Hle.
    assert (Hheld : cellAwaitsReveal st now rowIndex i (f_name f) = true)
      by (by apply (hold_back_test st rowIndex arrival)).
    split; [|exact Hheld]. unfold cellAwaitsReveal in Hheld.
    apply andb_true_iff in Hheld as [Hs _]. by apply negb_true_iff in Hs.
  - intros st' rowIndex' Hnone. split; [by apply delay_without_arrival|].
    unfold cellAwaitsReveal, shouldAnimate. rewrite Hnone. apply andb_false_r.
  - intros Hnow.
    assert (Hs : shouldShowData st now rowIndex i (f_name f) = true)
      by (by apply (revealed_after_window st rowIndex arrival)).
    split; [exact Hs|]. unfold cellAwaitsReveal. by rewrite Hs.
  - intros st0 rnd result acts acts' <- Hnow.
    by apply reveal_window_marks_row.
Qed.

(** ** The rest of the component *)

(** *** Definitions *)

(** The updater of [toggleRowExpansion], on the set of expanded rows. *)
Definition toggleRowExpansion (rowIndex : Z) (prev : gset Z) : gset Z :=
  if bool_decide (rowIndex ∈ prev) then prev ∖ {[rowIndex]}
  else {[rowIndex]} ∪ prev.

Definition isProcessingStatus (s : RowStatus) : bool :=
  match s with
  | RowProcessing => true
  | _ => false
  end.

(** The updater of the auto-expand effect:
    [currentRow >= 0 && status === "processing"] adds the current row. *)
Definition autoExpand (st : State) (prev : gset Z) : gset Z :=
  match status st with
  | Processing => if 0 <=? currentRow st then {[currentRow st]} ∪ prev else prev
  | _ => prev
  end.

(** The test of the auto-collapse timer:
    [result && result.status !== 'processing' && rowIndex !== currentRow]. *)
Definition collapses (st : State) (rowIndex : Z) : bool :=
  match results st !! rowIndex with
  | Some result =>
      negb (isProcessingStatus (r_status result))
      && negb (rowIndex =? currentRow st)
  | None => false
  end.

(** The updater the auto-collapse timer runs two seconds after [results]
    or [currentRow] last changed. *)
Definition autoCollapse (st : State) (prev : gset Z) : gset Z :=
  filter (fun rowIndex => collapses st rowIndex = false) prev.

(** The status a terminal event sets. *)
Definition terminalStatus (e : StreamEvent) : option Status :=
  match e with
  | EvComplete | EvError _ => Some Completed
  | EvCancelled => Some Cancelled
  | _ => None
  end.

Definition lineTerminalStatus (ln : Line StreamEvent) : option Status :=
  match ln with
  | Data _ _ e => terminalStatus e
  | _ => None
  end.

(** The type and the text of the message a frame of the query stream
    appends to the log. *)
Definition chatLineMessage (ln : Line ChatEvent) : option (string * string) :=
  match ln with
  | Data _ _ (ChStatus message _) => Some ("info", message)
  | Data _ _ (ChResponse message) => Some ("assistant", message)
  | Data _ _ (ChError message) => Some ("warning", message)
  | _ => None
  end.

Definition typeAndText (msg : ChatMessage) : string * string :=
  (m_type msg, m_message msg).

(** *** The result store, continued *)


Lemma perform_dom (a : Action) (st : State) :
  dom (results st) ⊆ dom (results (perform a st)).
Proof.
  intros i Hi. apply elem_of_dom. apply perform_keeps_entry.
  by apply elem_of_dom.
Qed.

(** X2. The result store only grows: whatever the component does (stream
    lines, cancellation, queries, timers), in any order, every rowIndex
    that has an entry keeps one, and the size of the store, which the
    header shows as the number of rows processed, never decreases. *)
Theorem store_only_grows (acts : list Action) (st : State) :
  dom (results st) ⊆ dom (results (run acts st))
  ∧ (size (results st) ≤ size (results (run acts st)))%nat.
Proof.
  assert (H : dom (results st) ⊆ dom (results (run acts st))).
  { intros i Hi. apply elem_of_dom. apply run_keeps_entry. by apply elem_of_dom. }
  split; [exact H|].
  rewrite <- !(size_dom (D:=gset Z)). by apply subseteq_size.
Qed.

(** *** The session's final status *)

Lemma handleLines_app (l1 l2 : list (Line StreamEvent)) (st : State) :
  handleLines (l1 ++ l2) st = handleLines l2 (handleLines l1 st).
Proof. unfold handleLines. apply foldl_app. Qed.

Lemma readLoop_concat (chunks : list (list (Line StreamEvent))) (st : State) :
  readLoop chunks st = handleLines (concat chunks) st.
Proof.
  revert st. induction chunks as [|lns chunks IH]; intros st; [done|].
  simpl. rewrite handleLines_app. apply IH.
Qed.

Lemma handleLine_status_spec (ln : Line StreamEvent) (st : State) :
  status (handleLine ln st) = default (status st) (lineTerminalStatus ln).
Proof. destruct ln as [| |now rnd e]; simpl; try done. by destruct e. Qed.

Lemma handleLines_status_spec (lns : list (Line StreamEvent)) (st : State) :
  status (handleLines lns st)
  = default (status st) (last (omap lineTerminalStatus lns)).
Proof.
  induction lns as [|ln lns IH] using rev_ind; [done|].
  rewrite handleLines_app, omap_app. simpl.
  change (handleLines [ln] (handleLines lns st))
    with (handleLine ln (handleLines lns st)).
  rewrite handleLine_status_spec, IH.
  destruct (lineTerminalStatus ln) as [s|]; simpl.
  - by rewrite last_snoc.
  - by rewrite app_nil_r.
Qed.

(** X3. How an enrichment run ends. When the request fails, or a read of
    the stream fails, the status is completed whatever was received. When
    the stream is read to its end, the status is the one set by the last
    terminal event of the stream ([complete] and [error] give completed,
    [cancelled] gives cancelled), and processing when there was none; so a
    terminal event that arrives after another one overrides it. A failed
    read keeps the results collected before it. *)
Theorem session_final_status (chunks : list (list (Line StreamEvent)))
    (st : State) :
  status (startEnrichment FetchFailed st) = Completed
  ∧ results (startEnrichment FetchFailed st) = results st
  ∧ status (startEnrichment (Streamed chunks ReadFailure) st) = Completed
  ∧ results (startEnrichment (Streamed chunks ReadFailure) st)
    = results (startEnrichment (Streamed chunks EndOfStream) st)
  ∧ status (startEnrichment (Streamed chunks EndOfStream) st)
    = default Processing (last (omap lineTerminalStatus (concat chunks))).
Proof.
  unfold startEnrichment. repeat split; try done.
  by rewrite readLoop_concat, handleLines_status_spec.
Qed.

(** *** The message log, continued *)

(** X4. An [agent_progress] event leaves a log of at most 500 entries
    whatever its length was before, with the new progress message last;
    the entries kept are the newest ones, in their order: the log is the
    end of the old log followed by the new message. *)
Theorem progress_restores_cap (now : Z) (rnd : string)
    (message messageType : string) (rowIndex : option Z)
    (sourceUrl : option string) (st : State) :
  let st' :=
    handleEvent now rnd (EvAgentProgress message messageType rowIndex sourceUrl) st in
  let msg := progressMessage now rnd message messageType rowIndex sourceUrl in
  (length (agentMessages st') ≤ 500)%nat
  ∧ length (agentMessages st') = (S (length (agentMessages st)) `min` 500)%nat
  ∧ last (agentMessages st') = Some msg
  ∧ agentMessages st' `suffix_of` agentMessages st ++ [msg]
  ∧ results st' = results st ∧ status st' = status st.
Proof.
  simpl. unfold onAgentProgress.
  destruct (onAgentProgress_cap
              (progressMessage now rnd message messageType rowIndex sourceUrl)
              (agentMessages st)) as (Hle & Heq & _).
  unfold onAgentProgress in Hle, Heq.
  repeat split; try done.
  - rewrite slice_last_length, length_app. simpl. lia.
  - rewrite Heq. apply last_snoc.
  - apply slice_last_suffix.
Qed.

(** *** The conversational query, continued *)

Lemma chatReadLoop_concat (chunks : list (list (Line ChatEvent))) (st : State) :
  chatReadLoop chunks st
  = foldl (fun s ln => handleChatLine ln s) st (concat chunks).
Proof.
  unfold chatReadLoop. revert st.
  induction chunks as [|lns chunks IH]; intros st; [done|].
  simpl. rewrite foldl_app. apply IH.
Qed.

(** What a run of frames of the query stream leaves alone, and what it
    appends. *)
Lemma chatLines_effect (lns : list (Line ChatEvent)) (st : State) :
  let st' := foldl (fun s ln => handleChatLine ln s) st lns in
  results st' = results st ∧ status st' = status st
  ∧ sessionId st' = sessionId st ∧ currentRow st' = currentRow st
  ∧ rowDataArrivalTime st' = rowDataArrivalTime st
  ∧ cellsShown st' = cellsShown st ∧ timers st' = timers st
  ∧ chatQueryId st' = chatQueryId st
  ∧ isChatProcessing st' = isChatProcessing st
  ∧ ∃ added, agentMessages st' = agentMessages st ++ added
             ∧ map typeAndText added = omap chatLineMessage lns.
Proof.
  revert st. induction lns as [|ln lns IH]; intros st.
  - simpl. repeat split; try done. exists []. by rewrite app_nil_r.
  - cbv zeta. simpl foldl.
    destruct (IH (handleChatLine ln st))
      as (-> & -> & -> & -> & -> & -> & -> & -> & -> & added & -> & Hadded).
    destruct ln as [| |now rnd e]; simpl.
    + repeat split; try done. by exists added.
    + repeat split; try done. by exists added.
    + destruct e; simpl; repeat split; try done.
      * eexists (_ :: added). rewrite <- app_assoc. split; [done|].
        simpl. f_equal. exact Hadded.
      * eexists (_ :: added). rewrite <- app_assoc. split; [done|].
        simpl. f_equal. exact Hadded.
      * eexists (_ :: added). rewrite <- app_assoc. split; [done|].
        simpl. f_equal. exact Hadded.
      * by exists added.
Qed.

(** The frames of a query stream, in order. *)
Definition chatFrames (outcome : FetchOutcome ChatEvent) : list (Line ChatEvent) :=
  match outcome with
  | FetchFailed => []
  | Streamed chunks _ => concat chunks
  end.

(** Whether the [catch] block of [handleChatMessage] runs. *)
Definition chatFails (outcome : FetchOutcome ChatEvent) : bool :=
  match outcome with
  | FetchFailed | Streamed _ ReadFailure => true
  | Streamed _ EndOfStream => false
  end.

(** X5. A conversational query only reads the enrichment data: whatever
    its stream delivers and however it ends, the result store, the
    session's status, session id and current row, the arrival times and
    the reveal marks are what they were; and when it is over the
    processing flag is cleared and no query id is left, also after a
    failure. *)
Theorem query_leaves_enrichment_alone (now : Z) (queryId message : string)
    (outcome : FetchOutcome ChatEvent) (endTime : Z) (st : State) :
  let st' := snd (handleChatMessage now queryId message outcome endTime st) in
  results st' = results st ∧ status st' = status st
  ∧ sessionId st' = sessionId st ∧ currentRow st' = currentRow st
  ∧ rowDataArrivalTime st' = rowDataArrivalTime st
  ∧ cellsShown st' = cellsShown st ∧ timers st' = timers st
  ∧ isChatProcessing st' = false ∧ chatQueryId st' = None.
Proof.
  destruct outcome as [|chunks fin]; [simpl; repeat split; done|].
  cbv zeta. unfold handleChatMessage. simpl snd.
  destruct (chatLines_effect (concat chunks) (chatBegin now queryId message st))
    as (Hr & Hs & Hi & Hc & Ha & Hcs & Ht & _).
  rewrite <- chatReadLoop_concat in Hr, Hs, Hi, Hc, Ha, Hcs, Ht.
  destruct fin; simpl; rewrite ?Hr, ?Hs, ?Hi, ?Hc, ?Ha, ?Hcs, ?Ht;
    repeat split; done.
Qed.

(** X6. What a conversational query adds to the log: the log it found,
    then the user's message, then one message per frame of its stream in
    the order of the frames (info for a status frame, assistant for a
    response, warning for an error; lines without a parsable event give
    none), then, exactly when the request or a read failed, the one
    warning that the question could not be processed. Nothing is removed
    or reordered. *)
Theorem query_appends_to_log (now : Z) (queryId message : string)
    (outcome : FetchOutcome ChatEvent) (endTime : Z) (st : State) :
  let st' := snd (handleChatMessage now queryId message outcome endTime st) in
  ∃ added,
    agentMessages st' = agentMessages st ++ userMessage now message :: added
    ∧ map typeAndText added
      = omap chatLineMessage (chatFrames outcome)
        ++ (if chatFails outcome
            then [("warning", "Failed to process your question. Please try again.")]
            else []).
Proof.
  cbv zeta. unfold handleChatMessage. simpl snd.
  destruct outcome as [|chunks fin].
  - simpl. eexists [_]. rewrite <- app_assoc. split; [done|]. done.
  - destruct (chatLines_effect (concat chunks) (chatBegin now queryId message st))
      as (_ & _ & _ & _ & _ & _ & _ & _ & _ & added & Hlog & Hadded).
    rewrite <- chatReadLoop_concat in Hlog. simpl in Hlog.
    destruct fin; simpl; rewrite Hlog.
    + exists added. rewrite <- app_assoc. split; [done|].
      by rewrite app_nil_r.
    + eexists (added ++ [_]). rewrite <- !app_assoc. split; [done|].
      rewrite map_app. simpl. by rewrite Hadded.
Qed.

(** What a run of lines of the enrichment stream leaves alone. *)
Lemma handleLines_chat_flags (lns : list (Line StreamEvent)) (st : State) :
  chatQueryId (handleLines lns st) = chatQueryId st
  ∧ isChatProcessing (handleLines lns st) = isChatProcessing st
  ∧ cellsShown (handleLines lns st) = cellsShown st.
Proof.
  revert st. induction lns as [|ln lns IH]; intros st; [done|].
  change (handleLines (ln :: lns) st) with (handleLines lns (handleLine ln st)).
  destruct (IH (handleLine ln st)) as (-> & -> & ->).
  destruct ln as [| |now rnd e]; simpl; try done. by destruct e.
Qed.

(** X7. An enrichment run never touches the state of a conversational
    query: whatever its stream delivers and however it ends, the in-flight
    query id and the query's processing flag are what they were, and no
    cell is marked shown by the run itself (only the reveal timers do
    that); the same holds for cancelling the run. *)
Theorem enrichment_leaves_query_alone (outcome : FetchOutcome StreamEvent)
    (requestSucceeds : bool) (st : State) :
  let st' := startEnrichment outcome st in
  let st'' := snd (cancelEnrichment requestSucceeds st) in
  chatQueryId st' = chatQueryId st
  ∧ isChatProcessing st' = isChatProcessing st
  ∧ cellsShown st' = cellsShown st
  ∧ chatQueryId st'' = chatQueryId st
  ∧ isChatProcessing st'' = isChatProcessing st
  ∧ agentMessages st'' = agentMessages st
  ∧ results st'' = results st.
Proof.
  cbv zeta.
  assert (Hc : ∀ s, chatQueryId (snd (cancelEnrichment requestSucceeds s)) = chatQueryId s
                    ∧ isChatProcessing (snd (cancelEnrichment requestSucceeds s)) = isChatProcessing s
                    ∧ agentMessages (snd (cancelEnrichment requestSucceeds s)) = agentMessages s
                    ∧ results (snd (cancelEnrichment requestSucceeds s)) = results s).
  { intros s. unfold cancelEnrichment. destruct (sessionId s) as [sid|]; [|done].
    by destruct (str_truthy sid). }
  destruct (Hc st) as (-> & -> & -> & ->).
  destruct outcome as [|chunks fin]; [repeat split; done|].
  unfold startEnrichment.
  destruct (handleLines_chat_flags (concat chunks) (setStatus Processing st))
    as (H1 & H2 & H3).
  rewrite <- readLoop_concat in H1, H2, H3.
  destruct fin; simpl; rewrite ?H1, ?H2, ?H3; repeat split; done.
Qed.

(** *** Reveal timing, continued *)

(** X8. The hold-back test of the render, [!shouldShowData &&
    shouldAnimate], for the field at position [i] of a row with a
    recorded arrival time: it holds exactly when the cell is not marked
    shown and the time elapsed since the row's arrival has not exceeded
    the number the cell's delay stands for; an elapsed time equal to the
    delay still holds the cell back, since the test is a strict
    comparison, and the window of 2500 never cuts the hold-back short.
    With at most six fields the delay is 300 per position: the test holds
    up to and including [arrival + 300 * i]. *)
Theorem cell_held_back_iff (st : State) (rowIndex arrival : Z) (i : nat)
    (f : EnrichmentField) (now : Z) :
  rowDataArrivalTime st !! rowIndex = Some arrival →
  arrival ≠ 0 →
  fields !! i = Some f →
  Z.of_nat (length fields) < 2 ^ 32 →
  ((cellAwaitsReveal st now rowIndex i (f_name f) = true) ↔
     (cellKey rowIndex (f_name f) ∉ cellsShown st)
     ∧ (inject_Z (now - arrival)
        <= Number_value (getCellAnimationDelay st rowIndex i))%Q)
  ∧ ((length fields ≤ 6)%nat →
     ((cellAwaitsReveal st now rowIndex i (f_name f) = true) ↔
        (cellKey rowIndex (f_name f) ∉ cellsShown st)
        ∧ now <= arrival + 300 * Z.of_nat i)).
Proof.
  intros Ha Hne Hf Hlen.
  assert (Hi : (i < length fields)%nat) by (by eapply lookup_lt_Some).
  assert (Hn : Z.of_nat (length fields) < 2 ^ 53) by lia.
  pose proof (hold_back_test st rowIndex arrival i (f_name f) now Ha Hne Hi Hn)
    as Hmain.
  split; [exact Hmain|].
  intros H6. rewrite Hmain.
  rewrite (delay_is_doubleDelay st rowIndex arrival i Ha Hne).
  rewrite doubleDelay_few by lia.
  rewrite Number_value_ofZ by lia. rewrite <- Zle_Qle.
  split; intros [H1 H2]; (split; [exact H1|lia]).
Qed.

(** *** Row expansion *)

(** X9. Toggling a row's expansion flips the membership of that row and
    of no other, so toggling the same row twice gives back the set of
    expanded rows. *)
Theorem toggle_twice (i : Z) (expanded : gset Z) :
  toggleRowExpansion i (toggleRowExpansion i expanded) = expanded
  ∧ (i ∈ toggleRowExpansion i expanded ↔ i ∉ expanded)
  ∧ (∀ j : Z, j ≠ i → j ∈ toggleRowExpansion i expanded ↔ j ∈ expanded).
Proof.
  unfold toggleRowExpansion.
  destruct (decide (i ∈ expanded)) as [Hin|Hout].
  - rewrite (bool_decide_eq_true_2 _ Hin).
    rewrite bool_decide_eq_false_2 by set_solver.
    split; [|split].
    + apply set_eq. intros j. destruct (decide (j = i)); set_solver.
    + set_solver.
    + intros j Hj. set_solver.
  - rewrite (bool_decide_eq_false_2 _ Hout).
    rewrite bool_decide_eq_true_2 by set_solver.
    split; [|split].
    + set_solver.
    + set_solver.
    + intros j Hj. set_solver.
Qed.

Lemma collapses_false (st : State) (i : Z) :
  collapses st i = false ↔
  i = currentRow st
  ∨ match results st !! i with
    | Some result => r_status result = RowProcessing
    | None => True
    end.
Proof.
  unfold collapses. destruct (results st !! i) as [r|]; [|naive_solver].
  destruct (Z.eqb_spec i (currentRow st)) as [->|Hne].
  - rewrite andb_false_r. naive_solver.
  - rewrite andb_true_r. destruct (r_status r); simpl; naive_solver.
Qed.

(** X10. The auto-collapse timer only removes rows from the expanded set:
    a row stays expanded exactly when it was expanded and it is the
    current row, or has no result yet, or has a result in status
    processing. Running it a second time on the same state changes
    nothing. While the run is processing, a current row that the
    auto-expand effect has just expanded is never collapsed. A row whose
    result arrives while it is the current row is not collapsible yet,
    and is after a [processing] event for another row. *)
Theorem auto_collapse_spares_current_row (st : State) (expanded : gset Z) :
  autoCollapse st expanded ⊆ expanded
  ∧ (∀ i : Z, i ∈ autoCollapse st expanded ↔
       i ∈ expanded
       ∧ (i = currentRow st
          ∨ match results st !! i with
            | Some result => r_status result = RowProcessing
            | None => True
            end))
  ∧ autoCollapse st (autoCollapse st expanded) = autoCollapse st expanded
  ∧ expanded ⊆ autoExpand st expanded
  ∧ (status st = Processing → 0 <= currentRow st →
     currentRow st ∈ autoCollapse st (autoExpand st expanded))
  ∧ (∀ now rnd now' rnd' result j,
       currentRow st = r_rowIndex result →
       r_status result ≠ RowProcessing → j ≠ r_rowIndex result →
       let arrived := handleEvent now rnd (EvResult result) st in
       collapses arrived (r_rowIndex result) = false
       ∧ collapses (handleEvent now' rnd' (EvProcessing j) arrived)
           (r_rowIndex result) = true).
Proof.
  assert (Helem : ∀ i : Z, i ∈ autoCollapse st expanded ↔
       i ∈ expanded
       ∧ (i = currentRow st
          ∨ match results st !! i with
            | Some result => r_status result = RowProcessing
            | None => True
            end)).
  { intros i. unfold autoCollapse. rewrite elem_of_filter, collapses_false.
    tauto. }
  split; [|split; [exact Helem|split; [|split; [|split]]]].
  - intros i Hi. by apply Helem in Hi as [? _].
  - apply set_eq. intros i. unfold autoCollapse. rewrite !elem_of_filter. tauto.
  - unfold autoExpand. destruct (status st); try done.
    destruct (0 <=? currentRow st); set_solver.
  - intros Hs Hc. unfold autoCollapse. apply elem_of_filter. split.
    + apply collapses_false. by left.
    + unfold autoExpand. rewrite Hs.
      destruct (Z.leb_spec 0 (currentRow st)); [set_solver|lia].
  - intros now rnd now' rnd' result j Hcur Hst Hj. cbv zeta. split.
    + apply collapses_false. left. simpl. done.
    + unfold collapses. simpl. unfold onProcessing.
      destruct (<[r_rowIndex result:=result]> (results st) !! j) as [rj|] eqn:Hrj.
      * rewrite lookup_insert_ne by done. rewrite lookup_insert_eq.
        destruct (Z.eqb_spec (r_rowIndex result) j); [congruence|].
        by destruct (r_status result).
      * rewrite lookup_insert_eq.
        destruct (Z.eqb_spec (r_rowIndex result) j); [congruence|].
        by destruct (r_status result).
Qed.

(** *** Exports *)

(** [Number.prototype.toString] and [toFixed(2)], and [String.prototype.split]
    with a separator, on the values they are applied to. *)
Variable Number_toString : JsNumber → string.
Variable toFixed2 : JsNumber → string.
Variable String_split : string → string → list string.

(** [String(v)]; inside [Array.prototype.join] an element that is [null]
    or [undefined] prints as the empty string. *)
Fixpoint JS_String (v : JsValue) : string :=
  match v with
  | JsUndefined => "undefined"
  | JsNull => "null"
  | JsBool true => "true"
  | JsBool false => "false"
  | JsNum n => Number_toString n
  | JsStr s => s
  | JsArr items =>
      join "," (map (fun item =>
                       match item with
                       | JsUndefined | JsNull => ""
                       | _ => JS_String item
                       end) items)
  | JsObj _ => "[object Object]"
  end.

(** [items.join(sep)] on an array of values. *)
Definition joinValues (sep : string) (items : list JsValue) : string :=
  join sep (map (fun item =>
                   match item with
                   | JsUndefined | JsNull => ""
                   | _ => JS_String item
                   end) items).

(** [s.includes(c)] for a one-character [c]. *)
Fixpoint includesChar (c : ascii) (s : string) : bool :=
  match s with
  | EmptyString => false
  | String a rest => Ascii.eqb a c || includesChar c rest
  end.

Definition quoteChar : ascii := ascii_of_nat 34.
Definition commaChar : ascii := ascii_of_nat 44.
Definition lfChar : ascii := ascii_of_nat 10.

(** [s.replace] with the global pattern of one double quote and two double
    quotes as replacement: every double quote is written twice. *)
Fixpoint doubleQuotes (s : string) : string :=
  match s with
  | EmptyString => EmptyString
  | String a rest =>
      if Ascii.eqb a quoteChar
      then String quoteChar (String quoteChar (doubleQuotes rest))
      else String a (doubleQuotes rest)
  end.

(** A string put between double quotes by a template literal. *)
Definition inQuotes (s : string) : string :=
  String quoteChar (s +:+ String quoteChar EmptyString).

(** The test of the quoted branch: the value includes a comma, a double
    quote or a line feed. *)
Definition needsQuoting (value : string) : bool :=
  includesChar commaChar value || includesChar quoteChar value
  || includesChar lfChar value.

(** The cell both CSV exports write for a string value. *)
Definition csvString (value : string) : string :=
  if needsQuoting value then inQuotes (doubleQuotes value) else value.

(** The value cell of [downloadCSV], by the four branches of its test. *)
Definition csvValueCell (value : JsValue) : string :=
  match value with
  | JsUndefined | JsNull => ""
  | JsArr items => inQuotes (joinValues "; " items)
  | JsStr s => csvString s
  | _ => JS_String value
  end.

(** [result?.enrichments[field.name]], for the CSV export: an own
    property. A member inherited from [Object.prototype] has none of the
    properties the export reads ([value], [confidence], [sourceContext],
    [source]) and gives the same three cells as no enrichment. *)
Definition enrichmentOf (result : option RowEnrichmentResult)
    (field : EnrichmentField) : option FieldEnrichment :=
  result ≫= fun r => obj_get (r_enrichments r) (f_name field).

Definition csvConfidenceCell (enrichment : option FieldEnrichment) : string :=
  match enrichment ≫= fe_confidence with
  | Some c => if number_truthy c then toFixed2 c else ""
  | None => ""
  end.

Definition csvSourceCell (enrichment : option FieldEnrichment) : string :=
  match enrichment with
  | None => ""
  | Some e =>
      match fe_sourceContext e with
      | Some (s :: ss) => inQuotes (join "; " (map sc_url (s :: ss)))
      | _ =>
          match fe_source e with
          | Some src => if str_truthy src then inQuotes src else ""
          | None => ""
          end
      end
  end.

(** [email || ""] *)
Definition orEmpty (o : option string) : string :=
  match o with
  | Some s => s
  | None => ""
  end.

(** The header cells of [downloadCSV], before they are quoted. *)
Definition csvHeaders : list string :=
  (match emailColumn with
   | Some c => if str_truthy c then c else "email"
   | None => "email"
   end)
  :: map f_displayName fields
  ++ map (fun f => f_displayName f +:+ "_confidence") fields
  ++ map (fun f => f_displayName f +:+ "_source") fields.

(** The cells [values] of one row of [downloadCSV]. *)
Definition csvRowCells (results : gmap Z RowEnrichmentResult)
    (index : nat) (row : CSVRow) : list string :=
  let result := results !! Z.of_nat index in
  inQuotes (orEmpty (emailOf row))
  :: map (fun field =>
            csvValueCell (default JsUndefined
                            (fe_value <$> enrichmentOf result field))) fields
  ++ map (fun field => csvConfidenceCell (enrichmentOf result field)) fields
  ++ map (fun field => csvSourceCell (enrichmentOf result field)) fields.

(** The records [csvRows] of [downloadCSV], each a list of cells; the file
    is their cells joined by commas, the records joined by line feeds. *)
Definition csvRecords (results : gmap Z RowEnrichmentResult)
  : list (list string) :=
  map inQuotes csvHeaders :: imap (csvRowCells results) rows.

Definition downloadCSV (results : gmap Z RowEnrichmentResult) : string :=
  join LF (map (join ",") (csvRecords results)).

(** [result?.status === "skipped"] *)
Definition isSkipped (results : gmap Z RowEnrichmentResult) (index : nat) : bool :=
  match results !! Z.of_nat index with
  | Some result =>
      match r_status result with
      | RowSkipped => true
      | _ => false
      end
  | None => false
  end.

(** [rows.filter(...)] of [downloadSkippedEmails], each row with its
    index: the rows are distinct objects, so [rows.findIndex(r => r === row)]
    gives a row's own index back. *)
Definition skippedRows (results : gmap Z RowEnrichmentResult)
  : list (nat * CSVRow) :=
  List.filter (fun ir => isSkipped results (fst ir)) (imap pair rows).

(** [value || ""], after the quoting of a string that needs it. *)
Definition skippedCell (row : CSVRow) (header : string) : string :=
  match obj_get row header with
  | Some value => csvString value
  | None => ""
  end.

(** [result?.error || "Personal email provider"] *)
Definition skipReason (result : option RowEnrichmentResult) : string :=
  match result ≫= r_error with
  | Some e => if str_truthy e then e else "Personal email provider"
  | None => "Personal email provider"
  end.

(** The cells [values] of one skipped row: one per header, then the skip
    reason. *)
Definition skippedCells (results : gmap Z RowEnrichmentResult)
    (headers : list string) (ir : nat * CSVRow) : list string :=
  map (skippedCell (snd ir)) headers
  ++ [skipReason (results !! Z.of_nat (fst ir))].

(** The lines of the file [downloadSkippedEmails] offers; nothing when no
    row is skipped. *)
Definition skippedCsvRows (results : gmap Z RowEnrichmentResult)
  : option (list string) :=
  match skippedRows results with
  | [] => None
  | (_, first) :: _ =>
      let headers := map fst first in
      Some ((join "," headers +:+ ",Skip Reason")
            :: map (fun ir => join "," (skippedCells results headers ir))
                   (skippedRows results))
  end.

(** What [downloadJSON] stores under a field's name. *)
Record ExportedField : Type := mkExportedField {
  x_value : JsValue;
  x_confidence : option JsNumber;
  x_sources : list string
}.

(** The values of the properties of an element of [data]. *)
Inductive ExportedValue : Type :=
  | XIndex (index : nat)
  | XEmail (email : option string)
  | XOriginal (row : CSVRow)
  | XStatus (status : string)
  | XField (field : ExportedField).

(** [enrichment.sourceContext?.map(s => s.url) ||
     (enrichment.source ? enrichment.source.split(", ") : [])]:
    an array, even an empty one, is truthy. *)
Definition exportedSources (e : FieldEnrichment) : list string :=
  match fe_sourceContext e with
  | Some ctx => map sc_url ctx
  | None =>
      match fe_source e with
      | Some src => if str_truthy src then String_split ", " src else []
      | None => []
      end
  end.

Definition exportedField (e : FieldEnrichment) : ExportedField :=
  {| x_value := fe_value e; x_confidence := fe_confidence e;
     x_sources := exportedSources e |}.

(** What is stored for a member inherited from [Object.prototype], which
    is truthy and has none of the properties read: [value] and
    [confidence] are [undefined], and [sources] is the empty array. *)
Definition inheritedField : ExportedField :=
  {| x_value := JsUndefined; x_confidence := None; x_sources := [] |}.

(** [const enrichment = result.enrichments[field.name]; if (enrichment)]
    and the object then stored; an own property of [enrichments] is an
    object, hence truthy. *)
Definition exportedEnrichment (enrichments : list (string * FieldEnrichment))
    (name : string) : option ExportedValue :=
  match obj_read enrichments name with
  | OwnProperty e => Some (XField (exportedField e))
  | InheritedMember => Some (XField inheritedField)
  | NoProperty => None
  end.

(** The object [enrichedRow] of [downloadJSON], as its list of properties:
    the four fixed ones, then one per requested field whose name the
    row's [enrichments] answer with an enrichment or an inherited
    member. *)
Definition exportedRow (results : gmap Z RowEnrichmentResult)
    (index : nat) (row : CSVRow) : list (string * ExportedValue) :=
  let result := results !! Z.of_nat index in
  let enrichedRow :=
    [ ("_index", XIndex index); ("_email", XEmail (emailOf row));
      ("_original", XOriginal row);
      ("_status", XStatus match result with
                          | Some _ => "enriched"
                          | None => "pending"
                          end) ] in
  match result with
  | None => enrichedRow
  | Some r =>
      foldl (fun acc field =>
               match exportedEnrichment (r_enrichments r) (f_name field) with
               | Some x => obj_set acc (f_name field) x
               | None => acc
               end) enrichedRow fields
  end.

(** [data] of [downloadJSON]. *)
Definition jsonData (results : gmap Z RowEnrichmentResult)
  : list (list (string * ExportedValue)) :=
  imap (exportedRow results) rows.

(** Reading a CSV cell back: a cell that opens with a double quote runs to
    its closing quote, two double quotes inside standing for one; any other
    cell is taken as it is and holds no comma, double quote or line feed. *)
Fixpoint unquoteBody (s : string) : option string :=
  match s with
  | EmptyString => None
  | String a rest =>
      if Ascii.eqb a quoteChar then
        match rest with
        | EmptyString => Some EmptyString
        | String b rest' =>
            if Ascii.eqb b quoteChar
            then String quoteChar <$> unquoteBody rest'
            else None
        end
      else String a <$> unquoteBody rest
  end.

Definition csvRead (cell : string) : option string :=
  match cell with
  | EmptyString => Some EmptyString
  | String a rest =>
      if Ascii.eqb a quoteChar then unquoteBody rest
      else if needsQuoting cell then None else Some cell
  end.

Fixpoint countChar (c : ascii) (s : string) : nat :=
  match s with
  | EmptyString => 0
  | String a rest => (if Ascii.eqb a c then 1 else 0) + countChar c rest
  end.

Lemma unquoteBody_doubleQuotes (s : string) :
  unquoteBody (doubleQuotes s +:+ String quoteChar EmptyString) = Some s.
Proof.
  induction s as [|a s IH]; [done|].
  simpl. destruct (Ascii.eqb_spec a quoteChar) as [->|Hne].
  - simpl. by rewrite IH.
  - simpl. destruct (Ascii.eqb_spec a quoteChar); [done|]. by rewrite IH.
Qed.

Lemma unquoteBody_plain (s : string) :
  includesChar quoteChar s = false →
  unquoteBody (s +:+ String quoteChar EmptyString) = Some s.
Proof.
  induction s as [|a s IH]; [done|].
  simpl. destruct (Ascii.eqb_spec a quoteChar); [done|].
  simpl. intros H. by rewrite IH.
Qed.

Lemma strlen_app (s t : string) :
  String.length (s +:+ t) = (String.length s + String.length t)%nat.
Proof. induction s as [|a s IH]; simpl; [done|]. by rewrite IH. Qed.

Lemma unquoteBody_length (n : nat) (t r : string) :
  (String.length t ≤ n)%nat → unquoteBody t = Some r →
  String.length t = (String.length r + countChar quoteChar r + 1)%nat.
Proof.
  revert t r. induction n as [|n IH]; intros t r Hn Hr.
  - destruct t; [done|]. simpl in Hn. lia.
  - destruct t as [|a rest]; [done|].
    simpl in Hr, Hn. destruct (Ascii.eqb_spec a quoteChar) as [->|Hne].
    + destruct rest as [|b rest'].
      * by injection Hr as <-.
      * destruct (Ascii.eqb_spec b quoteChar) as [->|]; [|done].
        destruct (unquoteBody rest') as [r'|] eqn:Hr'; [|done].
        injection Hr as <-. simpl in Hn.
        assert (E := IH rest' r' ltac:(lia) Hr').
        simpl. rewrite E. lia.
    + destruct (unquoteBody rest) as [r'|] eqn:Hr'; [|done].
      injection Hr as <-.
      assert (E := IH rest r' ltac:(lia) Hr').
      simpl. rewrite E.
      destruct (Ascii.eqb_spec a quoteChar); [done|]. lia.
Qed.

Lemma countChar_zero (c : ascii) (s : string) :
  countChar c s = 0%nat → includesChar c s = false.
Proof.
  induction s as [|a s IH]; [done|].
  simpl. destruct (Ascii.eqb a c); simpl; [lia|exact IH].
Qed.

Lemma needsQuoting_first (a : ascii) (s : string) :
  needsQuoting (String a s) = false → Ascii.eqb a quoteChar = false.
Proof.
  unfold needsQuoting. simpl. intros H.
  apply orb_false_iff in H as [H _]. apply orb_false_iff in H as [_ H].
  by apply orb_false_iff in H as [H _].
Qed.


Lemma csvRowCells_length (results : gmap Z RowEnrichmentResult)
    (index : nat) (row : CSVRow) :
  length (csvRowCells results index row) = (1 + 3 * length fields)%nat.
Proof.
  unfold csvRowCells. simpl. rewrite !length_app, !length_map. lia.
Qed.

(** X12. The CSV export has one record per input row after the header
    record, in row order, and every record has as many cells as the
    header: one for the e-mail address and three per requested field. A
    row that has no result yet, or only its pending placeholder, is
    exported all the same, with every cell after the e-mail address
    empty. *)
Theorem csv_records_align (results : gmap Z RowEnrichmentResult) :
  length (csvRecords results) = S (length rows)
  ∧ Forall (fun record => length record = (1 + 3 * length fields)%nat)
      (csvRecords results)
  ∧ (∀ (i : nat) (row : CSVRow),
       rows !! i = Some row →
       csvRecords results !! S i = Some (csvRowCells results i row)
       ∧ (default [] (r_enrichments <$> results !! Z.of_nat i) = [] →
          csvRowCells results i row
          = inQuotes (orEmpty (emailOf row))
            :: replicate (3 * length fields) "")).
Proof.
  unfold csvRecords. split; [|split].
  - simpl. by rewrite length_imap.
  - apply Forall_cons. split.
    + unfold csvHeaders. simpl. rewrite !length_map. simpl.
      rewrite !length_app, !length_map. lia.
    + apply Forall_forall. intros record Hin.
      apply list_elem_of_lookup in Hin as [i Hi].
      rewrite list_lookup_imap in Hi.
      destruct (rows !! i) as [row|]; [|done].
      injection Hi as <-. apply csvRowCells_length.
  - intros i row Hrow. split.
    + simpl. by rewrite list_lookup_imap, Hrow.
    + intros Hempty. unfold csvRowCells. f_equal.
      assert (Hnone : ∀ field, enrichmentOf (results !! Z.of_nat i) field = None).
      { intros field. unfold enrichmentOf.
        destruct (results !! Z.of_nat i) as [r|]; [|done].
        simpl in *. by rewrite Hempty. }
      replace (3 * length fields)%nat
        with (length fields + (length fields + length fields))%nat by lia.
      rewrite !replicate_add. f_equal; [|f_equal].
      * induction fields as [|f fs IH]; [done|].
        simpl. rewrite Hnone. simpl. by f_equal.
      * induction fields as [|f fs IH]; [done|].
        simpl. rewrite Hnone. simpl. by f_equal.
      * induction fields as [|f fs IH]; [done|].
        simpl. rewrite Hnone. simpl. by f_equal.
Qed.

Lemma skippedRows_elem (results : gmap Z RowEnrichmentResult)
    (i : nat) (row : CSVRow) :
  (i, row) ∈ skippedRows results ↔
  rows !! i = Some row ∧ isSkipped results i = true.
Proof.
  unfold skippedRows. rewrite list_elem_of_In, filter_In, <- list_elem_of_In.
  rewrite elem_of_lookup_imap. simpl. split.
  - intros [(j & x & Heq & Hj) Hs]. injection Heq as -> ->. done.
  - intros [Hrow Hs]. split; [|done]. by exists i, row.
Qed.

Lemma filter_imap_pair (P : nat → bool) (l : list CSVRow) (k : nat) :
  map fst (List.filter (fun ir => P (fst ir)) (imap (fun i x => ((k + i)%nat, x)) l))
  = List.filter P (seq k (length l)).
Proof.
  revert k. induction l as [|x l IH]; intros k; [done|].
  rewrite imap_cons. simpl. rewrite Nat.add_0_r.
  rewrite (imap_ext _ (fun i x => ((S k + i)%nat, x))).
  2:{ intros i y _. simpl. f_equal. lia. }
  destruct (P k); simpl; [f_equal|]; exact (IH (S k)).
Qed.

Lemma str_app_assoc (a b c : string) : (a +:+ b) +:+ c = a +:+ (b +:+ c).
Proof.
  induction a as [|x a IH]; [done|].
  change (String x ((a +:+ b) +:+ c) = String x (a +:+ (b +:+ c))).
  by rewrite IH.
Qed.

Lemma join_snoc (sep : string) (xs : list string) (x : string) :
  xs ≠ [] → join sep (xs ++ [x]) = join sep xs +:+ sep +:+ x.
Proof.
  induction xs as [|y ys IH]; [done|]. intros _.
  destruct ys as [|z zs]; [done|].
  change (join sep ((y :: z :: zs) ++ [x]))
    with (y +:+ sep +:+ join sep ((z :: zs) ++ [x])).
  rewrite IH by done.
  change (join sep (y :: z :: zs)) with (y +:+ sep +:+ join sep (z :: zs)).
  by rewrite !str_app_assoc.
Qed.

(** X13. The export of skipped e-mails offers no file when no row is
    skipped; otherwise it has a header line and one line per skipped row,
    for exactly the rows whose stored result has status skipped, in row
    order. Every line has one cell per column of the first skipped row
    plus the skip reason, and, when that row has at least one column, so
    has the header line. *)
Theorem skipped_export_lists_skipped_rows
    (results : gmap Z RowEnrichmentResult) :
  ((skippedCsvRows results = None) ↔
     ∀ i row, rows !! i = Some row → isSkipped results i = false)
  ∧ (∀ i row, (i, row) ∈ skippedRows results ↔
       rows !! i = Some row
       ∧ ∃ result, results !! Z.of_nat i = Some result
                   ∧ r_status result = RowSkipped)
  ∧ map fst (skippedRows results)
    = List.filter (isSkipped results) (seq 0 (length rows))
  ∧ (∀ lines, skippedCsvRows results = Some lines →
       length lines = S (length (skippedRows results))
       ∧ ∃ i first,
           head (skippedRows results) = Some (i, first)
           ∧ tail lines
             = map (fun ir => join "," (skippedCells results (map fst first) ir))
                   (skippedRows results)
           ∧ Forall (fun ir =>
                       length (skippedCells results (map fst first) ir)
                       = S (length first))
               (skippedRows results)
           ∧ (first ≠ [] →
              head lines
              = Some (join "," (map fst first ++ ["Skip Reason"])))).
Proof.
  split; [|split; [|split]].
  - unfold skippedCsvRows. split.
    + intros Hnone i row Hrow.
      destruct (isSkipped results i) eqn:Hs; [|done].
      assert (Hin : (i, row) ∈ skippedRows results)
        by (by apply skippedRows_elem).
      destruct (skippedRows results) as [|[j first] rest]; [|done].
      by apply elem_of_nil in Hin.
    + intros Hall.
      destruct (skippedRows results) as [|[j first] rest] eqn:Hsk; [done|].
      assert (Hin : (j, first) ∈ skippedRows results) by (rewrite Hsk; left).
      apply skippedRows_elem in Hin as [Hrow Hs].
      rewrite (Hall j first Hrow) in Hs. done.
  - intros i row. rewrite skippedRows_elem. unfold isSkipped.
    split.
    + intros [Hrow Hs]. split; [done|].
      destruct (results !! Z.of_nat i) as [r|]; [|done].
      exists r. split; [done|]. by destruct (r_status r).
    + intros [Hrow (r & Hr & Hst)]. split; [done|]. by rewrite Hr, Hst.
  - apply (filter_imap_pair (isSkipped results) rows 0).
  - intros lines Hlines. unfold skippedCsvRows in Hlines.
    destruct (skippedRows results) as [|[i first] rest] eqn:Hsk; [done|].
    injection Hlines as <-. split.
    + simpl. by rewrite length_map.
    + exists i, first. split; [done|]. split; [done|]. split.
      * apply Forall_forall. intros ir _. unfold skippedCells.
        rewrite length_app, !length_map. simpl. lia.
      * intros Hne. simpl. f_equal.
        rewrite join_snoc; [done|]. by destruct first.
Qed.

Lemma obj_get_cons {A} (k0 : string) (v0 : A) (o : list (string * A))
    (k : string) :
  obj_get ((k0, v0) :: o) k = if String.eqb k0 k then Some v0 else obj_get o k.
Proof. unfold obj_get. simpl. by destruct (String.eqb k0 k). Qed.

Lemma obj_get_absent {A} (o : list (string * A)) (k : string) :
  k ∉ o.*1 → obj_get o k = None.
Proof.
  induction o as [|[k0 v0] o IH]; intros Hk; [done|].
  rewrite obj_get_cons. simpl in Hk. apply not_elem_of_cons in Hk as [Hne Hk].
  destruct (String.eqb_spec k0 k); [congruence|]. by apply IH.
Qed.

Lemma obj_get_put {A} (o : list (string * A)) (k k' : string) (v : A) :
  obj_get (obj_put o k v) k'
  = if String.eqb k k' then Some v else obj_get o k'.
Proof.
  unfold obj_get. induction o as [|[k0 v0] o IH]; simpl.
  - by destruct (String.eqb k k').
  - destruct (String.eqb_spec k0 k) as [->|Hne]; simpl.
    + by destruct (String.eqb k k').
    + destruct (String.eqb_spec k0 k') as [->|Hne']; simpl.
      * destruct (String.eqb_spec k k'); [congruence|done].
      * exact IH.
Qed.

Lemma obj_get_set {A} (o : list (string * A)) (k k' : string) (v : A) :
  obj_get (obj_set o k v) k'
  = if String.eqb k "__proto__" then obj_get o k'
    else if String.eqb k k' then Some v else obj_get o k'.
Proof.
  unfold obj_set. destruct (String.eqb k "__proto__"); [done|].
  apply obj_get_put.
Qed.

Lemma exported_fields_lookup (stored : string → option ExportedValue)
    (fs : list EnrichmentField) (acc : list (string * ExportedValue))
    (k : string) :
  obj_get
    (foldl (fun acc field =>
              match stored (f_name field) with
              | Some x => obj_set acc (f_name field) x
              | None => acc
              end) acc fs) k
  = match stored k with
    | Some x =>
        if bool_decide (k ∈ map f_name fs) && negb (String.eqb k "__proto__")
        then Some x else obj_get acc k
    | None => obj_get acc k
    end.
Proof.
  revert acc. induction fs as [|f fs IH]; intros acc.
  - simpl. by destruct (stored k).
  - simpl. rewrite IH. clear IH.
    destruct (stored k) as [x|] eqn:Hk.
    + destruct (decide (k ∈ map f_name fs)) as [Hin|Hout].
      * rewrite (bool_decide_eq_true_2 _ Hin).
        rewrite bool_decide_eq_true_2 by (by right).
        simpl. destruct (String.eqb_spec k "__proto__") as [->|_]; [|done].
        simpl. destruct (stored (f_name f)); [|done].
        rewrite obj_get_set.
        by destruct (String.eqb (f_name f) "__proto__").
      * rewrite (bool_decide_eq_false_2 _ Hout). simpl.
        destruct (String.eqb_spec (f_name f) k) as [Heq|Hne].
        -- subst k. rewrite Hk, obj_get_set.
           rewrite bool_decide_eq_true_2 by left. simpl.
           rewrite String.eqb_refl.
           by destruct (String.eqb (f_name f) "__proto__").
        -- rewrite bool_decide_eq_false_2.
           2:{ intros Hin. apply elem_of_cons in Hin as [Heq|Hin]; [congruence|done]. }
           simpl.
           destruct (stored (f_name f)); [|done].
           rewrite obj_get_set.
           destruct (String.eqb (f_name f) "__proto__"); [done|].
           by destruct (String.eqb_spec (f_name f) k).
    + destruct (stored (f_name f)) as [x|] eqn:Hf; [|done].
      rewrite obj_get_set.
      destruct (String.eqb (f_name f) "__proto__"); [done|].
      destruct (String.eqb_spec (f_name f) k) as [Heq|]; [|done].
      subst k. congruence.
Qed.


End EnrichmentTable.

(** ** Worked scenarios

    Five rows and two requested fields; the stream queues every row,
    then delivers the results of the first two and ends. *)

Definition sampleRows : list CSVRow :=
  [ [("email", "ada@acme.io")]; [("email", "bob@gmail.com")];
    [("email", "cy@corp.com")]; [("email", "di@dune.org")];
    [("email", "ed@east.net")] ].

Definition sampleFields : list EnrichmentField :=
  [ mkField "company" "Company" "string";
    mkField "industry" "Industry" "string" ].

Definition fourFields : list EnrichmentField :=
  [ mkField "company" "Company" "string";
    mkField "industry" "Industry" "string";
    mkField "employees" "Employees" "string";
    mkField "remote" "Remote" "boolean" ].

Definition plainValue (v : JsValue) : FieldEnrichment :=
  {| fe_value := v; fe_confidence := None; fe_source := None;
     fe_sourceContext := None; fe_corroboration := None |}.

Definition quote : string := String (ascii_of_nat 34) "".

(** [JSON.stringify] on the values of the scenarios: strings that need no
    escape, booleans, [null] and integers. *)
Definition stringifySample (v : JsValue) : string :=
  match v with
  | JsStr s => quote +:+ s +:+ quote
  | JsBool true => "true"
  | JsBool false => "false"
  | JsNum (Finite q) => pretty (Qnum q)
  | _ => "null"
  end.

Definition resultRow0 : RowEnrichmentResult :=
  {| r_rowIndex := 0; r_originalData := Some [("email", "ada@acme.io")];
     r_enrichments := [("company", plainValue (JsStr "Acme"))];
     r_status := RowCompleted; r_error := None |}.

Definition resultRow1 : RowEnrichmentResult :=
  {| r_rowIndex := 1; r_originalData := Some [("email", "bob@gmail.com")];
     r_enrichments := [];
     r_status := RowSkipped; r_error := Some "Personal email provider" |}.

(** A completed row none of whose values is truthy. *)
Definition resultRow2 : RowEnrichmentResult :=
  {| r_rowIndex := 2; r_originalData := Some [("email", "cy@corp.com")];
     r_enrichments :=
       [("company", plainValue (JsStr ""));
        ("industry", plainValue JsNull);
        ("employees", plainValue (JsNum (Finite 0)));
        ("remote", plainValue (JsBool false))];
     r_status := RowCompleted; r_error := None |}.

Definition queueAll : list (Line StreamEvent) :=
  [ Data 1000 "0.11" (EvPending 0); Data 1001 "0.12" (EvPending 1);
    Data 1002 "0.13" (EvPending 2); Data 1003 "0.14" (EvPending 3);
    Data 1004 "0.15" (EvPending 4) ].

(** The stream of the scenario: no terminal event in it. *)
Definition sampleChunks : list (list (Line StreamEvent)) :=
  [ [Data 999 "0.10" (EvSession "session-1")];
    queueAll;
    [ Data 1100 "0.21" (EvProcessing 0); NoData;
      Data 2000 "0.22" (EvResult resultRow0); BadJson ];
    [ Data 2100 "0.23" (EvResult resultRow1) ] ].

(** The state when the stream has ended: two of five rows have a
    non-pending result, the other three their pending placeholder. *)
Definition twoOfFive : State :=
  startEnrichment sampleRows (Streamed sampleChunks EndOfStream)
    initial.

(** The same with the third row's result delivered as well. *)
Definition threeOfFive : State :=
  handleLine sampleRows (Data 2200 "0.24" (EvResult resultRow2))
    twoOfFive.

(** A log filled to its cap by progress messages. *)
Definition fullLog : State :=
  handleLines sampleRows
    (repeat (Data 1500 "0.5" (EvAgentProgress "Searching" "info" (Some 0) None)) 620)
    initial.

Example twoOfFive_store :
  results twoOfFive !! 0 = Some resultRow0
  ∧ results twoOfFive !! 1 = Some resultRow1
  ∧ results twoOfFive !! 2 = Some (pendingResult sampleRows 2)
  ∧ sessionId twoOfFive = Some "session-1"
  ∧ currentRow twoOfFive = 0.
Proof. vm_compute. repeat split. Qed.

Example twoOfFive_snapshot :
  tableDataRows sampleRows None stringifySample (results twoOfFive)
  = [ "Row 1 (ada@acme.io): company: " +:+ quote +:+ "Acme" +:+ quote;
      "Row 2 (bob@gmail.com): No data enriched yet" ].
Proof. vm_compute. reflexivity. Qed.

(** C3. A log at its cap of 500 entries grows past it when anything but a
    progress message is appended: the submitted [user] message makes it
    501 entries long, a [status] frame of the query stream 502, the
    completion notice 503. Only the [agent_progress] case trims the log. *)
Theorem log_exceeds_cap_after_user_turn :
  let asked := chatBegin 3000 "q-1" "How many rows are enriched?" fullLog in
  let answered :=
    handleChatLine (Data 3100 "0.7" (ChStatus "Thinking" None)) asked in
  let completed :=
    handleLine sampleRows (Data 3200 "0.8" EvComplete) answered in
  length (agentMessages fullLog) = 500%nat
  ∧ length (agentMessages asked) = 501%nat
  ∧ length (agentMessages answered) = 502%nat
  ∧ length (agentMessages completed) = 503%nat.
Proof. vm_compute. repeat split. Qed.

(** C4, on the scenario: the stream ends without a terminal event and the
    status is still [Processing]. *)
Lemma end_of_stream_stays_processing_witness :
  forallb (forallb (fun ln => negb (lineIsTerminal ln))) sampleChunks = true
  ∧ status twoOfFive = Processing.
Proof.
  split; [reflexivity|].
  apply (end_of_stream_stays_processing sampleRows sampleChunks initial).
  reflexivity.
Defined.

(** C5, as stated, fails before the [session] event has arrived:
    cancelling while processing leaves the status [Processing]. *)
Lemma cancel_before_session_is_ignored :
  let st := run sampleRows sampleFields [ABeginEnrichment; AStreamLine (Data 1000 "0.11" (EvPending 0))] initial in
  status st = Processing
  ∧ sessionId st = None
  ∧ status (snd (cancelEnrichment false st)) = Processing
  ∧ status (snd (cancelEnrichment true st)) = Processing.
Proof. vm_compute. repeat split. Qed.

Lemma cancel_is_locally_authoritative_witness :
  sessionId twoOfFive = Some "session-1"
  ∧ "session-1" ≠ ""
  ∧ status twoOfFive = Processing
  ∧ fst (cancelEnrichment false twoOfFive)
    = Some "/api/enrich?sessionId=session-1"
  ∧ status (snd (cancelEnrichment false twoOfFive)) = Cancelled.
Proof.
  assert (H1 : sessionId twoOfFive = Some "session-1") by (vm_compute; reflexivity).
  assert (H2 : "session-1" ≠ "") by discriminate.
  destruct (cancel_is_locally_authoritative false "session-1" twoOfFive H1 H2)
    as (Hreq & Hst & _).
  split; [exact H1|]. split; [exact H2|].
  split; [vm_compute; reflexivity|]. split; [exact Hreq|exact Hst].
Defined.

(** C6, as stated, fails on a log that already holds the notice's text
    more than once (the user typed it twice): two [complete] events leave
    two such entries, not one. *)
Lemma two_notices_stay_two :
  let st := run sampleRows sampleFields
    [ AChatBegin 10 "q-1" completionNotice; AChatBegin 20 "q-2" completionNotice;
      AStreamLine (Data 30 "0.1" EvComplete);
      AStreamLine (Data 40 "0.2" EvComplete) ] initial in
  noticeCount (agentMessages st) = 2%nat.
Proof. vm_compute. reflexivity. Qed.

(** C7, as stated, fails when pending placeholders are in the store: with
    two of five rows non-pending, [processedRows] is 5, the size of the
    store, while the snapshot lists the two rows. *)
Lemma processedRows_counts_pending_rows :
  let request := fst (handleChatMessage sampleRows sampleFields None stringifySample
                        5000 "q-1" "How many rows are enriched?" FetchFailed 5001 twoOfFive) in
  length (nonPendingRows sampleRows (results twoOfFive)) = 2%nat
  ∧ ctx_processedRows (req_context request) = 5%nat
  ∧ length (tableDataRows sampleRows None stringifySample (results twoOfFive)) = 2%nat.
Proof. vm_compute. repeat split. Qed.

(** C8, as stated, fails on the first query of a session: the history sent
    is empty, although the submitted message is by then the log's last
    [user] message. *)
Lemma history_lacks_submitted_message :
  let request := fst (handleChatMessage sampleRows sampleFields None stringifySample
                        5000 "q-1" "How many rows are enriched?" FetchFailed 5001 twoOfFive) in
  let asked := chatBegin 5000 "q-1" "How many rows are enriched?" twoOfFive in
  req_conversationHistory request = []
  ∧ conversationHistory (agentMessages asked)
    = [("user", "How many rows are enriched?")].
Proof. vm_compute. repeat split. Qed.

(** C9, on four fields: the row's result arrives at clock reading 2000;
    the field at position 2 has delay 600 and is revealed at 4500. *)
Lemma reveal_timing_witness :
  let st := handleEvent sampleRows 2000 "0.22" (EvResult resultRow0) initial in
  rowDataArrivalTime st !! 0 = Some 2000
  ∧ 2000 ≠ 0
  ∧ fourFields !! 2%nat = Some (mkField "employees" "Employees" "string")
  ∧ Z.of_nat (length fourFields) < 2 ^ 32
  ∧ getCellAnimationDelay fourFields st 0 2 = Number_ofZ 600
  ∧ shouldShowData fourFields st 4500 0 2 "employees" = true
  ∧ rowCellsShown fourFields 0 (advance fourFields 4500 st).
Proof.
  cbv zeta.
  assert (H1 : rowDataArrivalTime
                 (handleEvent sampleRows 2000 "0.22" (EvResult resultRow0) initial)
                 !! 0 = Some 2000) by (vm_compute; reflexivity).
  assert (H2 : 2000 ≠ 0) by lia.
  assert (H3 : fourFields !! 2%nat = Some (mkField "employees" "Employees" "string"))
    by reflexivity.
  assert (H4 : Z.of_nat (length fourFields) < 2 ^ 32) by reflexivity.
  destruct (reveal_timing sampleRows fourFields
              (handleEvent sampleRows 2000 "0.22" (EvResult resultRow0) initial)
              0 2000 2 (mkField "employees" "Employees" "string") 4500 H1 H2 H3 H4)
    as (_ & _ & H600 & _ & _ & Hshow & Hmark).
  split; [exact H1|]. split; [exact H2|]. split; [exact H3|]. split; [exact H4|].
  split; [apply H600; reflexivity|].
  split; [apply Hshow; lia|].
  apply (Hmark initial "0.22" resultRow0 [] []); [reflexivity|lia].
Defined.

(** Thirty-eight requested fields. *)
Definition manyFields : list EnrichmentField :=
  map (fun k => mkField ("field" +:+ pretty k) ("Field " +:+ pretty k) "string")
      (seq 0 38).

(** C9, as stated, fails on the field at position 19 of 38: the number
    [19 * min (300, 2000 / 38)] is 1000, the delay computed is the double
    just below it, [1000 - 2 ^ -43], and the cell is revealed when the
    time elapsed is 1000, which does not exceed 1000. *)
Lemma delay_falls_short_of_formula :
  let st := handleEvent sampleRows 2000 "0.22" (EvResult resultRow0) initial in
  rowDataArrivalTime st !! 0 = Some 2000
  ∧ manyFields !! 19%nat = Some (mkField "field19" "Field 19" "string")
  ∧ length manyFields = 38%nat
  ∧ (staggerDelay 38 19 == inject_Z 1000)%Q
  ∧ getCellAnimationDelay manyFields st 0 19
    = S754_finite false 8796093022207999 (-43)
  ∧ (Number_value (getCellAnimationDelay manyFields st 0 19)
     == inject_Z 1000 - 1 / inject_Z (2 ^ 43))%Q
  ∧ (Number_value (getCellAnimationDelay manyFields st 0 19)
     < staggerDelay 38 19)%Q
  ∧ isCellShown st 0 "field19" = false
  ∧ shouldShowData manyFields st 3000 0 19 "field19" = true.
Proof. vm_compute. repeat split. Qed.


(** ** Framing of the two streams

    Both read loops decode a chunk the same way: the text is split at line
    feeds, a line that starts with [data: ] has its remainder parsed, and
    the event goes to the handlers; nothing is carried over from one chunk
    to the next. *)

Section Framing.

Context {E : Type}.

(** [JSON.parse], followed by the reading of the object as an event of the
    stream; [None] when an exception is thrown, which the [catch] around
    the handlers swallows. *)
Variable JSON_parse : string → option E.

(** [text.split] at line feeds. *)
Fixpoint splitLF (s : string) : list string :=
  match s with
  | EmptyString => [EmptyString]
  | String c rest =>
      if Ascii.eqb c lfChar then EmptyString :: splitLF rest
      else match splitLF rest with
           | line :: lines => String c line :: lines
           | [] => [String c EmptyString]
           end
  end.

(** [line.startsWith(p)] *)
Fixpoint startsWith (p s : string) : bool :=
  match p, s with
  | EmptyString, _ => true
  | String a p', String b s' => Ascii.eqb a b && startsWith p' s'
  | String _ _, EmptyString => false
  end.

(** [line.substring(n)] *)
Fixpoint substringFrom (n : nat) (s : string) : string :=
  match n, s with
  | O, _ => s
  | S n', String _ rest => substringFrom n' rest
  | S _, EmptyString => EmptyString
  end.

(** The event a line delivers, if any. *)
Definition lineParse (line : string) : option E :=
  if startsWith "data: " line then JSON_parse (substringFrom 6 line) else None.

Definition decodeLine (now : Z) (rnd : string) (line : string) : Line E :=
  if startsWith "data: " line then
    match JSON_parse (substringFrom 6 line) with
    | Some e => Data now rnd e
    | None => BadJson
    end
  else NoData.

(** The lines of a decoded chunk; [clock] and [random] give the clock
    reading and the random draw the handler of each line sees. *)
Definition decodeChunk (clock : nat → Z) (random : nat → string) (text : string)
  : list (Line E) :=
  imap (fun i line => decodeLine (clock i) (random i) line) (splitLF text).

Definition lineEvent (ln : Line E) : option E :=
  match ln with
  | Data _ _ e => Some e
  | _ => None
  end.

(** The events a chunk delivers to the handlers, in order. *)
Definition chunkEvents (clock : nat → Z) (random : nat → string) (text : string)
  : list E :=
  omap lineEvent (decodeChunk clock random text).

(** A frame as the producer writes it, and a run of frames. *)
Definition frame (payload : string) : string :=
  "data: " +:+ payload +:+ LF +:+ LF.

Definition frames (payloads : list string) : string :=
  foldr (fun p rest => frame p +:+ rest) EmptyString payloads.

Definition noLF (s : string) : Prop := includesChar lfChar s = false.

Lemma splitLF_nonempty (s : string) : splitLF s ≠ [].
Proof.
  induction s as [|c s IH]; [done|].
  simpl. destruct (Ascii.eqb c lfChar); [done|].
  by destruct (splitLF s).
Qed.

Lemma splitLF_app (a b : string) :
  splitLF (a +:+ LF +:+ b) = splitLF a ++ splitLF b.
Proof.
  induction a as [|c a IH]; [done|].
  change (String c a +:+ LF +:+ b) with (String c (a +:+ LF +:+ b)).
  simpl. rewrite IH. destruct (Ascii.eqb c lfChar); [done|].
  pose proof (splitLF_nonempty a). by destruct (splitLF a).
Qed.

Lemma splitLF_noLF (s : string) : noLF s → splitLF s = [s].
Proof.
  unfold noLF. induction s as [|c s IH]; [done|].
  simpl. destruct (Ascii.eqb c lfChar); [done|].
  simpl. intros H. by rewrite IH.
Qed.

Lemma chunkEvents_lines (clock : nat → Z) (random : nat → string) (text : string) :
  chunkEvents clock random text = omap lineParse (splitLF text).
Proof.
  unfold chunkEvents, decodeChunk. generalize (splitLF text) as lines.
  intros lines. revert clock random.
  induction lines as [|line lines IH]; intros clock random; [done|].
  rewrite imap_cons.
  change (omap lineEvent (?x :: ?l))
    with (match lineEvent x with Some y => y :: omap lineEvent l | None => omap lineEvent l end).
  change (omap lineParse (line :: lines))
    with (match lineParse line with
          | Some y => y :: omap lineParse lines
          | None => omap lineParse lines
          end).
  rewrite <- (IH (clock ∘ S) (random ∘ S)).
  unfold decodeLine, lineParse.
  destruct (startsWith "data: " line); [|done].
  by destruct (JSON_parse (substringFrom 6 line)).
Qed.

Lemma lineParse_frame_line (payload : string) :
  lineParse ("data: " +:+ payload) = JSON_parse payload.
Proof. done. Qed.

Lemma splitLF_frames (payloads : list string) (rest : string) :
  Forall noLF payloads →
  splitLF (frames payloads +:+ rest)
  = concat (map (fun p => ["data: " +:+ p; EmptyString]) payloads)
    ++ splitLF rest.
Proof.
  induction 1 as [|p ps Hp Hps IH]; [done|].
  simpl frames. unfold frame.
  replace ((("data: " +:+ p +:+ LF +:+ LF) +:+ frames ps) +:+ rest)
    with (("data: " +:+ p) +:+ LF +:+ (EmptyString +:+ LF +:+ (frames ps +:+ rest))).
  2:{ rewrite !str_app_assoc. done. }
  rewrite !splitLF_app, IH.
  rewrite (splitLF_noLF ("data: " +:+ p)); [done|].
  unfold noLF in *. exact Hp.
Qed.

Lemma omap_frame_lines (payloads : list string) :
  omap lineParse (concat (map (fun p => ["data: " +:+ p; EmptyString]) payloads))
  = omap JSON_parse payloads.
Proof.
  induction payloads as [|p ps IH]; [done|].
  simpl concat.
  change (omap lineParse (("data: " +:+ p) :: EmptyString :: ?l))
    with (match JSON_parse p with
          | Some y => y :: omap lineParse l
          | None => omap lineParse l
          end).
  rewrite IH. done.
Qed.

(** X15. Decoding undoes the producer's framing: a chunk made of whole
    frames, each [data: ] followed by a payload without line feed and two
    line feeds, delivers exactly the events of the payloads that parse, in
    the order of the frames; payloads that do not parse are skipped
    without any effect on the frames after them. The same holds for a
    stream cut into chunks at frame boundaries. *)
Theorem frames_decode_to_their_events (clock : nat → Z) (random : nat → string)
    (payloads : list string) (chunks : list (list string)) :
  Forall noLF payloads →
  Forall (Forall noLF) chunks →
  chunkEvents clock random (frames payloads) = omap JSON_parse payloads
  ∧ concat (map (fun ps => chunkEvents clock random (frames ps)) chunks)
    = omap JSON_parse (concat chunks).
Proof.
  assert (Hone : ∀ ps, Forall noLF ps →
            chunkEvents clock random (frames ps) = omap JSON_parse ps).
  { intros ps Hps. rewrite chunkEvents_lines.
    replace (frames ps) with (frames ps +:+ EmptyString).
    2:{ generalize (frames ps). intros s.
        induction s as [|c s IHs]; [done|].
        change (String c (s +:+ EmptyString) = String c s). by rewrite IHs. }
    rewrite splitLF_frames by done. rewrite omap_app, omap_frame_lines.
    simpl. by rewrite app_nil_r. }
  intros Hps Hchunks. split; [by apply Hone|].
  induction Hchunks as [|ps chunks Hp Hrest IH]; [done|].
  simpl. rewrite omap_app, IH, Hone; done.
Qed.

(** X16. Nothing is carried over between chunks. When a chunk boundary
    falls inside a line, the two pieces are decoded as two lines of their
    own: the events delivered are those of the frames before, then what
    the first piece gives as a line, then what the second piece gives as a
    line, then those of the frames after. In particular, when the first
    piece is a [data: ] line whose truncated payload does not parse and the
    second piece does not start with [data: ], the frame's event is lost
    and the stream goes on with the next frame. *)
Theorem frame_cut_by_chunk_boundary (clock clock' : nat → Z)
    (random random' : nat → string)
    (before after : list string) (piece1 piece2 : string) :
  Forall noLF before → Forall noLF after → noLF piece1 → noLF piece2 →
  let chunk1 := frames before +:+ piece1 in
  let chunk2 := piece2 +:+ LF +:+ LF +:+ frames after in
  chunkEvents clock random chunk1 ++ chunkEvents clock' random' chunk2
  = omap JSON_parse before
    ++ option_list (lineParse piece1) ++ option_list (lineParse piece2)
    ++ omap JSON_parse after
  ∧ (lineParse piece1 = None → startsWith "data: " piece2 = false →
     chunkEvents clock random chunk1 ++ chunkEvents clock' random' chunk2
     = omap JSON_parse (before ++ after)).
Proof.
  intros Hb Ha H1 H2. cbv zeta.
  assert (Hmain :
    chunkEvents clock random (frames before +:+ piece1)
    ++ chunkEvents clock' random' (piece2 +:+ LF +:+ LF +:+ frames after)
    = omap JSON_parse before
      ++ option_list (lineParse piece1) ++ option_list (lineParse piece2)
      ++ omap JSON_parse after).
  { rewrite !chunkEvents_lines.
    rewrite splitLF_frames by done. rewrite omap_app, omap_frame_lines.
    rewrite (splitLF_noLF piece1) by done.
    replace (piece2 +:+ LF +:+ LF +:+ frames after)
      with (piece2 +:+ LF +:+ (EmptyString +:+ LF +:+ (frames after +:+ EmptyString))).
    2:{ f_equal. f_equal. change (LF +:+ (frames after +:+ "") = LF +:+ frames after).
        f_equal. generalize (frames after). intros s.
        induction s as [|c s IHs]; [done|].
        change (String c (s +:+ EmptyString) = String c s). by rewrite IHs. }
    rewrite !splitLF_app, splitLF_frames by done.
    rewrite (splitLF_noLF piece2) by done.
    rewrite !omap_app, omap_frame_lines. simpl.
    rewrite app_nil_r, <- !app_assoc. done. }
  split; [exact Hmain|].
  intros Hp1 Hp2. rewrite Hmain, Hp1. unfold lineParse at 1. rewrite Hp2.
  simpl. by rewrite omap_app.
Qed.

End Framing.

(** ** The single e-mail form ([SingleEmailInput])

    A character of a Rocq string stands for the UTF-16 code unit of the
    same number. *)

Module SingleEmailInput.

(** Regular expressions over character classes, with their language. *)
Inductive regex : Type :=
  | Void
  | Eps
  | Cls (p : ascii → bool)
  | Cat (r1 r2 : regex)
  | Alt (r1 r2 : regex)
  | Star (r : regex).

(** [r+] *)
Definition Plus (r : regex) : regex := Cat r (Star r).

Inductive matches : regex → list ascii → Prop :=
  | MEps : matches Eps []
  | MCls p c : p c = true → matches (Cls p) [c]
  | MCat r1 r2 s1 s2 :
      matches r1 s1 → matches r2 s2 → matches (Cat r1 r2) (s1 ++ s2)
  | MAltL r1 r2 s : matches r1 s → matches (Alt r1 r2) s
  | MAltR r1 r2 s : matches r2 s → matches (Alt r1 r2) s
  | MStarNil r : matches (Star r) []
  | MStarApp r s1 s2 :
      matches r s1 → matches (Star r) s2 → matches (Star r) (s1 ++ s2).

(** Matching by derivatives: what [regex.test] decides for a pattern
    anchored at both ends. *)
Fixpoint nullable (r : regex) : bool :=
  match r with
  | Void | Cls _ => false
  | Eps | Star _ => true
  | Cat r1 r2 => nullable r1 && nullable r2
  | Alt r1 r2 => nullable r1 || nullable r2
  end.

Fixpoint deriv (c : ascii) (r : regex) : regex :=
  match r with
  | Void | Eps => Void
  | Cls p => if p c then Eps else Void
  | Cat r1 r2 =>
      if nullable r1 then Alt (Cat (deriv c r1) r2) (deriv c r2)
      else Cat (deriv c r1) r2
  | Alt r1 r2 => Alt (deriv c r1) (deriv c r2)
  | Star r1 => Cat (deriv c r1) (Star r1)
  end.

Fixpoint matchb (r : regex) (s : list ascii) : bool :=
  match s with
  | [] => nullable r
  | c :: rest => matchb (deriv c r) rest
  end.

(** [\s]: the white space and line terminator code units (below 256:
    tab, line feed, vertical tab, form feed, carriage return, space,
    no-break space). *)
Definition isSpace (c : ascii) : bool :=
  match N_of_ascii c with
  | 9 | 10 | 11 | 12 | 13 | 32 | 160 => true
  | _ => false
  end%N.

Definition atChar : ascii := ascii_of_nat 64.
Definition dotChar : ascii := ascii_of_nat 46.

(** [[^\s@]] *)
Definition partChar (c : ascii) : bool :=
  negb (isSpace c) && negb (Ascii.eqb c atChar).

(** [/^[^\s@]+@[^\s@]+\.[^\s@]+$/] *)
Definition emailRegex : regex :=
  Cat (Plus (Cls partChar))
    (Cat (Cls (Ascii.eqb atChar))
       (Cat (Plus (Cls partChar))
          (Cat (Cls (Ascii.eqb dotChar))
             (Plus (Cls partChar))))).

Definition validateEmail (email : string) : bool :=
  matchb emailRegex (list_ascii_of_string email).

(** [s.trim()] *)
Fixpoint trimStart (s : list ascii) : list ascii :=
  match s with
  | [] => []
  | c :: rest => if isSpace c then trimStart rest else s
  end.

Definition trim (s : string) : string :=
  string_of_list_ascii
    (rev (trimStart (rev (trimStart (list_ascii_of_string s))))).

(** What [handleSubmit] leaves: the error shown, the processing flag, and
    the arguments its timer passes to [onSubmit] after 100 ms (when it
    also clears the flag). The form offers the submit only while it is not
    busy, so the flag is off when [handleSubmit] starts. *)
Record Submission : Type := mkSubmission {
  error : option string;
  isProcessing : bool;
  submitted : option (list CSVRow * list string)
}.

Definition handleSubmit (email name : string) : Submission :=
  if negb (str_truthy (trim email)) then
    {| error := Some "Please enter an email address";
       isProcessing := false; submitted := None |}
  else if negb (validateEmail (trim email)) then
    {| error := Some "Please enter a valid email address";
       isProcessing := false; submitted := None |}
  else
    let row : CSVRow :=
      ("email", trim email)
      :: (if str_truthy (trim name) then [("name", trim name)] else []) in
    let columns :=
      if str_truthy (trim name) then ["email"; "name"] else ["email"] in
    {| error := None; isProcessing := true;
       submitted := Some ([row], columns) |}.

(** *** The matcher decides the language *)

Lemma cat_inv (r1 r2 : regex) (s : list ascii) :
  matches (Cat r1 r2) s →
  ∃ s1 s2, s = s1 ++ s2 ∧ matches r1 s1 ∧ matches r2 s2.
Proof. intros H. inversion H; subst. eauto. Qed.

Lemma alt_inv (r1 r2 : regex) (s : list ascii) :
  matches (Alt r1 r2) s → matches r1 s ∨ matches r2 s.
Proof. intros H. inversion H; subst; eauto. Qed.

Lemma cls_inv (p : ascii → bool) (s : list ascii) :
  matches (Cls p) s → ∃ c, s = [c] ∧ p c = true.
Proof. intros H. inversion H; subst. eauto. Qed.

Lemma void_inv (s : list ascii) : ¬ matches Void s.
Proof. intros H. inversion H. Qed.

Lemma eps_inv (s : list ascii) : matches Eps s → s = [].
Proof. intros H. by inversion H. Qed.

Lemma nullable_spec (r : regex) : nullable r = true ↔ matches r [].
Proof.
  induction r as [| |p|r1 IH1 r2 IH2|r1 IH1 r2 IH2|r IH]; simpl.
  - split; [done|]. by intros H%void_inv.
  - split; [constructor|done].
  - split; [done|]. by intros (c & ? & _)%cls_inv.
  - rewrite andb_true_iff, IH1, IH2. split.
    + intros [H1 H2]. apply (MCat r1 r2 [] [] H1 H2).
    + intros (s1 & s2 & Heq & H1 & H2)%cat_inv.
      symmetry in Heq. apply app_eq_nil in Heq as [-> ->]. done.
  - rewrite orb_true_iff, IH1, IH2. split.
    + intros [H|H]; [by apply MAltL|by apply MAltR].
    + by intros H%alt_inv.
  - split; [constructor|done].
Qed.

Lemma star_cons (r : regex) (c : ascii) (s : list ascii) :
  matches (Star r) (c :: s) →
  ∃ s1 s2, s = s1 ++ s2 ∧ matches r (c :: s1) ∧ matches (Star r) s2.
Proof.
  intros H. remember (Star r) as r' eqn:Hr. remember (c :: s) as s' eqn:Hs.
  revert s Hs.
  induction H as [| | | | | |r0 s1 s2 H1 _ H2 IH2]; try done; intros s Hs.
  injection Hr as ->. destruct s1 as [|c1 s1].
  - simpl in Hs. by apply IH2.
  - simpl in Hs. injection Hs as -> <-. by exists s1, s2.
Qed.

Lemma deriv_spec (c : ascii) (r : regex) (s : list ascii) :
  matches (deriv c r) s ↔ matches r (c :: s).
Proof.
  revert s.
  induction r as [| |p|r1 IH1 r2 IH2|r1 IH1 r2 IH2|r IH]; intros s; simpl.
  - split; by intros H%void_inv.
  - split; [by intros H%void_inv|]. by intros H%eps_inv.
  - destruct (p c) eqn:Hp.
    + split.
      * intros ->%eps_inv. by constructor.
      * intros (c' & Heq & _)%cls_inv. injection Heq as <- ->. constructor.
    + split; [by intros H%void_inv|].
      intros (c' & Heq & Hc)%cls_inv. injection Heq as <- ->. congruence.
  - assert (Hcat : matches (Cat (deriv c r1) r2) s →
                   matches (Cat r1 r2) (c :: s)).
    { intros (s1 & s2 & -> & H1 & H2)%cat_inv.
      apply IH1 in H1. apply (MCat r1 r2 (c :: s1) s2 H1 H2). }
    assert (Hinv : matches (Cat r1 r2) (c :: s) →
                   matches (Cat (deriv c r1) r2) s
                   ∨ (matches r1 [] ∧ matches r2 (c :: s))).
    { intros (s1 & s2 & Heq & H1 & H2)%cat_inv.
      destruct s1 as [|c1 s1].
      - right. simpl in Heq. subst. done.
      - left. simpl in Heq. injection Heq as -> ->.
        apply MCat; [by apply IH1|done]. }
    destruct (nullable r1) eqn:Hn.
    + split.
      * intros [H|H]%alt_inv; [by apply Hcat|].
        apply nullable_spec in Hn.
        apply (MCat r1 r2 [] (c :: s) Hn). by apply IH2.
      * intros H. destruct (Hinv H) as [H'|[_ H']].
        -- by apply MAltL.
        -- apply MAltR. by apply IH2.
    + split; [exact Hcat|].
      intros H. destruct (Hinv H) as [H'|[H' _]]; [done|].
      apply nullable_spec in H'. congruence.
  - split.
    + intros [H|H]%alt_inv.
      * apply MAltL. by apply IH1.
      * apply MAltR. by apply IH2.
    + intros [H|H]%alt_inv.
      * apply MAltL. by apply IH1.
      * apply MAltR. by apply IH2.
  - split.
    + intros (s1 & s2 & -> & H1 & H2)%cat_inv.
      apply IH in H1. apply (MStarApp r (c :: s1) s2 H1 H2).
    + intros H. apply star_cons in H as (s1 & s2 & -> & H1 & H2).
      apply MCat; [by apply IH|done].
Qed.

Lemma matchb_spec (r : regex) (s : list ascii) :
  matchb r s = true ↔ matches r s.
Proof.
  revert r. induction s as [|c s IH]; intros r; simpl.
  - apply nullable_spec.
  - rewrite IH. apply deriv_spec.
Qed.

(** *** What the pattern accepts *)

(** A part of an address: no white space and no [@] in it. *)
Definition cleanPart (s : string) : bool :=
  forallb partChar (list_ascii_of_string s).

Definition hasSpace (s : string) : bool :=
  existsb isSpace (list_ascii_of_string s).

Lemma star_cls (p : ascii → bool) (s : list ascii) :
  matches (Star (Cls p)) s ↔ forallb p s = true.
Proof.
  split.
  - intros H. remember (Star (Cls p)) as r eqn:Hr.
    induction H as [| | | | | |r0 s1 s2 H1 _ H2 IH2]; try done.
    injection Hr as ->. apply cls_inv in H1 as (c & -> & Hc).
    simpl. rewrite Hc. by apply IH2.
  - induction s as [|c s IH]; simpl; [constructor|].
    intros [Hc Hs]%andb_true_iff.
    apply (MStarApp (Cls p) [c] s); [by constructor|by apply IH].
Qed.

Lemma plus_cls (p : ascii → bool) (s : list ascii) :
  matches (Plus (Cls p)) s ↔ s ≠ [] ∧ forallb p s = true.
Proof.
  unfold Plus. split.
  - intros (s1 & s2 & -> & (c & -> & Hc)%cls_inv & H2%star_cls)%cat_inv.
    simpl. by rewrite Hc, H2.
  - intros [Hne Hs]. destruct s as [|c s]; [done|].
    simpl in Hs. apply andb_true_iff in Hs as [Hc Hs].
    apply (MCat (Cls p) (Star (Cls p)) [c] s); [by constructor|].
    by apply star_cls.
Qed.

Lemma emailRegex_matches (l : list ascii) :
  matches emailRegex l ↔
  ∃ a b c, l = a ++ atChar :: b ++ dotChar :: c
           ∧ a ≠ [] ∧ b ≠ [] ∧ c ≠ []
           ∧ forallb partChar a = true ∧ forallb partChar b = true
           ∧ forallb partChar c = true.
Proof.
  unfold emailRegex. split.
  - intros (a & l1 & -> & [Ha Ha']%plus_cls & H1)%cat_inv.
    apply cat_inv in H1 as (x & l2 & -> & (c1 & -> & Hc1)%cls_inv & H2).
    apply cat_inv in H2 as (b & l3 & -> & [Hb Hb']%plus_cls & H3).
    apply cat_inv in H3 as (y & c & -> & (c2 & -> & Hc2)%cls_inv & [Hc Hc']%plus_cls).
    apply Ascii.eqb_eq in Hc1 as <-. apply Ascii.eqb_eq in Hc2 as <-.
    exists a, b, c. done.
  - intros (a & b & c & -> & Ha & Hb & Hc & Ha' & Hb' & Hc').
    apply MCat; [by apply plus_cls|].
    apply (MCat _ _ [atChar]); [constructor; apply Ascii.eqb_refl|].
    apply MCat; [by apply plus_cls|].
    apply (MCat _ _ [dotChar]); [constructor; apply Ascii.eqb_refl|].
    by apply plus_cls.
Qed.

Lemma chars_app (a b : string) :
  list_ascii_of_string (a +:+ b)
  = list_ascii_of_string a ++ list_ascii_of_string b.
Proof.
  induction a as [|x a IH]; [done|].
  change (x :: list_ascii_of_string (a +:+ b)
          = x :: (list_ascii_of_string a ++ list_ascii_of_string b)).
  by rewrite IH.
Qed.

Lemma chars_nonempty (s : string) : s ≠ "" ↔ list_ascii_of_string s ≠ [].
Proof. destruct s; simpl; split; done. Qed.

Lemma validateEmail_parts (email : string) :
  (validateEmail email = true) ↔
  ∃ a b c : string,
    email = a +:+ "@" +:+ b +:+ "." +:+ c
    ∧ a ≠ "" ∧ b ≠ "" ∧ c ≠ ""
    ∧ cleanPart a = true ∧ cleanPart b = true ∧ cleanPart c = true.
Proof.
  unfold validateEmail. rewrite matchb_spec, emailRegex_matches. split.
  - intros (a & b & c & Heq & Ha & Hb & Hc & Ha' & Hb' & Hc').
    exists (string_of_list_ascii a), (string_of_list_ascii b),
      (string_of_list_ascii c).
    unfold cleanPart. rewrite !list_ascii_of_string_of_list_ascii.
    rewrite !chars_nonempty, !list_ascii_of_string_of_list_ascii.
    repeat split; try done.
    rewrite <- (string_of_list_ascii_of_string email), Heq.
    apply (f_equal string_of_list_ascii) in Heq.
    rewrite <- (string_of_list_ascii_of_string
                  (string_of_list_ascii a +:+ "@" +:+ string_of_list_ascii b
                   +:+ "." +:+ string_of_list_ascii c)).
    f_equal. rewrite !chars_app, !list_ascii_of_string_of_list_ascii. done.
  - intros (a & b & c & -> & Ha & Hb & Hc & Ha' & Hb' & Hc').
    exists (list_ascii_of_string a), (list_ascii_of_string b),
      (list_ascii_of_string c).
    rewrite <- !chars_nonempty. repeat split; try done.
    by rewrite !chars_app.
Qed.

(** X17. The e-mail pattern accepts exactly the strings made of three
    non-empty parts, none holding white space or [@], the first two joined
    by [@] and the last two by a dot: [local@domain.tld], where dots may
    also occur inside the parts. *)
Theorem validateEmail_iff (email : string) :
  (validateEmail email = true) ↔
  ∃ a b c : string,
    email = a +:+ "@" +:+ b +:+ "." +:+ c
    ∧ a ≠ "" ∧ b ≠ "" ∧ c ≠ ""
    ∧ cleanPart a = true ∧ cleanPart b = true ∧ cleanPart c = true.
Proof. apply validateEmail_parts. Qed.

Lemma countChar_app (c : ascii) (a b : string) :
  countChar c (a +:+ b) = (countChar c a + countChar c b)%nat.
Proof.
  induction a as [|x a IH]; [done|].
  change (countChar c (String x (a +:+ b))
          = (countChar c (String x a) + countChar c b)%nat).
  simpl. rewrite IH. lia.
Qed.

Lemma hasSpace_app (a b : string) :
  hasSpace (a +:+ b) = hasSpace a || hasSpace b.
Proof. unfold hasSpace. by rewrite chars_app, existsb_app. Qed.

Lemma cleanPart_spec (s : string) :
  cleanPart s = true → countChar atChar s = 0%nat ∧ hasSpace s = false.
Proof.
  unfold cleanPart, hasSpace. induction s as [|x s IH]; [done|].
  simpl. unfold partChar at 1.
  intros [[Hs Ha]%andb_true_iff Hrest]%andb_true_iff.
  destruct (IH Hrest) as [-> ->].
  apply negb_true_iff in Hs, Ha. by rewrite Hs, Ha.
Qed.

Lemma existsb_rev {A} (f : A → bool) (l : list A) :
  existsb f (rev l) = existsb f l.
Proof.
  induction l as [|x l IH]; [done|].
  simpl. rewrite existsb_app, IH. simpl.
  destruct (f x), (existsb f l); done.
Qed.

Lemma trimStart_clean (l : list ascii) :
  existsb isSpace l = false → trimStart l = l.
Proof.
  destruct l as [|c l]; [done|]. simpl.
  intros [-> _]%orb_false_iff. done.
Qed.

Lemma trim_clean (s : string) : hasSpace s = false → trim s = s.
Proof.
  unfold hasSpace, trim. intros H.
  rewrite (trimStart_clean _ H).
  rewrite trimStart_clean.
  - by rewrite rev_involutive, string_of_list_ascii_of_string.
  - rewrite existsb_rev. exact H.
Qed.

Lemma accepted_shape (email : string) :
  validateEmail email = true →
  countChar atChar email = 1%nat ∧ hasSpace email = false
  ∧ (5 ≤ String.length email)%nat.
Proof.
  intros (a & b & c & -> & Ha & Hb & Hc & Ha' & Hb' & Hc')%validateEmail_parts.
  apply cleanPart_spec in Ha' as [Ha1 Ha2].
  apply cleanPart_spec in Hb' as [Hb1 Hb2].
  apply cleanPart_spec in Hc' as [Hc1 Hc2].
  rewrite !countChar_app, !hasSpace_app, !strlen_app, Ha1, Hb1, Hc1, Ha2, Hb2, Hc2.
  repeat split; try done.
  destruct a; [done|]. destruct b; [done|]. destruct c; [done|].
  simpl. lia.
Qed.

(** X18. What submitting the form does. The address is taken without its
    surrounding white space. A submission goes out exactly when that
    address matches the pattern: then no error is shown, the form is busy,
    and the one row handed on has the address under [email] (it holds
    exactly one [@] and no white space at all) and, only when the name is
    not blank, the trimmed name under [name]; the column list names the
    row's keys, in order. Otherwise nothing is handed on, the form is not
    busy, and the error asks for an address when the input is blank and
    for a valid one when it is not. *)
Theorem handleSubmit_outcome (email name : string) :
  let r := handleSubmit email name in
  (is_Some (submitted r) ↔ validateEmail (trim email) = true)
  ∧ match submitted r with
    | Some (rows', columns) =>
        error r = None ∧ isProcessing r = true
        ∧ countChar atChar (trim email) = 1%nat
        ∧ hasSpace (trim email) = false
        ∧ ∃ row : CSVRow,
            rows' = [row] ∧ map fst row = columns ∧ NoDup columns
            ∧ obj_get row "email" = Some (trim email)
            ∧ obj_get row "name"
              = (if str_truthy (trim name) then Some (trim name) else None)
    | None =>
        isProcessing r = false
        ∧ error r
          = Some (if str_truthy (trim email)
                  then "Please enter a valid email address"
                  else "Please enter an email address")
    end.
Proof.
  cbv zeta. unfold handleSubmit.
  destruct (str_truthy (trim email)) eqn:Hne; simpl.
  - destruct (validateEmail (trim email)) eqn:Hv; simpl.
    + split; [split; eauto|].
      destruct (accepted_shape _ Hv) as (H1 & H2 & _).
      repeat split; try done.
      destruct (str_truthy (trim name)).
      * eexists. repeat split; try done.
        apply NoDup_cons. split; [set_solver|]. apply NoDup_singleton.
      * eexists. repeat split; try done. apply NoDup_singleton.
    + split; [|done]. split; [by intros [? ?]|done].
  - split; [|done]. split; [by intros [? ?]|].
    intros Hv. destruct (accepted_shape _ Hv) as (_ & _ & Hlen).
    unfold str_truthy in Hne. apply negb_false_iff in Hne.
    apply String.eqb_eq in Hne. rewrite Hne in Hlen. simpl in Hlen. lia.
Qed.

(** X19. The row the form hands on shows its address in the table: with
    [email] designated as the e-mail column, and also with no column or an
    empty one designated (the row's first value is then taken), the
    address looked up for the row is the submitted one, and the row's line
    in the snapshot of a conversational query starts with it. *)
Theorem submitted_row_shows_its_email (email name : string)
    (rows' : list CSVRow) (columns : list string) (emailColumn : option string) :
  submitted (handleSubmit email name) = Some (rows', columns) →
  emailColumn ∈ [None; Some ""; Some "email"] →
  ∃ row : CSVRow,
    rows' = [row]
    ∧ emailOf emailColumn row = Some (trim email)
    ∧ ∀ (JSON_stringify : JsValue → string) (index : nat)
        (result : RowEnrichmentResult),
        rowLine emailColumn JSON_stringify index row result
        = "Row " +:+ pretty (index + 1)%nat +:+ " (" +:+ trim email +:+ "): "
          +:+ (if str_truthy (dataPoints JSON_stringify result)
               then dataPoints JSON_stringify result
               else "No data enriched yet").
Proof.
  unfold handleSubmit.
  destruct (str_truthy (trim email)); [|done].
  destruct (validateEmail (trim email)); [|done].
  simpl. intros Heq Hec. injection Heq as <- <-.
  eexists. split; [done|].
  assert (He : emailOf emailColumn
                 (("email", trim email)
                  :: (if str_truthy (trim name) then [("name", trim name)] else []))
               = Some (trim email)).
  { unfold emailOf.
    apply elem_of_cons in Hec as [->|Hec]; [done|].
    apply elem_of_cons in Hec as [->|Hec]; [done|].
    apply elem_of_cons in Hec as [->|Hec]; [done|].
    by apply elem_of_nil in Hec. }
  split; [exact He|].
  intros JSON_stringify index result. unfold rowLine. by rewrite He.
Qed.

End SingleEmailInput.

(** ** The page that hosts the table ([HomePage]) *)

Module HomePage.

Import SingleEmailInput.

Inductive Step : Type :=
  | Upload
  | Setup
  | Enrichment.

(** [csvData] and [pendingCSVData]: the rows and the column names. *)
Definition CsvData : Type := (list CSVRow * list string)%type.

Record PageState : Type := mkPage {
  step : Step;
  csvData : option CsvData;
  emailColumn : string;
  selectedFields : list EnrichmentField;
  showApiKeyModal : bool;
  firecrawlApiKey : string;
  openaiApiKey : string;
  isValidatingApiKey : bool;
  (** [missingKeys.firecrawl] and [missingKeys.openai] *)
  missingKeys : bool * bool;
  pendingCSVData : option CsvData
}.

Definition initialPage : PageState :=
  {| step := Upload; csvData := None; emailColumn := "";
     selectedFields := []; showApiKeyModal := false;
     firecrawlApiKey := ""; openaiApiKey := "";
     isValidatingApiKey := false; missingKeys := (false, false);
     pendingCSVData := None |}.

(** The answer of [/api/check-env]: which keys the server has. *)
Record EnvStatus : Type := mkEnv {
  FIRECRAWL_API_KEY : bool;
  OPENAI_API_KEY : bool
}.

Inductive Toast : Type :=
  | ToastError (message : string)
  | ToastSuccess (message : string).

(** [localStorage.getItem(key)] as a condition: a stored non-empty
    string. *)
Definition saved (localStorage : gmap string string) (key : string) : bool :=
  match localStorage !! key with
  | Some value => str_truthy value
  | None => false
  end.

Definition needsFirecrawl (env : EnvStatus) (localStorage : gmap string string)
  : bool :=
  negb (FIRECRAWL_API_KEY env) && negb (saved localStorage "firecrawl_api_key").

Definition needsOpenAI (env : EnvStatus) (localStorage : gmap string string)
  : bool :=
  negb (OPENAI_API_KEY env) && negb (saved localStorage "openai_api_key").

(** [handleCSVUpload]; [check] is the answer of the environment check,
    [None] when the request fails (the handler then throws before it
    changes anything). *)
Definition handleCSVUpload (check : option EnvStatus)
    (localStorage : gmap string string)
    (rows : list CSVRow) (columns : list string) (st : PageState) : PageState :=
  match check with
  | None => st
  | Some env =>
      if needsFirecrawl env localStorage || needsOpenAI env localStorage then
        {| step := step st; csvData := csvData st;
           emailColumn := emailColumn st; selectedFields := selectedFields st;
           showApiKeyModal := true;
           firecrawlApiKey := firecrawlApiKey st;
           openaiApiKey := openaiApiKey st;
           isValidatingApiKey := isValidatingApiKey st;
           missingKeys := (needsFirecrawl env localStorage,
                           needsOpenAI env localStorage);
           pendingCSVData := Some (rows, columns) |}
      else
        {| step := Setup; csvData := Some (rows, columns);
           emailColumn := emailColumn st; selectedFields := selectedFields st;
           showApiKeyModal := showApiKeyModal st;
           firecrawlApiKey := firecrawlApiKey st;
           openaiApiKey := openaiApiKey st;
           isValidatingApiKey := isValidatingApiKey st;
           missingKeys := missingKeys st;
           pendingCSVData := pendingCSVData st |}
  end.

Definition handleStartEnrichment (email : string) (fields : list EnrichmentField)
    (st : PageState) : PageState :=
  {| step := Enrichment; csvData := csvData st;
     emailColumn := email; selectedFields := fields;
     showApiKeyModal := showApiKeyModal st;
     firecrawlApiKey := firecrawlApiKey st; openaiApiKey := openaiApiKey st;
     isValidatingApiKey := isValidatingApiKey st;
     missingKeys := missingKeys st; pendingCSVData := pendingCSVData st |}.

Definition setStep (s : Step) (st : PageState) : PageState :=
  {| step := s; csvData := csvData st;
     emailColumn := emailColumn st; selectedFields := selectedFields st;
     showApiKeyModal := showApiKeyModal st;
     firecrawlApiKey := firecrawlApiKey st; openaiApiKey := openaiApiKey st;
     isValidatingApiKey := isValidatingApiKey st;
     missingKeys := missingKeys st; pendingCSVData := pendingCSVData st |}.

Definition handleBack (st : PageState) : PageState :=
  match step st with
  | Setup => setStep Upload st
  | Enrichment => setStep Setup st
  | Upload => st
  end.

Definition resetProcess (st : PageState) : PageState :=
  {| step := Upload; csvData := None; emailColumn := "";
     selectedFields := [];
     showApiKeyModal := showApiKeyModal st;
     firecrawlApiKey := firecrawlApiKey st; openaiApiKey := openaiApiKey st;
     isValidatingApiKey := isValidatingApiKey st;
     missingKeys := missingKeys st; pendingCSVData := pendingCSVData st |}.

(** The inputs and the buttons of the key dialog. *)
Definition setFirecrawlApiKey (key : string) (st : PageState) : PageState :=
  {| step := step st; csvData := csvData st;
     emailColumn := emailColumn st; selectedFields := selectedFields st;
     showApiKeyModal := showApiKeyModal st;
     firecrawlApiKey := key; openaiApiKey := openaiApiKey st;
     isValidatingApiKey := isValidatingApiKey st;
     missingKeys := missingKeys st; pendingCSVData := pendingCSVData st |}.

Definition setOpenaiApiKey (key : string) (st : PageState) : PageState :=
  {| step := step st; csvData := csvData st;
     emailColumn := emailColumn st; selectedFields := selectedFields st;
     showApiKeyModal := showApiKeyModal st;
     firecrawlApiKey := firecrawlApiKey st; openaiApiKey := key;
     isValidatingApiKey := isValidatingApiKey st;
     missingKeys := missingKeys st; pendingCSVData := pendingCSVData st |}.

Definition setShowApiKeyModal (open : bool) (st : PageState) : PageState :=
  {| step := step st; csvData := csvData st;
     emailColumn := emailColumn st; selectedFields := selectedFields st;
     showApiKeyModal := open;
     firecrawlApiKey := firecrawlApiKey st; openaiApiKey := openaiApiKey st;
     isValidatingApiKey := isValidatingApiKey st;
     missingKeys := missingKeys st; pendingCSVData := pendingCSVData st |}.

Definition setIsValidatingApiKey (b : bool) (st : PageState) : PageState :=
  {| step := step st; csvData := csvData st;
     emailColumn := emailColumn st; selectedFields := selectedFields st;
     showApiKeyModal := showApiKeyModal st;
     firecrawlApiKey := firecrawlApiKey st; openaiApiKey := openaiApiKey st;
     isValidatingApiKey := b;
     missingKeys := missingKeys st; pendingCSVData := pendingCSVData st |}.

(** The end of the [try] block of [handleApiKeySubmit]: the dialog is
    closed and a parked upload is taken up. *)
Definition takeUpPending (st : PageState) : PageState :=
  match pendingCSVData st with
  | Some data =>
      {| step := Setup; csvData := Some data;
         emailColumn := emailColumn st; selectedFields := selectedFields st;
         showApiKeyModal := false;
         firecrawlApiKey := firecrawlApiKey st;
         openaiApiKey := openaiApiKey st;
         isValidatingApiKey := isValidatingApiKey st;
         missingKeys := missingKeys st; pendingCSVData := None |}
  | None => setShowApiKeyModal false st
  end.

(** [handleApiKeySubmit]: the next state, the next [localStorage] and the
    toasts shown. [scrapeOk key] tells whether the test request sent with
    the Firecrawl key comes back with [response.ok]. *)
Definition handleApiKeySubmit (check : option EnvStatus)
    (scrapeOk : string → bool) (localStorage : gmap string string)
    (st : PageState) : PageState * gmap string string * list Toast :=
  match check with
  | None => (st, localStorage, [])
  | Some env =>
      if needsFirecrawl env localStorage
         && negb (str_truthy (trim (firecrawlApiKey st)))
      then (st, localStorage,
            [ToastError "Please enter a valid Firecrawl API key"])
      else if needsOpenAI env localStorage
              && negb (str_truthy (trim (openaiApiKey st)))
      then (st, localStorage,
            [ToastError "Please enter a valid OpenAI API key"])
      else if str_truthy (firecrawlApiKey st)
              && negb (scrapeOk (firecrawlApiKey st))
      then (setIsValidatingApiKey false st, localStorage,
            [ToastError "Invalid API key. Please check and try again."])
      else
        let ls1 :=
          if str_truthy (firecrawlApiKey st)
          then <["firecrawl_api_key" := firecrawlApiKey st]> localStorage
          else localStorage in
        let ls2 :=
          if str_truthy (openaiApiKey st)
          then <["openai_api_key" := openaiApiKey st]> ls1
          else ls1 in
        (setIsValidatingApiKey false (takeUpPending st), ls2,
         [ToastSuccess "API keys saved successfully!"])
  end.

(** What the user can do on the page, each where the page offers it: an
    upload in the upload step, the start of the enrichment from the setup
    view (drawn in the setup step when data is there), the key dialog. *)
Inductive PageAction : Type :=
  | DoUpload (check : option EnvStatus) (rows : list CSVRow)
      (columns : list string)
  | DoStartEnrichment (email : string) (fields : list EnrichmentField)
  | DoBack
  | DoReset
  | DoTypeFirecrawlKey (key : string)
  | DoTypeOpenaiKey (key : string)
  | DoCloseDialog
  | DoSubmitKeys (check : option EnvStatus) (scrapeOk : string → bool).

Definition pagePerform (a : PageAction)
    (world : PageState * gmap string string)
  : PageState * gmap string string :=
  let (st, localStorage) := world in
  match a with
  | DoUpload check rows columns =>
      match step st with
      | Upload => (handleCSVUpload check localStorage rows columns st, localStorage)
      | _ => world
      end
  | DoStartEnrichment email fields =>
      match step st, csvData st with
      | Setup, Some _ => (handleStartEnrichment email fields st, localStorage)
      | _, _ => world
      end
  | DoBack => (handleBack st, localStorage)
  | DoReset => (resetProcess st, localStorage)
  | DoTypeFirecrawlKey key => (setFirecrawlApiKey key st, localStorage)
  | DoTypeOpenaiKey key => (setOpenaiApiKey key st, localStorage)
  | DoCloseDialog => (setShowApiKeyModal false st, localStorage)
  | DoSubmitKeys check scrapeOk =>
      let '(st', ls', _) := handleApiKeySubmit check scrapeOk localStorage st in
      (st', ls')
  end.

Definition pageRun (acts : list PageAction)
    (world : PageState * gmap string string)
  : PageState * gmap string string :=
  foldl (fun w a => pagePerform a w) world acts.

(** Whether a submit succeeded: the success toast was shown. *)
Definition succeeded (toasts : list Toast) : bool :=
  match toasts with
  | [ToastSuccess _] => true
  | _ => false
  end.

Lemma trim_empty_key (key : string) :
  str_truthy (trim key) = true → str_truthy key = true.
Proof. destruct key; [done|done]. Qed.

Lemma saved_insert (localStorage : gmap string string) (k k' v : string) :
  saved (<[k := v]> localStorage) k'
  = if decide (k = k') then str_truthy v else saved localStorage k'.
Proof. unfold saved. rewrite lookup_insert. by case_decide. Qed.

(** X20. An upload is taken to the setup step at once exactly when each of
    the two keys is on the server or stored in the browser; otherwise it
    is parked and the key dialog opens, marking the missing keys. When the
    user then enters a key for each missing one and the Firecrawl key, if
    one was typed, passes the test request, the submit stores the typed
    keys, closes the dialog and takes up the parked upload: the page is in
    the setup step with exactly the uploaded data, nothing is left parked,
    and a later upload is no longer parked. *)
Theorem parked_upload_is_taken_up (env : EnvStatus)
    (localStorage : gmap string string) (rows : list CSVRow)
    (columns : list string) (st : PageState)
    (firecrawlKey openaiKey : string) (scrapeOk : string → bool) :
  let missing := needsFirecrawl env localStorage || needsOpenAI env localStorage in
  let uploaded := handleCSVUpload (Some env) localStorage rows columns st in
  let typed := setOpenaiApiKey openaiKey (setFirecrawlApiKey firecrawlKey uploaded) in
  let result := handleApiKeySubmit (Some env) scrapeOk localStorage typed in
  (needsFirecrawl env localStorage = true → trim firecrawlKey ≠ "") →
  (needsOpenAI env localStorage = true → trim openaiKey ≠ "") →
  (firecrawlKey ≠ "" → scrapeOk firecrawlKey = true) →
  (if missing
   then step uploaded = step st ∧ csvData uploaded = csvData st
        ∧ pendingCSVData uploaded = Some (rows, columns)
        ∧ showApiKeyModal uploaded = true
        ∧ missingKeys uploaded
          = (needsFirecrawl env localStorage, needsOpenAI env localStorage)
   else step uploaded = Setup ∧ csvData uploaded = Some (rows, columns)
        ∧ pendingCSVData uploaded = pendingCSVData st)
  ∧ (missing = true →
     step (fst (fst result)) = Setup
     ∧ csvData (fst (fst result)) = Some (rows, columns)
     ∧ pendingCSVData (fst (fst result)) = None
     ∧ showApiKeyModal (fst (fst result)) = false
     ∧ isValidatingApiKey (fst (fst result)) = false
     ∧ succeeded (snd result) = true
     ∧ needsFirecrawl env (snd (fst result)) = false
     ∧ needsOpenAI env (snd (fst result)) = false
     ∧ ∀ rows' columns',
         let again := handleCSVUpload (Some env) (snd (fst result))
                        rows' columns' (setStep Upload (fst (fst result))) in
         step again = Setup ∧ csvData again = Some (rows', columns')).
Proof.
  cbv zeta. intros Hf Ho Hs.
  assert (Hft : needsFirecrawl env localStorage = true →
                str_truthy (trim firecrawlKey) = true).
  { intros H. unfold str_truthy.
    destruct (String.eqb_spec (trim firecrawlKey) ""); [by apply Hf in H|done]. }
  assert (Hot : needsOpenAI env localStorage = true →
                str_truthy (trim openaiKey) = true).
  { intros H. unfold str_truthy.
    destruct (String.eqb_spec (trim openaiKey) ""); [by apply Ho in H|done]. }
  assert (Hst : str_truthy firecrawlKey = true → scrapeOk firecrawlKey = true).
  { intros H. apply Hs. intros ->. done. }
  split.
  - unfold handleCSVUpload.
    by destruct (needsFirecrawl env localStorage || needsOpenAI env localStorage).
  - intros Hmiss. unfold handleCSVUpload. rewrite Hmiss.
    unfold handleApiKeySubmit. simpl.
    assert (E1 : needsFirecrawl env localStorage
                 && negb (str_truthy (trim firecrawlKey)) = false).
    { destruct (needsFirecrawl env localStorage) eqn:E; [|done].
      by rewrite Hft. }
    assert (E2 : needsOpenAI env localStorage
                 && negb (str_truthy (trim openaiKey)) = false).
    { destruct (needsOpenAI env localStorage) eqn:E; [|done].
      by rewrite Hot. }
    assert (E3 : str_truthy firecrawlKey && negb (scrapeOk firecrawlKey) = false).
    { destruct (str_truthy firecrawlKey) eqn:E; [|done]. by rewrite Hst. }
    rewrite E1, E2, E3. simpl.
    assert (N1 : needsFirecrawl env
                   (if str_truthy openaiKey
                    then <["openai_api_key" := openaiKey]>
                           (if str_truthy firecrawlKey
                            then <["firecrawl_api_key" := firecrawlKey]> localStorage
                            else localStorage)
                    else if str_truthy firecrawlKey
                         then <["firecrawl_api_key" := firecrawlKey]> localStorage
                         else localStorage) = false).
    { unfold needsFirecrawl in *.
      destruct (FIRECRAWL_API_KEY env); [done|]. simpl in *.
      destruct (saved localStorage "firecrawl_api_key") eqn:Hsv; simpl in *.
      - destruct (str_truthy openaiKey), (str_truthy firecrawlKey) eqn:Hk;
          rewrite ?saved_insert; repeat case_decide; try done;
          rewrite ?saved_insert; repeat case_decide; try done;
          by rewrite ?Hsv, ?Hk.
      - assert (Hk : str_truthy firecrawlKey = true)
          by (apply trim_empty_key; by apply Hft).
        rewrite Hk.
        destruct (str_truthy openaiKey);
          rewrite ?saved_insert; repeat case_decide; try done;
          rewrite ?saved_insert; repeat case_decide; try done;
          by rewrite ?Hk. }
    assert (N2 : needsOpenAI env
                   (if str_truthy openaiKey
                    then <["openai_api_key" := openaiKey]>
                           (if str_truthy firecrawlKey
                            then <["firecrawl_api_key" := firecrawlKey]> localStorage
                            else localStorage)
                    else if str_truthy firecrawlKey
                         then <["firecrawl_api_key" := firecrawlKey]> localStorage
                         else localStorage) = false).
    { unfold needsOpenAI in *.
      destruct (OPENAI_API_KEY env); [done|]. simpl in *.
      destruct (saved localStorage "openai_api_key") eqn:Hsv; simpl in *.
      - destruct (str_truthy openaiKey) eqn:Hk, (str_truthy firecrawlKey);
          rewrite ?saved_insert; repeat case_decide; try done;
          rewrite ?saved_insert; repeat case_decide; try done;
          by rewrite ?Hsv, ?Hk.
      - assert (Hk : str_truthy openaiKey = true)
          by (apply trim_empty_key; by apply Hot).
        rewrite Hk. rewrite saved_insert. case_decide; [by rewrite Hk|done]. }
    repeat split; try done.
    + unfold handleCSVUpload. by rewrite N1, N2.
    + unfold handleCSVUpload. by rewrite N1, N2.
Qed.

(** X21. A submit of the key dialog that does not succeed (a missing key
    left blank, a Firecrawl key that fails the test request, or a failed
    environment check) changes nothing but the validating flag: the
    browser's stored keys are as before (an OpenAI key typed next to a
    rejected Firecrawl key is not stored), the parked upload is still
    parked, and the step, the data and the dialog are as they were. *)
Theorem failed_submit_changes_nothing (check : option EnvStatus)
    (scrapeOk : string → bool) (localStorage : gmap string string)
    (st : PageState) :
  let result := handleApiKeySubmit check scrapeOk localStorage st in
  succeeded (snd result) = false →
  snd (fst result) = localStorage
  ∧ (fst (fst result) = st
     ∨ fst (fst result) = setIsValidatingApiKey false st)
  ∧ pendingCSVData (fst (fst result)) = pendingCSVData st
  ∧ step (fst (fst result)) = step st
  ∧ csvData (fst (fst result)) = csvData st
  ∧ showApiKeyModal (fst (fst result)) = showApiKeyModal st.
Proof.
  cbv zeta. unfold handleApiKeySubmit.
  destruct check as [env|]; [|simpl; intros _; repeat split; by left].
  destruct (needsFirecrawl env localStorage
            && negb (str_truthy (trim (firecrawlApiKey st))));
    [simpl; intros _; repeat split; by left|].
  destruct (needsOpenAI env localStorage
            && negb (str_truthy (trim (openaiApiKey st))));
    [simpl; intros _; repeat split; by left|].
  destruct (str_truthy (firecrawlApiKey st)
            && negb (scrapeOk (firecrawlApiKey st)));
    [simpl; intros _; repeat split; by right|].
  done.
Qed.

(** The data is there whenever the page is past the upload step. *)
Definition dataPresent (st : PageState) : Prop :=
  match step st with
  | Upload => True
  | Setup | Enrichment => is_Some (csvData st)
  end.

Lemma pagePerform_dataPresent (a : PageAction)
    (world : PageState * gmap string string) :
  dataPresent (fst world) → dataPresent (fst (pagePerform a world)).
Proof.
  destruct world as [st ls]. unfold dataPresent. simpl.
  destruct a; simpl.
  - destruct (step st) eqn:Hs; simpl; rewrite ?Hs; try done.
    unfold handleCSVUpload. destruct check as [env|]; [|by rewrite Hs].
    destruct (needsFirecrawl env ls || needsOpenAI env ls); simpl;
      [by rewrite Hs|eauto].
  - destruct (step st) eqn:Hs; simpl; rewrite ?Hs; try done.
    destruct (csvData st) eqn:Hd; simpl; rewrite ?Hs, ?Hd; eauto.
  - unfold handleBack. destruct (step st) eqn:Hs; simpl; rewrite ?Hs; done.
  - done.
  - done.
  - done.
  - done.
  - unfold handleApiKeySubmit. destruct check as [env|]; [|done].
    destruct (needsFirecrawl env ls
              && negb (str_truthy (trim (firecrawlApiKey st)))); [done|].
    destruct (needsOpenAI env ls
              && negb (str_truthy (trim (openaiApiKey st)))); [done|].
    destruct (str_truthy (firecrawlApiKey st)
              && negb (scrapeOk (firecrawlApiKey st))); [done|].
    simpl. unfold takeUpPending.
    destruct (pendingCSVData st); simpl; eauto.
Qed.

(** X22. The page never reaches the setup or the enrichment step without
    data: from the initial page, whatever the user does and in whatever
    order (uploads, key dialog, start, back, reset), the uploaded rows and
    columns are present whenever the step is not the upload step, so the
    enrichment table is always drawn in the enrichment step. *)
Theorem data_present_past_upload (acts : list PageAction)
    (localStorage : gmap string string) :
  let st := fst (pageRun acts (initialPage, localStorage)) in
  match step st with
  | Upload => True
  | Setup | Enrichment => is_Some (csvData st)
  end.
Proof.
  cbv zeta. change (dataPresent (fst (pageRun acts (initialPage, localStorage)))).
  assert (H : ∀ world, dataPresent (fst world) →
                       dataPresent (fst (pageRun acts world))).
  { induction acts as [|a acts IH]; intros world Hw; [done|].
    simpl. apply IH. by apply pagePerform_dataPresent. }
  by apply H.
Qed.

End HomePage.

(** ** Worked scenarios, continued *)

(** A parser for the scenarios: every payload but [bad] gives itself as
    its event. *)
Definition parseSample (payload : string) : option string :=
  if String.eqb payload "bad" then None else Some payload.

(** On four fields, 500 ms after the row's arrival the field at position 2
    is still held back. *)
Lemma cell_held_back_iff_witness :
  let st := handleEvent sampleRows 2000 "0.22" (EvResult resultRow0) initial in
  rowDataArrivalTime st !! 0 = Some 2000
  ∧ 2000 ≠ 0
  ∧ fourFields !! 2%nat = Some (mkField "employees" "Employees" "string")
  ∧ Z.of_nat (length fourFields) < 2 ^ 32
  ∧ cellAwaitsReveal fourFields st 2500 0 2 "employees" = true.
Proof.
  cbv zeta.
  assert (H1 : rowDataArrivalTime
                 (handleEvent sampleRows 2000 "0.22" (EvResult resultRow0) initial)
                 !! 0 = Some 2000) by (vm_compute; reflexivity).
  assert (H2 : 2000 ≠ 0) by lia.
  assert (H3 : fourFields !! 2%nat = Some (mkField "employees" "Employees" "string"))
    by reflexivity.
  assert (H4 : Z.of_nat (length fourFields) < 2 ^ 32) by reflexivity.
  destruct (cell_held_back_iff fourFields
              (handleEvent sampleRows 2000 "0.22" (EvResult resultRow0) initial)
              0 2000 2 (mkField "employees" "Employees" "string") 2500 H1 H2 H3 H4)
    as [_ Hsix].
  split; [exact H1|]. split; [exact H2|]. split; [exact H3|]. split; [exact H4|].
  apply Hsix; [simpl; lia|]. split; [|lia].
  simpl. apply not_elem_of_empty.
Defined.

(** The requested fields of the scenario and one called [constructor]. *)
Definition fieldsWithConstructor : list EnrichmentField :=
  mkField "constructor" "Constructor" "string" :: sampleFields.


Lemma frames_decode_to_their_events_witness :
  Forall noLF ["a"; "bad"; "b"]
  ∧ Forall (Forall noLF) [["a"]; ["bad"; "b"]]
  ∧ chunkEvents parseSample (fun _ => 0) (fun _ => "") (frames ["a"; "bad"; "b"])
    = ["a"; "b"].
Proof.
  assert (H1 : Forall noLF ["a"; "bad"; "b"]) by (repeat constructor).
  assert (H2 : Forall (Forall noLF) [["a"]; ["bad"; "b"]]) by (repeat constructor).
  destruct (frames_decode_to_their_events parseSample (fun _ => 0) (fun _ => "")
              ["a"; "bad"; "b"] [["a"]; ["bad"; "b"]] H1 H2) as [H _].
  split; [exact H1|]. split; [exact H2|]. exact H.
Defined.

(** The frame of payload [bc] is cut after [b]: its event is not
    delivered; [b] is, as the first piece is a line that parses. *)
Lemma frame_cut_by_chunk_boundary_witness :
  Forall noLF ["a"] ∧ Forall noLF ["d"] ∧ noLF "data: b" ∧ noLF "c"
  ∧ chunkEvents parseSample (fun _ => 0) (fun _ => "") (frames ["a"] +:+ "data: b")
    ++ chunkEvents parseSample (fun _ => 0) (fun _ => "")
         ("c" +:+ LF +:+ LF +:+ frames ["d"])
    = ["a"; "b"; "d"].
Proof.
  assert (H1 : Forall noLF ["a"]) by (repeat constructor).
  assert (H2 : Forall noLF ["d"]) by (repeat constructor).
  assert (H3 : noLF "data: b") by reflexivity.
  assert (H4 : noLF "c") by reflexivity.
  destruct (frame_cut_by_chunk_boundary parseSample (fun _ => 0) (fun _ => 0)
              (fun _ => "") (fun _ => "") ["a"] ["d"] "data: b" "c" H1 H2 H3 H4)
    as [H _].
  split; [exact H1|]. split; [exact H2|]. split; [exact H3|]. split; [exact H4|].
  exact H.
Defined.

Lemma submitted_row_shows_its_email_witness :
  SingleEmailInput.submitted (SingleEmailInput.handleSubmit " ada@acme.io " " ")
    = Some ([[("email", "ada@acme.io")]], ["email"])
  ∧ Some "email" ∈ [None; Some ""; Some "email"]
  ∧ emailOf (Some "email") [("email", "ada@acme.io")] = Some "ada@acme.io".
Proof.
  assert (H1 : SingleEmailInput.submitted
                 (SingleEmailInput.handleSubmit " ada@acme.io " " ")
               = Some ([[("email", "ada@acme.io")]], ["email"]))
    by (vm_compute; reflexivity).
  assert (H2 : Some "email" ∈ [None; Some ""; Some "email"])
    by (right; right; left).
  destruct (SingleEmailInput.submitted_row_shows_its_email
              " ada@acme.io " " " _ _ (Some "email") H1 H2)
    as (row & Hrow & Hemail & _).
  injection Hrow as <-.
  split; [exact H1|]. split; [exact H2|]. exact Hemail.
Defined.

(** No key on the server for Firecrawl, none stored: the upload is parked;
    a key is typed and passes the test request. *)
Lemma parked_upload_is_taken_up_witness :
  let env := HomePage.mkEnv false true in
  let uploaded :=
    HomePage.handleCSVUpload (Some env) ∅ sampleRows ["email"] HomePage.initialPage in
  let typed :=
    HomePage.setOpenaiApiKey "" (HomePage.setFirecrawlApiKey "fc-1" uploaded) in
  let result := HomePage.handleApiKeySubmit (Some env) (fun _ => true) ∅ typed in
  HomePage.pendingCSVData uploaded = Some (sampleRows, ["email"])
  ∧ HomePage.step (fst (fst result)) = HomePage.Setup
  ∧ HomePage.csvData (fst (fst result)) = Some (sampleRows, ["email"]).
Proof.
  cbv zeta.
  destruct (HomePage.parked_upload_is_taken_up (HomePage.mkEnv false true) ∅
              sampleRows ["email"] HomePage.initialPage "fc-1" ""
              (fun _ => true)) as [Hup Hsub].
  - intros _. vm_compute. discriminate.
  - vm_compute. discriminate.
  - reflexivity.
  - destruct (Hsub eq_refl) as (Hs & Hd & _).
    split; [apply Hup|]. split; [exact Hs|exact Hd].
Defined.

(** The typed Firecrawl key fails the test request. *)
Lemma failed_submit_changes_nothing_witness :
  let st := HomePage.setOpenaiApiKey "sk-1"
              (HomePage.setFirecrawlApiKey "fc-bad" HomePage.initialPage) in
  let result :=
    HomePage.handleApiKeySubmit (Some (HomePage.mkEnv false false))
      (fun _ => false) ∅ st in
  HomePage.succeeded (snd result) = false
  ∧ snd (fst result) = ∅.
Proof.
  cbv zeta.
  assert (H : HomePage.succeeded
                (snd (HomePage.handleApiKeySubmit (Some (HomePage.mkEnv false false))
                        (fun _ => false) ∅
                        (HomePage.setOpenaiApiKey "sk-1"
                           (HomePage.setFirecrawlApiKey "fc-bad" HomePage.initialPage))))
              = false) by (vm_compute; reflexivity).
  destruct (HomePage.failed_submit_changes_nothing
              (Some (HomePage.mkEnv false false)) (fun _ => false) ∅
              (HomePage.setOpenaiApiKey "sk-1"
                 (HomePage.setFirecrawlApiKey "fc-bad" HomePage.initialPage)) H)
    as (Hls & _).
  split; [exact H|exact Hls].
Defined.
